(** * shutil: glob compilation, variable substitution and quoting

    A shallow embedding of the Go package [shutil] (glob.go, subst.go,
    quote.go) and the properties of its glob translator, its compiled
    matcher, its [Substitute] routine and its [Quote] routine.

    Go strings are byte sequences ([list ascii]); runes and Go [int]s are
    integers ([Z]).  The standard-library routines the package calls
    (unicode/utf8, strings, regexp) are modelled in their own modules. *)

From Stdlib Require Import ZArith List Ascii String Bool Lia.
Import ListNotations.
Local Open Scope Z_scope.

(* ================================================================== *)
(** ** Go strings *)

Module GoString.

(** A Go [string]: an immutable sequence of bytes. *)
Definition gostring := list ascii.

(** A string literal. *)
Definition bytes (s : string) : gostring := list_ascii_of_string s.

(** The numeric value of a byte, and the byte of a value in 0..255. *)
Definition byteZ (c : ascii) : Z := Z.of_N (N_of_ascii c).
Definition ofZ (z : Z) : ascii := ascii_of_N (Z.to_N z).

(** [len(s)] *)
Definition len (s : gostring) : Z := Z.of_nat (List.length s).

(** [s[i:]]; every use in the package has 0 <= i <= len(s). *)
Definition from (s : gostring) (i : Z) : gostring := skipn (Z.to_nat i) s.

(** [s[i:j]]; every use in the package has 0 <= i <= j <= len(s). *)
Definition slice (s : gostring) (i j : Z) : gostring :=
  firstn (Z.to_nat (j - i)) (skipn (Z.to_nat i) s).

Definition byte_eqb (a b : ascii) : bool := Ascii.eqb a b.

Fixpoint eqb (a b : gostring) : bool :=
  match a, b with
  | [], [] => true
  | x :: a', y :: b' => byte_eqb x y && eqb a' b'
  | _, _ => false
  end.

(** [strings.HasPrefix(s, prefix)] *)
Fixpoint HasPrefix (s prefix : gostring) {struct prefix} : bool :=
  match prefix, s with
  | [], _ => true
  | x :: prefix', y :: s' => byte_eqb x y && HasPrefix s' prefix'
  | _ :: _, [] => false
  end.

(** [strings.IndexByte(s, c)]: offset of the first [c], or -1. *)
Fixpoint IndexByte (s : gostring) (c : ascii) : Z :=
  match s with
  | [] => -1
  | x :: s' =>
      if byte_eqb x c then 0
      else let i := IndexByte s' c in if i <? 0 then -1 else i + 1
  end.

(** [strings.IndexAny(s, chars)] for ASCII [chars]: offset of the first
    byte of [s] that is one of [chars], or -1. *)
Fixpoint IndexAny (s chars : gostring) : Z :=
  match s with
  | [] => -1
  | x :: s' =>
      if existsb (byte_eqb x) chars then 0
      else let i := IndexAny s' chars in if i <? 0 then -1 else i + 1
  end.

End GoString.
Import GoString.

(* ================================================================== *)
(** ** unicode/utf8 *)

Module utf8.

Definition rune := Z.

Definition RuneError : rune := 65533.   (* U+FFFD *)
Definition MaxRune : rune := 1114111.   (* U+10FFFF *)
Definition RuneSelf : Z := 128.

(** Information about the first byte of an encoding ([first] table):
    [None] for an ASCII byte, [Some None] for an invalid leading byte,
    [Some (Some (size, lo, hi))] for the leading byte of a sequence of
    [size] bytes whose second byte lies in [lo..hi]. *)
Definition first (s0 : Z) : option (option (Z * Z * Z)) :=
  if s0 <? 128 then None
  else if s0 <? 194 then Some None                (* 0x80-0xC1 *)
  else if s0 <? 224 then Some (Some (2, 128, 191)) (* 0xC2-0xDF *)
  else if s0 =? 224 then Some (Some (3, 160, 191)) (* 0xE0 *)
  else if s0 <? 237 then Some (Some (3, 128, 191)) (* 0xE1-0xEC *)
  else if s0 =? 237 then Some (Some (3, 128, 159)) (* 0xED *)
  else if s0 <? 240 then Some (Some (3, 128, 191)) (* 0xEE-0xEF *)
  else if s0 =? 240 then Some (Some (4, 144, 191)) (* 0xF0 *)
  else if s0 <? 244 then Some (Some (4, 128, 191)) (* 0xF1-0xF3 *)
  else if s0 =? 244 then Some (Some (4, 128, 143)) (* 0xF4 *)
  else Some None.                                  (* 0xF5-0xFF *)

Definition cont (b : Z) : bool := (128 <=? b) && (b <=? 191).

(** [utf8.DecodeRuneInString]: the first rune of [s] and its width in
    bytes; [(RuneError, 0)] on the empty string and [(RuneError, 1)] on
    an invalid encoding.  The payload bits that Go extracts with a mask
    ([b & 0x3F]) and assembles with shifts are written [b mod 64] and
    multiplications by powers of two. *)
Definition DecodeRuneInString (s : gostring) : rune * Z :=
  match s with
  | [] => (RuneError, 0)
  | c0 :: t =>
      let s0 := byteZ c0 in
      match first s0 with
      | None => (s0, 1)
      | Some None => (RuneError, 1)
      | Some (Some (sz, lo, hi)) =>
          match t with
          | [] => (RuneError, 1)
          | c1 :: t1 =>
              let s1 := byteZ c1 in
              if (s1 <? lo) || (hi <? s1) then (RuneError, 1)
              else if sz <=? 2 then
                ((s0 mod 32) * 64 + s1 mod 64, 2)
              else
                match t1 with
                | [] => (RuneError, 1)
                | c2 :: t2 =>
                    let s2 := byteZ c2 in
                    if negb (cont s2) then (RuneError, 1)
                    else if sz <=? 3 then
                      ((s0 mod 16) * 4096 + (s1 mod 64) * 64 + s2 mod 64, 3)
                    else
                      match t2 with
                      | [] => (RuneError, 1)
                      | c3 :: _ =>
                          let s3 := byteZ c3 in
                          if negb (cont s3) then (RuneError, 1)
                          else
                            ((s0 mod 8) * 262144 + (s1 mod 64) * 4096
                             + (s2 mod 64) * 64 + s3 mod 64, 4)
                      end
                end
          end
      end
  end.

(** [utf8.AppendRune(nil, r)]: the UTF-8 encoding of [r]; a rune out of
    range or in the surrogate range is encoded as [RuneError]. *)
Definition EncodeRune (r : rune) : gostring :=
  if (0 <=? r) && (r <=? 127) then [ofZ r]
  else if (0 <=? r) && (r <=? 2047) then
    [ofZ (192 + r / 64); ofZ (128 + r mod 64)]
  else if (r <? 0) || (MaxRune <? r) || ((55296 <=? r) && (r <=? 57343)) then
    [ofZ 239; ofZ 191; ofZ 189]
  else if r <=? 65535 then
    [ofZ (224 + r / 4096); ofZ (128 + (r / 64) mod 64);
     ofZ (128 + r mod 64)]
  else
    [ofZ (240 + r / 262144); ofZ (128 + (r / 4096) mod 64);
     ofZ (128 + (r / 64) mod 64); ofZ (128 + r mod 64)].

(** The runes of a string as a [for range] loop or the regexp engine
    reads them: an invalid byte counts as one [RuneError]. *)
Fixpoint runesFuel (fuel : nat) (s : gostring) : list rune :=
  match fuel with
  | O => []
  | S fuel' =>
      match s with
      | [] => []
      | _ :: _ =>
          let '(r, w) := DecodeRuneInString s in
          r :: runesFuel fuel' (from s w)
      end
  end.

Definition runes (s : gostring) : list rune := runesFuel (List.length s) s.

End utf8.
Import utf8.

(** The rune of an ASCII character literal. *)
Definition rn (c : ascii) : rune := byteZ c.
Arguments rn c%_char.

(* ================================================================== *)
(** ** Errors *)

(** Codes of [regexp/syntax.Error]. *)
Inductive ErrorCode :=
| ErrInvalidCharRange
| ErrInvalidEscape
| ErrInvalidRepeatOp
| ErrMissingBracket
| ErrMissingParen
| ErrMissingRepeatArgument
| ErrTrailingBackslash
| ErrUnexpectedParen.

(** The values of Go's [error] interface that the package produces:
    the sentinel [ErrUnterminatedClass], a [GlobError] (pattern, index,
    wrapped error), an error of the regexp engine, and the [fmt.Errorf]
    errors of [Substitute]. *)
Inductive error :=
| ErrUnterminatedClass
| GlobError (Pattern : gostring) (Index : Z) (Err : error)
| SyntaxError (Code : ErrorCode)
| UndefinedVariable (name : gostring)
| MalformedSubstitution (text : gostring)
| MalformedRegexpSubstitution (text : gostring)
| MalformedRegexpParts (def : gostring).

(** [GlobError.Unwrap] *)
Definition Unwrap (e : error) : option error :=
  match e with
  | GlobError _ _ inner => Some inner
  | _ => None
  end.

Definition isGlobError (e : error) : bool :=
  match e with
  | GlobError _ _ _ => true
  | _ => false
  end.

(* ================================================================== *)
(** ** The glob translator (glob.go) *)

Definition eof : rune := 0.

(** [parseFunc]: the two states of the translator; Go's [nil] state is
    [None] of [option parseFunc]. *)
Inductive parseFunc := ParseMain | ParseClass.

Record globParser := mkParser {
  in_ : gostring;
  index : Z;
  width : Z;
  neg : bool;
  err : option error;
  out : gostring;          (* strings.Builder *)
  choiceNest : Z
}.

Definition set_index (i : Z) (p : globParser) : globParser :=
  mkParser (in_ p) i (width p) (neg p) (err p) (out p) (choiceNest p).
Definition set_width (w : Z) (p : globParser) : globParser :=
  mkParser (in_ p) (index p) w (neg p) (err p) (out p) (choiceNest p).
Definition set_neg (b : bool) (p : globParser) : globParser :=
  mkParser (in_ p) (index p) (width p) b (err p) (out p) (choiceNest p).
Definition set_err (e : error) (p : globParser) : globParser :=
  mkParser (in_ p) (index p) (width p) (neg p) (Some e) (out p) (choiceNest p).
Definition set_out (o : gostring) (p : globParser) : globParser :=
  mkParser (in_ p) (index p) (width p) (neg p) (err p) o (choiceNest p).
Definition set_choiceNest (n : Z) (p : globParser) : globParser :=
  mkParser (in_ p) (index p) (width p) (neg p) (err p) (out p) n.

(** [p.out.WriteRune(r)], [p.out.WriteString(s)] *)
Definition WriteRune (r : rune) (p : globParser) : globParser :=
  set_out (out p ++ EncodeRune r) p.
Definition WriteString (s : gostring) (p : globParser) : globParser :=
  set_out (out p ++ s) p.

(** [globParser.next] *)
Definition next (l : globParser) : rune * globParser :=
  let '(r, w) := DecodeRuneInString (from (in_ l) (index l)) in
  let l := set_width w l in
  if width l =? 0 then (eof, l)
  else (r, set_index (index l + width l) l).

(** [globParser.back] *)
Definition back (l : globParser) : globParser :=
  set_width 0 (set_index (index l - width l) l).

(** [globParser.peek] *)
Definition peek (l : globParser) : rune * globParser :=
  let '(r, l) := next l in (r, back l).

(** The [literal:] label of [parseMain]. *)
Definition literalMain (r : rune) (p : globParser)
  : globParser * option parseFunc :=
  (WriteRune r p, Some ParseMain).

Definition regexSpecial (r : rune) : bool :=
  (r =? rn ".") || (r =? rn "(") || (r =? rn ")") || (r =? rn "^")
  || (r =? rn "$") || (r =? rn "|") || (r =? rn "+").

(** [parseMain] *)
Definition parseMain (p : globParser) : globParser * option parseFunc :=
  let '(r, p) := next p in
  if r =? eof then (p, None)
  else if r =? rn "\" then
    let '(nx, p) := next p in
    if nx =? eof then literalMain r p
    else (WriteRune nx p, Some ParseMain)
  else if r =? rn "!" then
    if negb (index p - width p =? 0) then literalMain r p
    else (set_neg (negb (neg p)) p, Some ParseMain)
  else if regexSpecial r then
    literalMain r (WriteRune (rn "\") p)
  else if r =? rn "{" then
    (set_choiceNest (choiceNest p + 1) (WriteRune (rn "(") p), Some ParseMain)
  else if r =? rn "," then
    if choiceNest p =? 0 then literalMain r p
    else (WriteRune (rn "|") p, Some ParseMain)
  else if r =? rn "}" then
    if choiceNest p =? 0 then literalMain r p
    else (set_choiceNest (choiceNest p - 1) (WriteRune (rn ")") p),
          Some ParseMain)
  else if r =? rn "[" then (p, Some ParseClass)
  else if r =? rn "?" then (WriteString (bytes "[^/]") p, Some ParseMain)
  else if r =? rn "*" then
    if HasPrefix (from (in_ p) (index p)) (bytes "*/") then
      let p := WriteString (bytes "(|[^\0]*/)") p in
      (set_index (index p + len (bytes "*/")) p, Some ParseMain)
    else
      let '(r1, p) := peek p in
      if r1 =? rn "*" then
        let p := WriteString (bytes "[^\0]*/?") p in
        let '(_, p) := next p in (p, Some ParseMain)
      else
        let '(r2, p) := peek p in
        if r2 =? rn "/" then
          let p := WriteString (bytes "([^/]*/)?") p in
          let '(_, p) := next p in (p, Some ParseMain)
        else (WriteString (bytes "[^/]*") p, Some ParseMain)
  else literalMain r p.

Definition classEscaped (r : rune) : bool :=
  (r =? rn "\") || (r =? rn "-") || (r =? rn "^") || (r =? rn "[")
  || (r =? rn "]").

(** The [for] loop of [parseClass]; one unit of fuel per iteration. *)
Fixpoint parseClassLoop (fuel : nat) (start : Z) (p : globParser)
  : option (globParser * option parseFunc) :=
  match fuel with
  | O => None
  | S fuel' =>
      let '(r, p) := next p in
      if r =? eof then
        Some (set_err (GlobError (in_ p) (index p) ErrUnterminatedClass) p,
              None)
      else if r =? rn "\" then
        let '(nx, p) := next p in
        if nx =? eof then parseClassLoop fuel' start (WriteRune r p)
        else if classEscaped nx then
          parseClassLoop fuel' start (WriteRune nx (WriteRune (rn "\") p))
        else parseClassLoop fuel' start (WriteRune nx p)
      else if r =? rn "!" then
        if index p - start - width p =? 0 then
          parseClassLoop fuel' start (WriteRune (rn "^") p)
        else parseClassLoop fuel' start (WriteRune r p)
      else if r =? rn "[" then
        parseClassLoop fuel' start (WriteRune r (WriteRune (rn "\") p))
      else if r =? rn "]" then Some (WriteRune r p, Some ParseMain)
      else parseClassLoop fuel' start (WriteRune r p)
  end.

(** [parseClass]; the loop runs at most once per remaining byte, plus the
    iteration that meets the end of the input. *)
Definition parseClass (p : globParser)
  : option (globParser * option parseFunc) :=
  let p := WriteRune (rn "[") p in
  let start := index p in
  parseClassLoop (S (List.length (in_ p))) start p.

Definition applyState (f : parseFunc) (p : globParser)
  : option (globParser * option parseFunc) :=
  match f with
  | ParseMain => Some (parseMain p)
  | ParseClass => parseClass p
  end.

(** [for state := parseMain; state != nil; state = state(&p)] *)
Fixpoint runStates (fuel : nat) (state : option parseFunc) (p : globParser)
  : option globParser :=
  match state with
  | None => Some p
  | Some f =>
      match fuel with
      | O => None
      | S fuel' =>
          match applyState f p with
          | None => None
          | Some (p', state') => runStates fuel' state' p'
          end
      end
  end.

(** The parser as [CompileGlob] sets it up: [globParser{in: pattern}]
    with [^(?s)] written to its output. *)
Definition initParser (pattern : gostring) : globParser :=
  WriteString (bytes "^(?s)") (mkParser pattern 0 0 false None [] 0).

(** The translation part of [CompileGlob]: the parser after the state
    loop.  Each state call but the last consumes input, so one more than
    the length of the pattern is fuel enough ([translate_total]). *)
Definition translate (pattern : gostring) : option globParser :=
  runStates (S (List.length pattern)) (Some ParseMain) (initParser pattern).

(** The first [n] state calls of the loop: the parser they leave and the
    state to call next; [None] when the loop ends before. *)
Fixpoint stepsFrom (n : nat) (state : option parseFunc) (p : globParser)
  : option (globParser * option parseFunc) :=
  match n with
  | O => Some (p, state)
  | S n' =>
      match state with
      | None => None
      | Some f =>
          match applyState f p with
          | None => None
          | Some (p', state') => stepsFrom n' state' p'
          end
      end
  end.

(** The parser and the state to call after the first [n] state calls of
    [CompileGlob] on [pattern]. *)
Definition stateAfter (n : nat) (pattern : gostring)
  : option (globParser * option parseFunc) :=
  stepsFrom n (Some ParseMain) (initParser pattern).

(** The text after an opening bracket that never closes the class: it
    holds no closing bracket but escaped ones, each right after the
    backslash that escapes it. *)
Fixpoint unclosed (body : gostring) : bool :=
  match body with
  | [] => true
  | c :: t =>
      if byte_eqb c "\" then
        match t with
        | [] => true
        | _ :: t' => unclosed t'
        end
      else if byte_eqb c "]" then false
      else unclosed t
  end.

(* ================================================================== *)
(** ** The regexp engine (Go's regexp and regexp/syntax)

    The engine is Go's, not the package's.  It is modelled for the part of
    its syntax given below, with the Perl flags [regexp.Compile] parses
    under: literals, [.], [^], [$], escaped punctuation, octal escapes,
    bracket classes of characters and ranges, groups, the flag group
    [(?s)], alternation and the repetitions [*], [+], [?] (greedy or
    not).  On any other syntax (escapes that start with a letter, Unicode
    and POSIX classes, counted repetition, other flag groups) and on text
    longer than [maxModelled] bytes, where the engine's size limits could
    apply, [Compile] gives no verdict ([NotModelled]). *)

Module regexp.

Inductive Regexp :=
| OpEmptyMatch
| OpLiteral (r : rune)
| OpCharClass (negated : bool) (ranges : list (rune * rune))
| OpAnyCharNotNL
| OpAnyChar
| OpBeginText
| OpEndText
| OpCapture (sub : Regexp)
| OpStar (sub : Regexp)
| OpPlus (sub : Regexp)
| OpQuest (sub : Regexp)
| OpConcat (a b : Regexp)
| OpAlternate (a b : Regexp).

Inductive result :=
| Compiled (re : Regexp)
| Rejected (code : ErrorCode)
| NotModelled.

Definition maxModelled : nat := 1000.

(** *** Parsing *)

Definition isOctal (c : rune) : bool := (rn "0" <=? c) && (c <=? rn "7").
Definition isDigit (c : rune) : bool := (rn "0" <=? c) && (c <=? rn "9").
Definition isLetter (c : rune) : bool :=
  ((rn "A" <=? c) && (c <=? rn "Z")) || ((rn "a" <=? c) && (c <=? rn "z")).

Inductive parsed (A : Type) :=
| POk (a : A) (rest : list rune)
| PErr (code : ErrorCode)
| PNotModelled.
Arguments POk {A}.
Arguments PErr {A}.
Arguments PNotModelled {A}.

(** Up to [n] more octal digits after the value [r]. *)
Fixpoint octalDigits (n : nat) (r : rune) (t : list rune)
  : rune * list rune :=
  match n, t with
  | S n', c :: t' =>
      if isOctal c then octalDigits n' (r * 8 + c - rn "0") t'
      else (r, t)
  | _, _ => (r, t)
  end.

(** [parseEscape]: [t] is the text after the backslash. *)
Definition parseEscape (t : list rune) : parsed rune :=
  match t with
  | [] => PErr ErrTrailingBackslash
  | c :: t' =>
      if isLetter c then PNotModelled
      else if c =? rn "0" then
        let '(r, rest) := octalDigits 2 0 t' in POk r rest
      else if isOctal c then
        match t' with
        | d :: _ =>
            if isOctal d then
              let '(r, rest) := octalDigits 2 (c - rn "0") t' in POk r rest
            else PErr ErrInvalidEscape
        | [] => PErr ErrInvalidEscape
        end
      else if isDigit c then PErr ErrInvalidEscape
      else if c <? RuneSelf then POk c t'
      else PErr ErrInvalidEscape
  end.

(** [parseClassChar] *)
Definition parseClassChar (t : list rune) : parsed rune :=
  match t with
  | [] => PErr ErrMissingBracket
  | c :: t' => if c =? rn "\" then parseEscape t' else POk c t'
  end.

(** The loop of [parseClass]: the ranges of a bracket class, [t] being
    the text after the bracket and the optional [^]. *)
Fixpoint classItems (fuel : nat) (isFirst : bool) (t : list rune)
         (acc : list (rune * rune)) : parsed (list (rune * rune)) :=
  match fuel with
  | O => PNotModelled
  | S fuel' =>
      match t with
      | c :: t' =>
          if (c =? rn "]") && negb isFirst then POk (rev acc) t'
          else
            match t with
            | a :: b :: _ :: _ =>
                if (a =? rn "[") && (b =? rn ":") then PNotModelled
                else classRange fuel' t acc
            | _ => classRange fuel' t acc
            end
      | [] => PErr ErrMissingBracket
      end
  end
with classRange (fuel : nat) (t : list rune) (acc : list (rune * rune))
     : parsed (list (rune * rune)) :=
  match fuel with
  | O => PNotModelled
  | S fuel' =>
      match parseClassChar t with
      | PErr e => PErr e
      | PNotModelled => PNotModelled
      | POk lo t1 =>
          match t1 with
          | d :: x :: t2 =>
              if (d =? rn "-") && negb (x =? rn "]") then
                match parseClassChar (x :: t2) with
                | PErr e => PErr e
                | PNotModelled => PNotModelled
                | POk hi t3 =>
                    if hi <? lo then PErr ErrInvalidCharRange
                    else classItems fuel' false t3 ((lo, hi) :: acc)
                end
              else classItems fuel' false t1 ((lo, lo) :: acc)
          | _ => classItems fuel' false t1 ((lo, lo) :: acc)
          end
      end
  end.

(** [parseClass]: [t] is the text after the opening bracket. *)
Definition parseClass (t : list rune) : parsed Regexp :=
  let '(negated, t) :=
    match t with
    | c :: t' => if c =? rn "^" then (true, t') else (false, t)
    | [] => (false, t)
    end in
  match classItems (2 * List.length t + 2) true t [] with
  | POk ranges rest => POk (OpCharClass negated ranges) rest
  | PErr e => PErr e
  | PNotModelled => PNotModelled
  end.

(** The concatenation of the pieces [cur] (last piece first) and the
    alternation of the alternatives [alts] (last alternative first). *)
Fixpoint concatOf (cur : list Regexp) : Regexp :=
  match cur with
  | [] => OpEmptyMatch
  | [x] => x
  | x :: cur' => OpConcat (concatOf cur') x
  end.

Fixpoint alternateOf (alts : list Regexp) (last : Regexp) : Regexp :=
  match alts with
  | [] => last
  | x :: alts' => OpAlternate (alternateOf alts' x) last
  end.

(** An open group: the alternatives and pieces read before its
    parenthesis and the flags to restore at its end. *)
Record frame := mkFrame {
  fAlts : list Regexp;
  fCur : list Regexp;
  fDotNL : bool
}.

Inductive repeatOp := RStar | RPlus | RQuest.

Definition applyRepeat (op : repeatOp) (sub : Regexp) : Regexp :=
  match op with
  | RStar => OpStar sub
  | RPlus => OpPlus sub
  | RQuest => OpQuest sub
  end.

Definition repeatOf (c : rune) : option repeatOp :=
  if c =? rn "*" then Some RStar
  else if c =? rn "+" then Some RPlus
  else if c =? rn "?" then Some RQuest
  else None.

(** The main loop of [parse].  [stack] holds the open groups, [alts] and
    [cur] the alternatives and pieces of the innermost one, [dotNL] the
    flag [s], [lastRepeat] whether the text just read was a
    repetition operator. *)
Fixpoint parseLoop (fuel : nat) (t : list rune) (stack : list frame)
         (alts cur : list Regexp) (dotNL lastRepeat : bool) : result :=
  match fuel with
  | O => NotModelled
  | S fuel' =>
      match t with
      | [] =>
          match stack with
          | [] => Compiled (alternateOf alts (concatOf cur))
          | _ :: _ => Rejected ErrMissingParen
          end
      | c :: t' =>
          if c =? rn "(" then
            match t' with
            | q :: t2 =>
                if q =? rn "?" then
                  match t2 with
                  | s :: e :: t3 =>
                      if (s =? rn "s") && (e =? rn ")") then
                        parseLoop fuel' t3 stack alts cur true false
                      else NotModelled
                  | _ => NotModelled
                  end
                else parseLoop fuel' t' (mkFrame alts cur dotNL :: stack)
                               [] [] dotNL false
            | [] => parseLoop fuel' t' (mkFrame alts cur dotNL :: stack)
                              [] [] dotNL false
            end
          else if c =? rn "|" then
            parseLoop fuel' t' stack (concatOf cur :: alts) [] dotNL false
          else if c =? rn ")" then
            match stack with
            | [] => Rejected ErrUnexpectedParen
            | f :: stack' =>
                parseLoop fuel' t' stack' (fAlts f)
                  (OpCapture (alternateOf alts (concatOf cur)) :: fCur f)
                  (fDotNL f) false
            end
          else if c =? rn "^" then
            parseLoop fuel' t' stack alts (OpBeginText :: cur) dotNL false
          else if c =? rn "$" then
            parseLoop fuel' t' stack alts (OpEndText :: cur) dotNL false
          else if c =? rn "." then
            parseLoop fuel' t' stack alts
              ((if dotNL then OpAnyChar else OpAnyCharNotNL) :: cur)
              dotNL false
          else if c =? rn "[" then
            match parseClass t' with
            | POk re rest =>
                parseLoop fuel' rest stack alts (re :: cur) dotNL false
            | PErr e => Rejected e
            | PNotModelled => NotModelled
            end
          else if c =? rn "{" then
            match t' with
            | d :: _ =>
                if isDigit d then NotModelled
                else parseLoop fuel' t' stack alts (OpLiteral c :: cur)
                               dotNL false
            | [] => parseLoop fuel' t' stack alts (OpLiteral c :: cur)
                              dotNL false
            end
          else if c =? rn "\" then
            match parseEscape t' with
            | POk r rest =>
                parseLoop fuel' rest stack alts (OpLiteral r :: cur)
                          dotNL false
            | PErr e => Rejected e
            | PNotModelled => NotModelled
            end
          else
            match repeatOf c with
            | Some op =>
                let rest :=
                  match t' with
                  | q :: t2 => if q =? rn "?" then t2 else t'
                  | [] => t'
                  end in
                if lastRepeat then Rejected ErrInvalidRepeatOp
                else
                  match cur with
                  | [] => Rejected ErrMissingRepeatArgument
                  | sub :: cur' =>
                      parseLoop fuel' rest stack alts
                                (applyRepeat op sub :: cur') dotNL true
                  end
            | None =>
                parseLoop fuel' t' stack alts (OpLiteral c :: cur)
                          dotNL false
            end
      end
  end.

(** The runes of the expression text; [None] when it is not UTF-8. *)
Fixpoint textRunes (fuel : nat) (s : gostring) : option (list rune) :=
  match fuel with
  | O => match s with [] => Some [] | _ => None end
  | S fuel' =>
      match s with
      | [] => Some []
      | _ :: _ =>
          let '(r, w) := DecodeRuneInString s in
          if (r =? RuneError) && (w =? 1) then None
          else option_map (cons r) (textRunes fuel' (from s w))
      end
  end.

(** [regexp.Compile] *)
Definition Compile (expr : gostring) : result :=
  if (maxModelled <? List.length expr)%nat then NotModelled
  else
    match textRunes (List.length expr) expr with
    | None => NotModelled
    | Some t => parseLoop (S (List.length t)) t [] [] [] false false
    end.

(** *** Matching

    A backtracking matcher over the runes of the input.  [atStart]
    tells whether the position is the beginning of the text; the
    continuation [k] receives the position after the match.  An
    iteration of a repetition that matches the empty text is cut, which
    changes no verdict. *)

Definition inRange (c : rune) (lohi : rune * rune) : bool :=
  (fst lohi <=? c) && (c <=? snd lohi).

Definition classMatches (negated : bool) (ranges : list (rune * rune))
           (c : rune) : bool :=
  xorb negated (existsb (inRange c) ranges).

Definition continuation := bool -> list rune -> bool.

Definition oneRune (ok : rune -> bool) (s : list rune) (k : continuation)
  : bool :=
  match s with
  | c :: s' => ok c && k false s'
  | [] => false
  end.

Fixpoint starLoop (step : bool -> list rune -> continuation -> bool)
         (fuel : nat) (atStart : bool) (s : list rune) (k : continuation)
  : bool :=
  match fuel with
  | O => k atStart s
  | S fuel' =>
      step atStart s
           (fun b s' =>
              (List.length s' <? List.length s)%nat
              && starLoop step fuel' b s' k)
      || k atStart s
  end.

Fixpoint matchHere (re : Regexp) (atStart : bool) (s : list rune)
         (k : continuation) : bool :=
  match re with
  | OpEmptyMatch => k atStart s
  | OpLiteral r => oneRune (Z.eqb r) s k
  | OpCharClass negated ranges => oneRune (classMatches negated ranges) s k
  | OpAnyCharNotNL => oneRune (fun c => negb (c =? 10)) s k
  | OpAnyChar => oneRune (fun _ => true) s k
  | OpBeginText => atStart && k atStart s
  | OpEndText => match s with [] => k atStart s | _ :: _ => false end
  | OpCapture sub => matchHere sub atStart s k
  | OpStar sub => starLoop (matchHere sub) (List.length s) atStart s k
  | OpPlus sub =>
      matchHere sub atStart s
                (fun b s' => starLoop (matchHere sub) (List.length s') b s' k)
  | OpQuest sub => matchHere sub atStart s k || k atStart s
  | OpConcat a b =>
      matchHere a atStart s (fun b' s' => matchHere b b' s' k)
  | OpAlternate a b => matchHere a atStart s k || matchHere b atStart s k
  end.

(** A match that starts at the current position or at a later one. *)
Fixpoint search (re : Regexp) (atStart : bool) (s : list rune) : bool :=
  matchHere re atStart s (fun _ _ => true)
  || match s with
     | [] => false
     | _ :: s' => search re false s'
     end.

(** [Regexp.MatchString]: whether the string contains any match. *)
Definition MatchString (re : Regexp) (s : gostring) : bool :=
  search re true (runes s).

(** The spans of the input a match can cover: [matchesSpan re s i j]
    when the expression matches the runes [i..j) of [s]. *)
Definition matchesSpan (re : Regexp) (s : list rune) (i j : nat) : bool :=
  (i <=? j)%nat && (j <=? List.length s)%nat
  && matchHere re (i =? 0)%nat (skipn i s)
       (fun _ rest => (List.length rest =? List.length s - j)%nat).

(** An expression every match of which starts with the assertion
    [^]. *)
Fixpoint startsAnchored (re : Regexp) : bool :=
  match re with
  | OpBeginText => true
  | OpConcat a _ => startsAnchored a
  | OpCapture a => startsAnchored a
  | OpAlternate a b => startsAnchored a && startsAnchored b
  | _ => false
  end.

End regexp.

(* ================================================================== *)
(** ** The compiled matcher (glob.go) *)

Record Glob := mkGlob {
  pattern : gostring;
  re : regexp.Regexp;
  negated : bool
}.

(** The three outcomes of a call that returns [(value, error)]; [Unknown]
    stands for a call whose expression text the engine model gives no
    verdict on. *)
Inductive outcome (A : Type) :=
| Ok (a : A)
| Err (e : error)
| Unknown.
Arguments Ok {A}.
Arguments Err {A}.
Arguments Unknown {A}.

(** [CompileGlob], after the state loop has left the parser [p]. *)
Definition compileParsed (pat : gostring) (p : globParser) : outcome Glob :=
  match err p with
  | Some e => Err e
  | None =>
      let p := WriteRune (rn "$") p in
      match regexp.Compile (out p) with
      | regexp.Compiled r => Ok (mkGlob pat r (neg p))
      | regexp.Rejected code => Err (SyntaxError code)
      | regexp.NotModelled => Unknown
      end
  end.

(** [CompileGlob]; [None] only if the state loop ran out of fuel, which
    [translate_total] excludes. *)
Definition CompileGlob (pat : gostring) : option (outcome Glob) :=
  match translate pat with
  | None => None
  | Some p => Some (compileParsed pat p)
  end.

(** [CompileGlob] with the engine as a parameter: [engine expr] stands
    for [regexp.Compile(expr)], the compiled expression or the code of
    the syntax error. *)
Definition CompileGlobWith (engine : gostring -> regexp.Regexp + ErrorCode)
           (pat : gostring) : option (Glob + error) :=
  match translate pat with
  | None => None
  | Some p =>
      Some match err p with
           | Some e => inr e
           | None =>
               let p := WriteRune (rn "$") p in
               match engine (out p) with
               | inl r => inl (mkGlob pat r (neg p))
               | inr code => inr (SyntaxError code)
               end
           end
  end.

(** [Glob.Match] *)
Definition Match (g : Glob) (data : gostring) : bool :=
  regexp.MatchString (re g) data.

(** [os.FileInfo], for what [MatchInfo] reads of it. *)
Record FileInfo := mkFileInfo {
  Name : gostring;
  IsDir : bool
}.

(** [Glob.MatchInfo] *)
Definition MatchInfo (g : Glob) (info : FileInfo) : bool :=
  let m := Match g (Name info) in
  if IsDir info then m || Match g (Name info ++ bytes "/") else m.


(** [GlobMatch] *)
Definition GlobMatch (pat data : gostring) : option (outcome bool) :=
  match CompileGlob pat with
  | None => None
  | Some (Ok g) => Some (Ok (Match g data))
  | Some (Err e) => Some (Err e)
  | Some Unknown => Some Unknown
  end.

(** [GlobMatchInfo] *)
Definition GlobMatchInfo (pat : gostring) (info : FileInfo)
  : option (outcome bool) :=
  match CompileGlob pat with
  | None => None
  | Some (Ok g) => Some (Ok (MatchInfo g info))
  | Some (Err e) => Some (Err e)
  | Some Unknown => Some Unknown
  end.

(* ================================================================== *)
(** ** Variable substitution (subst.go) *)

(** [VariableMap], with the optional [CanSubstitute] method that
    [Substitute] looks for by type assertion. *)
Record VariableMap := mkVariableMap {
  Get : gostring -> gostring * bool;
  CanSubstitute : option (gostring -> bool)
}.

(** [SimpleVariableMap]: a Go map, here its list of bindings. *)
Fixpoint simpleGet (m : list (gostring * gostring)) (variable : gostring)
  : gostring * bool :=
  match m with
  | [] => ([], false)
  | (k, v) :: m' =>
      if GoString.eqb k variable then (v, true) else simpleGet m' variable
  end.

Definition SimpleVariableMap (m : list (gostring * gostring)) : VariableMap :=
  mkVariableMap (simpleGet m) None.

(** What a call of [Substitute] does: it returns a string, returns an
    error, or panics on a slice bound out of range. *)
Inductive substResult :=
| Substituted (s : gostring)
| Failed (e : error)
| Panics.

(** [s[j]] *)
Definition byteAt (s : gostring) (j : Z) : ascii :=
  nth (Z.to_nat j) s zero.

(** The loop that looks for the second and third slash of
    [${name/re/repl}]: [for ; j < len(s) && count < 3; j++]. *)
Fixpoint slashLoop (fuel : nat) (s : gostring) (j count : Z) : Z * Z :=
  match fuel with
  | O => (j, count)
  | S fuel' =>
      if (j <? len s) && (count <? 3) then
        let c := byteAt s j in
        if byte_eqb c "\" then slashLoop fuel' s (j + 1 + 1) count
        else if byte_eqb c "/" then slashLoop fuel' s (j + 1) (count + 1)
        else slashLoop fuel' s (j + 1) count
      else (j, count)
  end.

(** [strings.FieldsFunc(def, f)] for the closure of [Substitute]; its
    counter [i] is never advanced, so the closure holds of every slash,
    and the fields are the non-empty runs between slashes. *)
Fixpoint fieldsAtSlash (def field : gostring) : list gostring :=
  match def with
  | [] => match field with [] => [] | _ => [field] end
  | c :: def' =>
      if byte_eqb c "/" then
        match field with
        | [] => fieldsAtSlash def' []
        | _ => field :: fieldsAtSlash def' []
        end
      else fieldsAtSlash def' (field ++ [c])
  end.

(** The slashes of [t] that no backslash escapes. *)
Fixpoint unescapedSlashes (t : gostring) : nat :=
  match t with
  | [] => O
  | c :: t' =>
      if byte_eqb c "\" then
        match t' with
        | [] => O
        | _ :: t'' => unescapedSlashes t''
        end
      else if byte_eqb c "/" then S (unescapedSlashes t')
      else unescapedSlashes t'
  end.

Section Substitute.

(** The engine's part of a regexp substitution: [regexpReplace re repl
    value] is [regexp.Compile(re)] followed by
    [ReplaceAllString(value, reGroup.ReplaceAllString(repl, "${$1}"))],
    or the error of [Compile]. *)
Variable regexpReplace : gostring -> gostring -> gostring -> gostring + error.

(** What one iteration of the [outer] loop does next. *)
Inductive iteration :=
| Continue (i start : Z) (out : gostring)   (* on to the post statement *)
| Break
| Return (r : substResult).

(** The [switch s[i+delim]] of the loop body, [i] being the offset after
    the [${]: the exit it takes, or the cursor, the offset of the closing
    brace from it and the text of the default it leaves. *)
Definition switchAt (s : gostring) (subsStart i delim : Z)
  : iteration + (Z * Z * option gostring) :=
  let c := byteAt s (i + delim) in
  if byte_eqb c ":" then
    let i := i + (delim + 1) in
    let delim := IndexByte (from s i) "}" in
    if delim =? -1 then inl Break
    else inr (i, delim, Some (slice s i (i + delim)))
  else if byte_eqb c "/" then
    let i := i + delim in
    let '(j, count) := slashLoop (S (List.length s)) s i 1 in
    if negb (count =? 3) then
      if len s <? j then inl (Return Panics)
      else inl (Return (Failed
             (MalformedRegexpSubstitution (slice s subsStart j))))
    else
      let d := IndexByte (from s j) "}" in
      if d =? -1 then inl Break
      else
        let j := j + d in
        inr (j, 0, Some (slice s i j))
  else if byte_eqb c "}" then inr (i, delim, None)
  else inl Break.

(** The value written for the reference [name] with the default [def],
    or the error returned. *)
Definition expand (s : gostring) (vars : VariableMap) (subsStart i delim : Z)
           (name : gostring) (def : option gostring) : error + gostring :=
  let '(value, present) := Get vars name in
  match def with
  | None =>
      if negb present then inl (UndefinedVariable name)
      else inr value
  | Some d =>
      let deref := match d with [] => [zero] | _ => d end in
      let c0 := byteAt deref 0 in
      if byte_eqb c0 "-" then
        inr (if negb present then from deref 1 else value)
      else if byte_eqb c0 "+" then
        inr (if present then from deref 1 else value)
      else if byte_eqb c0 "/" then
        match fieldsAtSlash d [] with
        | [re; repl] =>
            match regexpReplace re repl value with
            | inl v => inr v
            | inr e => inl e
            end
        | _ => inl (MalformedRegexpParts d)
        end
      else
        inl (MalformedSubstitution (slice s subsStart (i + delim + 1)))
  end.

(** The branch of the loop body taken at a [${]. *)
Definition substituteAt (s : gostring) (vars : VariableMap)
           (i start : Z) (out : gostring) : iteration :=
  let cansubst :=
    match CanSubstitute vars with
    | Some f => f
    | None => fun _ => true
    end in
  let subsStart := i in
  let i := i + 2 in
  let delim := IndexAny (from s i) (bytes ":/}") in
  if delim =? -1 then Break
  else
    let name := slice s i (i + delim) in
    match switchAt s subsStart i delim with
    | inl exit => exit
    | inr (i, delim, def) =>
        if negb (cansubst name) then Continue (i + (delim + 1)) start out
        else
          let out := out ++ slice s start subsStart in
          match expand s vars subsStart i delim name def with
          | inl e => Return (Failed e)
          | inr value =>
              let out := out ++ value in
              let i := i + (delim + 1) in
              Continue i i out
          end
    end.

(** The [outer] loop: [for i := 0; i < len(s); i++]. *)
Fixpoint substituteLoop (fuel : nat) (s : gostring) (vars : VariableMap)
         (i start : Z) (out : gostring) : option substResult :=
  match fuel with
  | O => None
  | S fuel' =>
      if negb (i <? len s) then Some (Substituted (out ++ from s start))
      else if HasPrefix (from s i) (bytes "${") then
        match substituteAt s vars i start out with
        | Continue i' start' out' =>
            substituteLoop fuel' s vars (i' + 1) start' out'
        | Break => Some (Substituted (out ++ from s start))
        | Return r => Some r
        end
      else substituteLoop fuel' s vars (i + 1) start out
  end.

(** [Substitute]; [None] only if the loop ran out of fuel, which
    [Substitute_total] excludes. *)
Definition Substitute (s : gostring) (vars : VariableMap)
  : option substResult :=
  substituteLoop (S (List.length s)) s vars 0 0 [].

End Substitute.

(* ================================================================== *)
(** ** Quoting of command lines (quote.go) *)

(** The rune of the double quote. *)
Definition doubleQuote : rune := 34.

(** [needsQuote] *)
Definition needsQuote (i : Z) (ch : rune) : bool :=
  if (i =? 0) && (ch =? rn "~") then true
  else
    (ch =? rn "`") || (ch =? rn "$") || (ch =? rn "&") || (ch =? rn "*")
    || (ch =? rn "(") || (ch =? rn ")") || (ch =? rn "{") || (ch =? rn "[")
    || (ch =? rn "\") || (ch =? rn "|") || (ch =? rn " ") || (ch =? rn ";")
    || (ch =? rn "'") || (ch =? doubleQuote) || (ch =? rn "<")
    || (ch =? rn ">") || (ch =? rn "?").

(** [for i, ch := range s]: the runes of [s], each with the offset of its
    first byte; an invalid byte counts as one [RuneError]. *)
Fixpoint rangeFrom (fuel : nat) (i : Z) (s : gostring) : list (Z * rune) :=
  match fuel with
  | O => []
  | S fuel' =>
      match s with
      | [] => []
      | _ :: _ =>
          let '(r, w) := DecodeRuneInString s in
          (i, r) :: rangeFrom fuel' (i + w) (from s w)
      end
  end.

Definition rangeString (s : gostring) : list (Z * rune) :=
  rangeFrom (List.length s) 0 s.

(** The first loop of [Quote] over a word, which stops at the first
    apostrophe: the flags [sawApostrophe] and [needQuoting] it leaves. *)
Fixpoint scanWord (rs : list (Z * rune)) (needQuoting : bool) : bool * bool :=
  match rs with
  | [] => (false, needQuoting)
  | (i, ch) :: rs' =>
      if ch =? rn "'" then (true, needQuoting)
      else scanWord rs' (if needsQuote i ch then true else needQuoting)
  end.

(** The loop of [Quote] that writes a word with backslashes to the
    builder [b]. *)
Fixpoint escapeWord (rs : list (Z * rune)) (b : gostring) : gostring :=
  match rs with
  | [] => b
  | (i, ch) :: rs' =>
      let b := if needsQuote i ch then b ++ ["\"%char] else b in
      escapeWord rs' (b ++ EncodeRune ch)
  end.

(** The body of the loop of [Quote] after the separator is written: the
    builder after the word [arg]. *)
Definition quoteArg (b : gostring) (arg : gostring) : gostring :=
  let '(sawApostrophe, needQuoting) := scanWord (rangeString arg) false in
  if sawApostrophe then escapeWord (rangeString arg) b
  else
    let b := if needQuoting then b ++ ["'"%char] else b in
    let b := b ++ arg in
    if needQuoting then b ++ ["'"%char] else b.

(** The loop of [Quote] over the words. *)
Fixpoint quoteLoop (argv : list gostring) (first : bool) (b : gostring)
  : gostring :=
  match argv with
  | [] => b
  | arg :: argv' =>
      let b := if first then b else b ++ [" "%char] in
      quoteLoop argv' false (quoteArg b arg)
  end.

(** [Quote] *)
Definition Quote (argv : list gostring) : gostring := quoteLoop argv true [].

(* ================================================================== *)
(** ** Vocabulary of the proofs *)

(** Well-formed parser: the cursor is inside the input. *)
Definition wf (p : globParser) : Prop := 0 <= index p <= len (in_ p).

(** What a state call may change: the cursor moves forward inside the
    input, the output grows at its end, and the negation flag changes
    only at offset 0. *)
Definition advances (p p' : globParser) : Prop :=
  in_ p' = in_ p
  /\ index p <= index p'
  /\ (wf p -> wf p')
  /\ (exists o, out p' = out p ++ o)
  /\ (1 <= index p -> neg p' = neg p).

(** What the loop of [parseClass] returns: it ends either at a closing
    bracket, back in the main state, or at the end of the input, with the
    error set. *)
Definition classResult (p p' : globParser) (st : option parseFunc) : Prop :=
  advances p p'
  /\ neg p' = neg p
  /\ ((st = Some ParseMain /\ err p' = err p /\ index p < index p')
      \/ (st = None
          /\ err p' = Some (GlobError (in_ p) (index p') ErrUnterminatedClass))).

(** The error of the class state, for the pattern with the byte [c] in
    front of it. *)
Definition liftErr (c : ascii) (e : error) : error :=
  match e with
  | GlobError pat i inner => GlobError (c :: pat) (i + 1) inner
  | _ => e
  end.

(** The parser [p] of a run on a pattern, as the parser of the run on the
    pattern with [c] in front: one byte further, the flag toggled. *)
Definition lift (c : ascii) (p : globParser) : globParser :=
  mkParser (c :: in_ p) (index p + 1) (width p) (negb (neg p))
           (option_map (liftErr c) (err p)) (out p) (choiceNest p).

(** What a state call returns, lifted. *)
Definition liftResult (c : ascii) (x : globParser * option parseFunc)
  : globParser * option parseFunc := (lift c (fst x), snd x).

(** A byte outside ASCII. *)
Definition high (c : ascii) : Prop := 128 <= byteZ c.

(** The rest of the input never closes the class and holds no NUL. *)
Definition clean (p : globParser) : Prop :=
  unclosed (from (in_ p) (index p)) = true
  /\ forall c, In c (from (in_ p) (index p)) -> c <> zero.

(** The parser over a pattern that goes on with a NUL and more text. *)
Definition ext (post : gostring) (p : globParser) : globParser :=
  mkParser (in_ p ++ zero :: post) (index p) (width p) (neg p) (err p)
           (out p) (choiceNest p).

(** The expression of [^(?s)[^/]$], the text emitted for the pattern
    [?]. *)
Definition questionRe : regexp.Regexp :=
  regexp.OpConcat
    (regexp.OpConcat regexp.OpBeginText
       (regexp.OpCharClass true [(47, 47)]))
    regexp.OpEndText.

(** The expression of [^(?s)(|[^\0]*/)file$], the text emitted for the
    pattern [**/file]. *)
Definition globstarFileRe : regexp.Regexp :=
  regexp.OpConcat
    (regexp.OpConcat
       (regexp.OpConcat
          (regexp.OpConcat
             (regexp.OpConcat
                (regexp.OpConcat regexp.OpBeginText
                   (regexp.OpCapture
                      (regexp.OpAlternate regexp.OpEmptyMatch
                         (regexp.OpConcat
                            (regexp.OpStar (regexp.OpCharClass true [(0, 0)]))
                            (regexp.OpLiteral 47)))))
                (regexp.OpLiteral 102))
             (regexp.OpLiteral 105))
          (regexp.OpLiteral 108))
       (regexp.OpLiteral 101))
    regexp.OpEndText.

(** The runes of slash-terminated components, one after the other. *)
Definition components (comps : list (list rune)) : list rune :=
  flat_map (fun c => c ++ [rn "/"]) comps.

(** A component that holds no NUL. *)
Definition noNul (c : list rune) : Prop := Forall (fun r => r <> 0) c.

(** The engine model as an engine for [CompileGlobWith]; a text that the
    model gives no verdict on counts as rejected. *)
Definition modelEngine (expr : gostring) : regexp.Regexp + ErrorCode :=
  match regexp.Compile expr with
  | regexp.Compiled r => inl r
  | regexp.Rejected code => inr code
  | regexp.NotModelled => inr ErrInvalidEscape
  end.

(** For the examples of [Substitute]: an engine that replaces nothing,
    and the variable map of the package's tests. *)
Definition keepValue (re repl value : gostring) : gostring + error :=
  inl value.

Definition exampleVars : VariableMap :=
  SimpleVariableMap [(bytes "variable", bytes "value")].

(** *** Reading a command line back

    For the round trip of [Quote]. *)

(** [utf8.ValidString]: no byte of [s] is read as an invalid
    encoding. *)
Fixpoint validFrom (fuel : nat) (s : gostring) : bool :=
  match fuel with
  | O => true
  | S fuel' =>
      match s with
      | [] => true
      | _ :: _ =>
          let '(r, w) := DecodeRuneInString s in
          if (r =? RuneError) && (w =? 1) then false
          else validFrom fuel' (from s w)
      end
  end.

Definition ValidString (s : gostring) : bool := validFrom (List.length s) s.

(** How a shell reads a command line in which the space, the apostrophe
    and the backslash are the only syntax: spaces separate words, a
    backslash makes the next byte a byte of the word, and the bytes
    between two apostrophes are bytes of the word.  [cur] is the word
    being read, if one has begun. *)
Inductive readMode := Plain | InApostrophes | AfterBackslash.

Definition wordOf (cur : option gostring) : gostring :=
  match cur with
  | Some w => w
  | None => []
  end.

Fixpoint readWords (mode : readMode) (cur : option gostring)
         (line : gostring) : list gostring :=
  match line with
  | [] =>
      match cur with
      | Some w => [w]
      | None => []
      end
  | c :: line' =>
      match mode with
      | Plain =>
          if byte_eqb c " " then
            match cur with
            | Some w => w :: readWords Plain None line'
            | None => readWords Plain None line'
            end
          else if byte_eqb c "'" then
            readWords InApostrophes (Some (wordOf cur)) line'
          else if byte_eqb c "\" then
            readWords AfterBackslash (Some (wordOf cur)) line'
          else readWords Plain (Some (wordOf cur ++ [c])) line'
      | InApostrophes =>
          if byte_eqb c "'" then readWords Plain cur line'
          else readWords InApostrophes (Some (wordOf cur ++ [c])) line'
      | AfterBackslash => readWords Plain (Some (wordOf cur ++ [c])) line'
      end
  end.

Definition shellWords (line : gostring) : list gostring :=
  readWords Plain None line.

(** The word being read after the bytes [t] were added to it. *)
Definition pushed (cur : option gostring) (t : gostring) : option gostring :=
  match t with
  | [] => cur
  | _ :: _ => Some (wordOf cur ++ t)
  end.

Definition nonEmpty (w : gostring) : bool :=
  match w with
  | [] => false
  | _ :: _ => true
  end.

(** A byte that is no syntax for the shell reader. *)
Definition readerPlain (c : ascii) : Prop :=
  c <> " "%char /\ c <> "'"%char /\ c <> "\"%char.

(** *** References of [Substitute] *)

(** The text [t] holds no [${]. *)
Fixpoint refFree (t : gostring) : bool :=
  match t with
  | [] => true
  | _ :: t' => negb (HasPrefix t (bytes "${")) && refFree t'
  end.

(** The closure [cansubst] of [Substitute]. *)
Definition canSubst (vars : VariableMap) (name : gostring) : bool :=
  match CanSubstitute vars with
  | Some f => f name
  | None => true
  end.

(** *** A fragment of the pattern language

    Patterns made of bytes that stand for themselves, of [?], of [*]
    and of brace choices between words of such bytes. *)

(** A byte that stands for itself outside of braces: a byte below
    [RuneSelf] other than NUL and the characters that [parseMain]
    gives a meaning. *)
Definition plainByte (c : ascii) : bool :=
  (1 <=? byteZ c) && (byteZ c <? 128)
  && negb (existsb (byte_eqb c) (bytes "\![{?*")).

(** A byte that stands for itself between braces as well. *)
Definition wordByte (c : ascii) : bool :=
  plainByte c && negb (existsb (byte_eqb c) (bytes ",}")).

Inductive item :=
| Lit (c : ascii)
| AnyOne
| AnyRun
| Choice (w : gostring) (ws : list gostring).

(** The pattern text of an item and of a list of items. *)
Definition itemText (it : item) : gostring :=
  match it with
  | Lit c => [c]
  | AnyOne => bytes "?"
  | AnyRun => bytes "*"
  | Choice w ws =>
      bytes "{" ++ w ++ flat_map (fun x => ","%char :: x) ws ++ bytes "}"
  end.

Definition render (its : list item) : gostring := flat_map itemText its.

(** What may follow a [*] of the fragment: no second [*] and no [/],
    which [parseMain] reads together with the [*]. *)
Definition afterRun (r : list item) : bool :=
  match r with
  | AnyRun :: _ => false
  | Lit c :: _ => negb (byte_eqb c "/")
  | _ => true
  end.

Fixpoint simple (its : list item) : bool :=
  match its with
  | [] => true
  | it :: r =>
      match it with
      | Lit c => plainByte c
      | AnyOne => true
      | AnyRun => afterRun r
      | Choice w ws => forallb (forallb wordByte) (w :: ws)
      end && simple r
  end.

(** The candidates of the items, as lists of runes. *)
Fixpoint stripPrefix (w s : list rune) : option (list rune) :=
  match w with
  | [] => Some s
  | a :: w' =>
      match s with
      | x :: s' => if a =? x then stripPrefix w' s' else None
      | [] => None
      end
  end.

Fixpoint runOf (k : list rune -> bool) (s : list rune) : bool :=
  k s
  || match s with
     | x :: s' => negb (x =? rn "/") && runOf k s'
     | [] => false
     end.

Fixpoint itemsMatch (its : list item) (s : list rune) : bool :=
  match its with
  | [] => match s with [] => true | _ :: _ => false end
  | it :: r =>
      match it with
      | Lit c =>
          match s with
          | x :: s' => (byteZ c =? x) && itemsMatch r s'
          | [] => false
          end
      | AnyOne =>
          match s with
          | x :: s' => negb (x =? rn "/") && itemsMatch r s'
          | [] => false
          end
      | AnyRun => runOf (itemsMatch r) s
      | Choice w ws =>
          existsb (fun x =>
                     match stripPrefix (map byteZ x) s with
                     | Some s' => itemsMatch r s'
                     | None => false
                     end) (w :: ws)
      end
  end.

(** The expression text that the translator writes for the items. *)
Definition litText (c : ascii) : gostring :=
  if regexSpecial (byteZ c) then ["\"%char; c] else [c].

Definition wordText (w : gostring) : gostring := flat_map litText w.

Definition itemRegexp (it : item) : gostring :=
  match it with
  | Lit c => litText c
  | AnyOne => bytes "[^/]"
  | AnyRun => bytes "[^/]*"
  | Choice w ws =>
      bytes "(" ++ wordText w
        ++ flat_map (fun x => "|"%char :: wordText x) ws ++ bytes ")"
  end.

Definition regexpText (its : list item) : gostring :=
  flat_map itemRegexp its.

(** The parser has the text [rest] left to read. *)
Definition reads (p : globParser) (rest : gostring) : Prop :=
  0 <= index p /\ from (in_ p) (index p) = rest.

(** From [p] to [p'] the translator has written [text] and nothing
    else; it has [rest] left to read, at the brace depth [n]. *)
Definition wrote (p p' : globParser) (text rest : gostring) (n : Z) : Prop :=
  reads p' rest /\ out p' = out p ++ text /\ err p' = err p
  /\ neg p' = neg p /\ choiceNest p' = n.

(** The expression of a word of literal bytes and the piece that the
    engine makes of an item. *)
Definition wordRe (w : gostring) : regexp.Regexp :=
  regexp.concatOf (rev (map (fun c => regexp.OpLiteral (byteZ c)) w)).

Definition notSlash : regexp.Regexp := regexp.OpCharClass true [(47, 47)].

Definition pieceOf (it : item) (re : regexp.Regexp) : Prop :=
  match it with
  | Lit c => re = regexp.OpLiteral (byteZ c)
  | AnyOne => re = notSlash
  | AnyRun => re = regexp.OpStar notSlash
  | Choice w ws =>
      exists alts last,
        re = regexp.OpCapture (regexp.alternateOf alts last)
        /\ rev alts ++ [last] = map wordRe (w :: ws)
  end.

(* ================================================================== *)
(** ** Bytes and UTF-8 decoding *)

Lemma byteZ_range (c : ascii) : 0 <= byteZ c < 256.
Proof.
  unfold byteZ. pose proof (N_ascii_bounded c) as H. lia.
Qed.

Lemma byteZ_inj (a b : ascii) : byteZ a = byteZ b -> a = b.
Proof.
  unfold byteZ. intros H. apply N2Z.inj in H.
  rewrite <- (ascii_N_embedding a), <- (ascii_N_embedding b). now rewrite H.
Qed.

Lemma byte_eqb_spec (a b : ascii) : reflect (a = b) (byte_eqb a b).
Proof. apply Ascii.eqb_spec. Qed.

Lemma byte_eqb_rn (c : ascii) (k : ascii) :
  byte_eqb c k = (byteZ c =? rn k).
Proof.
  unfold rn. destruct (byte_eqb_spec c k) as [->|Hne].
  - now rewrite Z.eqb_refl.
  - symmetry. apply Z.eqb_neq. intros H. apply Hne. now apply byteZ_inj.
Qed.

(** The five kinds of first byte, with the bounds the table gives. *)
Lemma first_cases (s0 : Z) :
  0 <= s0 < 256 ->
  (first s0 = None /\ s0 < 128)
  \/ (first s0 = Some None /\ 128 <= s0)
  \/ (exists lo hi, first s0 = Some (Some (2, lo, hi)) /\ 194 <= s0 < 224
                    /\ 128 <= lo /\ hi <= 191)
  \/ (exists lo hi, first s0 = Some (Some (3, lo, hi)) /\ 224 <= s0 < 240
                    /\ 128 <= lo /\ hi <= 191 /\ (s0 = 224 -> 160 <= lo))
  \/ (exists lo hi, first s0 = Some (Some (4, lo, hi)) /\ 240 <= s0 < 245
                    /\ 128 <= lo /\ hi <= 191 /\ (s0 = 240 -> 144 <= lo)).
Proof.
  intros H. unfold first.
  repeat match goal with
  | |- context [if ?b then _ else _] =>
      let E := fresh "E" in destruct b eqn:E
  end;
  repeat match goal with
  | H : (_ <? _) = true |- _ => apply Z.ltb_lt in H
  | H : (_ <? _) = false |- _ => apply Z.ltb_ge in H
  | H : (_ =? _) = true |- _ => apply Z.eqb_eq in H
  | H : (_ =? _) = false |- _ => apply Z.eqb_neq in H
  end.
  all: try (left; split; [reflexivity | lia]).
  all: try (right; left; split; [reflexivity | lia]).
  all: try (right; right; left; do 2 eexists; split; [reflexivity | lia]).
  all: try (right; right; right; left; do 2 eexists;
            split; [reflexivity | lia]).
  all: try (right; right; right; right; do 2 eexists;
            split; [reflexivity | lia]).
Qed.

Ltac btest :=
  repeat match goal with
  | H : (_ && _) = true |- _ => apply andb_prop in H; destruct H
  | H : (_ || _) = false |- _ => apply orb_false_elim in H; destruct H
  | H : negb _ = true |- _ => apply negb_true_iff in H
  | H : negb _ = false |- _ => apply negb_false_iff in H
  | H : (_ <? _) = true |- _ => apply Z.ltb_lt in H
  | H : (_ <? _) = false |- _ => apply Z.ltb_ge in H
  | H : (_ <=? _) = true |- _ => apply Z.leb_le in H
  | H : (_ <=? _) = false |- _ => apply Z.leb_gt in H
  | H : (_ =? _) = true |- _ => apply Z.eqb_eq in H
  | H : (_ =? _) = false |- _ => apply Z.eqb_neq in H
  end.

Lemma len_cons (c : ascii) (s : gostring) : len (c :: s) = len s + 1.
Proof. unfold len. simpl List.length. lia. Qed.

Lemma len_nonneg (s : gostring) : 0 <= len s.
Proof. unfold len. lia. Qed.

Lemma cont_range b : cont b = true -> 128 <= b <= 191.
Proof. unfold cont. intros H. btest. lia. Qed.

(** The width of a decoded rune: no more than the input holds, and zero
    only at the end of the input. *)
Lemma Decode_width (s : gostring) :
  0 <= snd (DecodeRuneInString s) <= len s
  /\ (s <> [] -> 1 <= snd (DecodeRuneInString s)).
Proof.
  unfold len.
  destruct s as [|c0 t]; [simpl; split; [lia | congruence]|].
  unfold DecodeRuneInString.
  destruct (first (byteZ c0)) as [[[[sz lo] hi]|]|];
    try (simpl; split; [lia | intros _; lia]).
  destruct t as [|c1 t1]; try (simpl; split; [lia | intros _; lia]).
  destruct ((byteZ c1 <? lo) || (hi <? byteZ c1));
    try (simpl; split; [lia | intros _; lia]).
  destruct (sz <=? 2); try (simpl; split; [lia | intros _; lia]).
  destruct t1 as [|c2 t2]; try (simpl; split; [lia | intros _; lia]).
  destruct (negb (cont (byteZ c2)));
    try (simpl; split; [lia | intros _; lia]).
  destruct (sz <=? 3); try (simpl; split; [lia | intros _; lia]).
  destruct t2 as [|c3 t3]; try (simpl; split; [lia | intros _; lia]).
  destruct (negb (cont (byteZ c3))); simpl; split; try lia; intros _; lia.
Qed.

(** A rune below [RuneSelf] is decoded from a single byte of that value. *)
Lemma Decode_small (s : gostring) (r w : Z) :
  DecodeRuneInString s = (r, w) -> w <> 0 -> r < 128 ->
  exists c t, s = c :: t /\ byteZ c = r /\ w = 1.
Proof.
  destruct s as [|c0 t]; simpl; [intros H; inversion H; lia|].
  intros H Hw Hr. exists c0, t. split; [reflexivity|].
  pose proof (byteZ_range c0) as R0.
  destruct (first_cases _ R0)
    as [[F ?]|[[F ?]|[(lo&hi&F&?&?&?)
                     |[(lo&hi&F&?&?&?&?)|(lo&hi&F&?&?&?&?)]]]];
    rewrite F in H.
  - inversion H; subst. split; reflexivity.
  - inversion H; subst. unfold RuneError in Hr. lia.
  - destruct t as [|c1 t1]; [inversion H; subst; unfold RuneError in Hr; lia|].
    pose proof (byteZ_range c1).
    destruct ((byteZ c1 <? lo) || (hi <? byteZ c1)) eqn:E1;
      [inversion H; subst; unfold RuneError in Hr; lia|].
    simpl in H. inversion H; subst. btest. exfalso.
    Z.to_euclidean_division_equations. lia.
  - destruct t as [|c1 t1]; [inversion H; subst; unfold RuneError in Hr; lia|].
    pose proof (byteZ_range c1).
    destruct ((byteZ c1 <? lo) || (hi <? byteZ c1)) eqn:E1;
      [inversion H; subst; unfold RuneError in Hr; lia|].
    simpl in H.
    destruct t1 as [|c2 t2]; [inversion H; subst; unfold RuneError in Hr; lia|].
    pose proof (byteZ_range c2).
    destruct (negb (cont (byteZ c2))) eqn:E2;
      [inversion H; subst; unfold RuneError in Hr; lia|].
    simpl in H. inversion H; subst. btest. exfalso.
    Z.to_euclidean_division_equations. lia.
  - destruct t as [|c1 t1]; [inversion H; subst; unfold RuneError in Hr; lia|].
    pose proof (byteZ_range c1).
    destruct ((byteZ c1 <? lo) || (hi <? byteZ c1)) eqn:E1;
      [inversion H; subst; unfold RuneError in Hr; lia|].
    simpl in H.
    destruct t1 as [|c2 t2]; [inversion H; subst; unfold RuneError in Hr; lia|].
    pose proof (byteZ_range c2).
    destruct (negb (cont (byteZ c2))) eqn:E2;
      [inversion H; subst; unfold RuneError in Hr; lia|].
    simpl in H.
    destruct t2 as [|c3 t3]; [inversion H; subst; unfold RuneError in Hr; lia|].
    pose proof (byteZ_range c3).
    destruct (negb (cont (byteZ c3))) eqn:E3;
      [inversion H; subst; unfold RuneError in Hr; lia|].
    inversion H; subst. btest. apply cont_range in E2, E3. exfalso.
    Z.to_euclidean_division_equations. lia.
Qed.

(** A byte below [RuneSelf] is no continuation byte: appended to a
    non-empty string, it changes nothing of what the string's first rune
    decodes to. *)
Lemma Decode_app_ascii (l : gostring) (c : ascii) (post : gostring) :
  l <> [] -> byteZ c < 128 ->
  DecodeRuneInString (l ++ c :: post) = DecodeRuneInString l.
Proof.
  intros Hl Hc.
  assert (Hlo : forall lo hi, 128 <= lo ->
            (byteZ c <? lo) || (hi <? byteZ c) = true).
  { intros lo hi Hlo. apply orb_true_iff. left. apply Z.ltb_lt. lia. }
  assert (Hcont : negb (cont (byteZ c)) = true).
  { apply negb_true_iff. unfold cont.
    apply andb_false_iff. left. apply Z.leb_gt. lia. }
  destruct l as [|c0 t]; [congruence|]. simpl app.
  unfold DecodeRuneInString. cbv zeta.
  pose proof (byteZ_range c0) as R0.
  destruct (first_cases _ R0)
    as [[F ?]|[[F ?]|[(lo&hi&F&?&?&?)
                     |[(lo&hi&F&?&?&?&?)|(lo&hi&F&?&?&?&?)]]]];
    rewrite F; cbv beta iota zeta; try reflexivity.
  - destruct t as [|c1 t1]; simpl app; cbv beta iota zeta; [|reflexivity].
    now rewrite Hlo.
  - destruct t as [|c1 t1]; simpl app; cbv beta iota zeta;
      [now rewrite Hlo|].
    destruct ((byteZ c1 <? lo) || (hi <? byteZ c1)); [reflexivity|].
    change (3 <=? 2) with false. cbv iota.
    destruct t1 as [|c2 t2]; simpl app; cbv beta iota zeta; [|reflexivity].
    now rewrite Hcont.
  - destruct t as [|c1 t1]; simpl app; cbv beta iota zeta;
      [now rewrite Hlo|].
    destruct ((byteZ c1 <? lo) || (hi <? byteZ c1)); [reflexivity|].
    change (4 <=? 2) with false. cbv iota.
    destruct t1 as [|c2 t2]; simpl app; cbv beta iota zeta;
      [now rewrite Hcont|].
    destruct (negb (cont (byteZ c2))); [reflexivity|].
    change (4 <=? 3) with false. cbv iota.
    destruct t2 as [|c3 t3]; simpl app; cbv beta iota zeta; [|reflexivity].
    now rewrite Hcont.
Qed.

(* ================================================================== *)
(** ** The cursor of the parser *)

Lemma len_from (s : gostring) (i : Z) :
  0 <= i <= len s -> len (from s i) = len s - i.
Proof.
  unfold len, from. intros H. rewrite length_skipn. lia.
Qed.

Lemma from_from (s : gostring) (i w : Z) :
  0 <= i -> 0 <= w -> from s (i + w) = from (from s i) w.
Proof.
  unfold from. intros Hi Hw. rewrite skipn_skipn. f_equal. lia.
Qed.

Lemma from_end (s : gostring) (i : Z) : len s <= i -> from s i = [].
Proof.
  unfold len, from. intros H. apply skipn_all2. lia.
Qed.

Lemma from_nil_inv (s : gostring) (i : Z) :
  0 <= i -> from s i = [] -> len s <= i.
Proof.
  unfold len, from. intros Hi H.
  apply (f_equal (@List.length ascii)) in H. rewrite length_skipn in H.
  simpl in H. lia.
Qed.

Lemma from_app (a b : gostring) (i : Z) :
  0 <= i <= len a -> from (a ++ b) i = from a i ++ b.
Proof.
  unfold len, from. intros H. rewrite skipn_app.
  replace (Z.to_nat i - List.length a)%nat with 0%nat by lia. reflexivity.
Qed.

Lemma from_cons (c : ascii) (s : gostring) (i : Z) :
  0 <= i -> from (c :: s) (i + 1) = from s i.
Proof.
  unfold from. intros H. replace (Z.to_nat (i + 1)) with (S (Z.to_nat i)) by lia.
  reflexivity.
Qed.

(** [next], with the decoded pair named. *)
Lemma next_eq (l : globParser) :
  next l =
  let rw := DecodeRuneInString (from (in_ l) (index l)) in
  if snd rw =? 0 then (eof, set_width (snd rw) l)
  else (fst rw, set_index (index l + snd rw) (set_width (snd rw) l)).
Proof.
  unfold next. destruct (DecodeRuneInString _) as [r w]. reflexivity.
Qed.

(** [next] changes the cursor and the width only; it moves the cursor
    forward by the width, which is positive unless it returns [eof]. *)
Lemma next_inv (l l' : globParser) (r : rune) :
  next l = (r, l') ->
  in_ l' = in_ l /\ neg l' = neg l /\ err l' = err l /\ out l' = out l
  /\ choiceNest l' = choiceNest l
  /\ 0 <= width l' /\ index l' = index l + width l'
  /\ (r <> eof -> 1 <= width l')
  /\ (wf l -> wf l').
Proof.
  rewrite next_eq. cbv zeta.
  pose proof (Decode_width (from (in_ l) (index l))) as [Hw Hne].
  destruct (DecodeRuneInString _) as [r0 w]. simpl fst in *; simpl snd in *.
  destruct (w =? 0) eqn:E; intros H; inversion H; subst; clear H; simpl;
    btest; unfold wf; simpl.
  - repeat split; try lia; congruence.
  - repeat split; try lia; try (intros _; lia).
    rewrite len_from in Hw by lia. lia.
Qed.

(** [peek] leaves the cursor where it was and the width at zero. *)
Lemma peek_eq (l : globParser) : peek l = (fst (next l), set_width 0 l).
Proof.
  unfold peek. rewrite next_eq. cbv zeta.
  destruct (DecodeRuneInString _) as [r0 w]. simpl fst; simpl snd.
  destruct (w =? 0) eqn:E; btest; simpl; unfold back, set_width, set_index;
    simpl; f_equal; f_equal; lia.
Qed.

(** A string is no shorter than its prefixes. *)
Lemma HasPrefix_len (s pre : gostring) :
  HasPrefix s pre = true -> len pre <= len s.
Proof.
  revert s. induction pre as [|x pre IH]; intros s H.
  - unfold len; simpl; lia.
  - destruct s as [|y s]; simpl in H; [discriminate|].
    apply andb_prop in H. destruct H as [_ H]. apply IH in H.
    rewrite !len_cons. lia.
Qed.

(* ================================================================== *)
(** ** What a state call changes *)

Lemma advances_refl p : advances p p.
Proof.
  unfold advances. split; [|split; [|split; [|split]]]; try lia; auto.
  exists []. now rewrite app_nil_r.
Qed.

Lemma advances_trans p q r : advances p q -> advances q r -> advances p r.
Proof.
  unfold advances. intros (A1&A2&A3&[o1 A4]&A5) (B1&B2&B3&[o2 B4]&B5).
  split; [|split; [|split; [|split]]]; try lia; auto.
  - congruence.
  - exists (o1 ++ o2). rewrite B4, A4. now rewrite app_assoc.
  - intros H. rewrite B5 by lia. auto.
Qed.

(** The facts that make up the invariant of a call of [parseMain]. *)
Lemma mk_inv (p p' : globParser) (st : option parseFunc) :
  in_ p' = in_ p ->
  index p <= index p' ->
  (wf p -> index p' <= len (in_ p)) ->
  (exists o, out p' = out p ++ o) ->
  (1 <= index p -> neg p' = neg p) ->
  err p' = err p ->
  (st <> None -> index p < index p') ->
  advances p p' /\ err p' = err p /\ (st <> None -> index p < index p').
Proof.
  intros. unfold advances, wf in *. rewrite H.
  split; [|split]; auto.
  split; [|split; [|split; [|split]]]; auto. intros. split; [lia|auto].
Qed.

Ltac out_tac I4 J4 :=
  simpl;
  first [ exists []; rewrite app_nil_r; simpl; congruence
        | eexists; simpl; rewrite ?J4; simpl; rewrite ?I4; simpl;
          rewrite <- ?app_assoc; reflexivity ].

(** A call of [parseMain] moves the cursor forward, strictly so unless it
    ends the loop, grows the output at its end, leaves the error slot as
    it was and changes the flag only at offset 0. *)
Lemma parseMain_inv (p p' : globParser) (st : option parseFunc) :
  parseMain p = (p', st) ->
  advances p p' /\ err p' = err p /\ (st <> None -> index p < index p').
Proof.
  unfold parseMain, literalMain.
  destruct (next p) as [r p1] eqn:N1.
  pose proof (next_inv _ _ _ N1) as (I1&I2&I3&I4&I5&I6&I7&I8&I9).
  assert (W1 : wf p -> index p1 <= len (in_ p)).
  { intros W. apply I9 in W. unfold wf in W. rewrite I1 in W. lia. }
  destruct (r =? eof) eqn:Er.
  { intros H; inversion H; subst; clear H.
    apply mk_inv; auto; try lia; try congruence.
    exists []. rewrite app_nil_r. auto. }
  assert (Hr : r <> eof) by (btest; auto).
  specialize (I8 Hr).
  destruct (r =? rn "\").
  { destruct (next p1) as [nx p2] eqn:N2.
    pose proof (next_inv _ _ _ N2) as (J1&J2&J3&J4&J5&J6&J7&J8&J9).
    assert (W2 : wf p -> index p2 <= len (in_ p)).
    { intros W. apply I9 in W. apply J9 in W. unfold wf in W.
      rewrite J1, I1 in W. lia. }
    destruct (nx =? eof); intros H; inversion H; subst; clear H;
      (apply mk_inv; simpl;
       [congruence | lia | auto | out_tac I4 J4 | intros; congruence
       | congruence | intros; lia]). }
  destruct (r =? rn "!").
  { destruct (negb (index p1 - width p1 =? 0)) eqn:E0;
      intros H; inversion H; subst; clear H; btest;
      (apply mk_inv; simpl;
       [congruence | lia | auto | out_tac I4 I4
       | intros; first [congruence | lia]
       | congruence | intros; lia]). }
  destruct (regexSpecial r).
  { intros H; inversion H; subst; clear H.
    apply mk_inv; simpl;
       [congruence | lia | auto | out_tac I4 I4 | intros; congruence
       | congruence | intros; lia]. }
  destruct (r =? rn "{").
  { intros H; inversion H; subst; clear H.
    apply mk_inv; simpl;
       [congruence | lia | auto | out_tac I4 I4 | intros; congruence
       | congruence | intros; lia]. }
  destruct (r =? rn ",").
  { destruct (choiceNest p1 =? 0);
      intros H; inversion H; subst; clear H;
      (apply mk_inv; simpl;
       [congruence | lia | auto | out_tac I4 I4 | intros; congruence
       | congruence | intros; lia]). }
  destruct (r =? rn "}").
  { destruct (choiceNest p1 =? 0);
      intros H; inversion H; subst; clear H;
      (apply mk_inv; simpl;
       [congruence | lia | auto | out_tac I4 I4 | intros; congruence
       | congruence | intros; lia]). }
  destruct (r =? rn "[").
  { intros H; inversion H; subst; clear H.
    apply mk_inv; simpl;
       [congruence | lia | auto | out_tac I4 I4 | intros; congruence
       | congruence | intros; lia]. }
  destruct (r =? rn "?").
  { intros H; inversion H; subst; clear H.
    apply mk_inv; simpl;
       [congruence | lia | auto | out_tac I4 I4 | intros; congruence
       | congruence | intros; lia]. }
  destruct (r =? rn "*").
  { destruct (HasPrefix (from (in_ p1) (index p1)) (bytes "*/")) eqn:HP.
    - apply HasPrefix_len in HP.
      change (len (bytes "*/")) with 2 in HP.
      intros H; inversion H; subst; clear H.
      apply mk_inv; simpl;
       change (len ["*"%char; "/"%char]) with 2;
       [congruence | lia
       | intros W; apply I9 in W; unfold wf in W;
         rewrite len_from in HP by lia; rewrite <- I1; lia
       | out_tac I4 I4 | intros; congruence
       | congruence | intros; lia].
    - rewrite peek_eq.
      destruct (fst (next p1) =? rn "*").
      + destruct (next (WriteString _ _)) as [x p2] eqn:N2.
        pose proof (next_inv _ _ _ N2) as (J1&J2&J3&J4&J5&J6&J7&J8&J9).
        simpl in *.
        intros H; inversion H; subst; clear H.
        apply mk_inv; simpl;
         [congruence | lia
         | intros W; apply I9 in W; apply J9 in W; unfold wf in W;
           rewrite J1 in W; simpl in W; rewrite I1 in W; lia
         | out_tac I4 J4 | intros; congruence
         | congruence | intros; lia].
      + rewrite peek_eq.
        destruct (fst (next (set_width 0 p1)) =? rn "/").
        * destruct (next (WriteString _ _)) as [x p2] eqn:N2.
          pose proof (next_inv _ _ _ N2) as (J1&J2&J3&J4&J5&J6&J7&J8&J9).
          simpl in *.
          intros H; inversion H; subst; clear H.
          apply mk_inv; simpl;
           [congruence | lia
           | intros W; apply I9 in W; apply J9 in W; unfold wf in W;
             rewrite J1 in W; simpl in W; rewrite I1 in W; lia
           | out_tac I4 J4 | intros; congruence
           | congruence | intros; lia].
        * intros H; inversion H; subst; clear H.
          apply mk_inv; simpl;
           [congruence | lia | auto | out_tac I4 I4 | intros; congruence
           | congruence | intros; lia]. }
  intros H; inversion H; subst; clear H.
  apply mk_inv; simpl;
       [congruence | lia | auto | out_tac I4 I4 | intros; congruence
       | congruence | intros; lia].
Qed.

(* ================================================================== *)
(** ** Termination of the state loop *)

Lemma classResult_step (p q p' : globParser) (st : option parseFunc) :
  in_ q = in_ p -> index p < index q -> (wf p -> wf q) ->
  (exists o, out q = out p ++ o) -> neg q = neg p -> err q = err p ->
  classResult q p' st -> classResult p p' st.
Proof.
  intros Hin Hidx Hwf Hout Hneg Herr (A & N & C).
  split; [|split].
  - apply advances_trans with q; auto.
    unfold advances. split; [|split; [|split; [|split]]]; auto; lia.
  - congruence.
  - destruct C as [(?&?&?)|(?&?)]; [left|right]; repeat split; auto;
      try congruence; try lia.
Qed.

(** The loop of [parseClass] ends when it has more fuel than the input
    has bytes left. *)
Lemma parseClassLoop_total (fuel : nat) :
  forall (start : Z) (p : globParser),
    wf p ->
    (Z.to_nat (len (in_ p) - index p) < fuel)%nat ->
    exists p' st,
      parseClassLoop fuel start p = Some (p', st) /\ classResult p p' st.
Proof.
  induction fuel as [|fuel IH]; intros start p W F; [lia|].
  cbn [parseClassLoop].
  destruct (next p) as [r p1] eqn:N1.
  pose proof (next_inv _ _ _ N1) as (I1&I2&I3&I4&I5&I6&I7&I8&I9).
  pose proof (I9 W) as W1.
  destruct (r =? eof) eqn:Er.
  { do 2 eexists. split; [reflexivity|].
    split; [|split]; simpl; auto.
    - unfold advances, wf; simpl. unfold wf in W1.
      split; [|split; [|split; [|split]]]; auto; try lia.
      exists []. now rewrite app_nil_r.
    - right. split; auto. now rewrite I1. }
  assert (Hr : r <> eof) by (btest; auto).
  specialize (I8 Hr).
  (* every other branch loops on a parser [q] further in the input *)
  assert (K : forall q,
             in_ q = in_ p -> index p1 <= index q -> wf q ->
             (exists o, out q = out p ++ o) -> neg q = neg p ->
             err q = err p ->
             exists p' st,
               parseClassLoop fuel start q = Some (p', st)
               /\ classResult p p' st).
  { intros q Q1 Q2 Q3 Q4 Q5 Q6.
    destruct (IH start q Q3) as (p' & st & E & R).
    - unfold wf in *. rewrite Q1 in *. lia.
    - exists p', st. split; [exact E|].
      apply classResult_step with q; auto. lia. }
  assert (O1 : forall x, exists o, out p1 ++ x = out p ++ o).
  { intros x. exists x. now rewrite I4. }
  destruct (r =? rn "\").
  { destruct (next p1) as [nx p2] eqn:N2.
    pose proof (next_inv _ _ _ N2) as (J1&J2&J3&J4&J5&J6&J7&J8&J9).
    pose proof (J9 W1) as W2.
    assert (O2 : forall x, exists o, out p2 ++ x = out p ++ o).
    { intros x. exists x. now rewrite J4, I4. }
    destruct (nx =? eof); [|destruct (classEscaped nx)];
      apply K; simpl; auto; try congruence; try lia.
    exists (EncodeRune (rn "\") ++ EncodeRune nx).
    rewrite <- app_assoc. now rewrite J4, I4. }
  destruct (r =? rn "!").
  { destruct (index p1 - start - width p1 =? 0);
      apply K; simpl; auto; try congruence; try lia. }
  destruct (r =? rn "[").
  { apply K; simpl; auto; try congruence; try lia.
    exists (EncodeRune (rn "\") ++ EncodeRune r).
    rewrite <- app_assoc. now rewrite I4. }
  destruct (r =? rn "]").
  { do 2 eexists. split; [reflexivity|].
    split; [|split]; simpl; auto.
    - unfold advances, wf; simpl. unfold wf in W1.
      split; [|split; [|split; [|split]]]; auto; try lia.
    - left. repeat split; auto. lia. }
  apply K; simpl; auto; try congruence; try lia.
Qed.

(** Every state call returns; it moves the cursor forward unless it ends
    the loop, and only [parseClass] sets the error, ending the loop. *)
Lemma applyState_total (f : parseFunc) (p : globParser) :
  wf p ->
  exists p' st,
    applyState f p = Some (p', st)
    /\ advances p p'
    /\ (st <> None -> index p < index p' /\ err p' = err p).
Proof.
  intros W. destruct f; simpl.
  - destruct (parseMain p) as [p' st] eqn:E.
    apply parseMain_inv in E. destruct E as (A & E & P).
    exists p', st. split; [reflexivity|]. split; [exact A|].
    intros Hst. split; auto.
  - unfold parseClass.
    set (q := WriteRune (rn "[") p).
    destruct (parseClassLoop_total (S (List.length (in_ q))) (index q) q)
      as (p' & st & E & (A & N & C)).
    + exact W.
    + unfold wf in W. simpl in *. unfold len in *. lia.
    + exists p', st. split; [exact E|].
      split.
      * apply advances_trans with q; auto.
        unfold advances, q, wf; simpl.
        split; [|split; [|split; [|split]]]; auto; try lia.
        eexists; reflexivity.
      * intros Hst. destruct C as [(?&?&?)|(?&?)]; [|congruence].
        split; auto.
Qed.

(** The state loop ends when it has more fuel than the input has bytes
    left. *)
Lemma runStates_total (fuel : nat) :
  forall (st : option parseFunc) (p : globParser),
    wf p ->
    (Z.to_nat (len (in_ p) - index p) < fuel)%nat ->
    exists p', runStates fuel st p = Some p' /\ advances p p'.
Proof.
  induction fuel as [|fuel IH]; intros st p W F; [lia|].
  destruct st as [f|]; simpl.
  - destruct (applyState_total f p W) as (p1 & st1 & E & A & P).
    rewrite E.
    destruct st1 as [f1|].
    + destruct P as [P1 P2]; [congruence|].
      destruct A as (A1&A2&A3&A4&A5).
      destruct (IH (Some f1) p1 (A3 W)) as (p' & E' & A').
      * pose proof (A3 W) as W'. unfold wf in *. rewrite A1 in *. lia.
      * exists p'. split; [exact E'|].
        apply advances_trans with p1; auto.
        unfold advances; auto.
    + exists p1. split; auto. destruct fuel; reflexivity.
  - exists p. split; auto. apply advances_refl.
Qed.

Lemma wf_init (pat : gostring) : wf (initParser pat).
Proof. unfold wf, initParser; simpl. pose proof (len_nonneg pat). lia. Qed.

(** The state loop of [CompileGlob] ends on every pattern. *)
Lemma translate_total (pat : gostring) :
  exists p, translate pat = Some p /\ in_ p = pat.
Proof.
  unfold translate.
  destruct (runStates_total (S (List.length pat)) (Some ParseMain)
              (initParser pat) (wf_init pat)) as (p & E & A).
  - simpl. unfold len. lia.
  - exists p. split; auto. destruct A as (A1 & _). exact A1.
Qed.

(** [CompileGlob] returns on every pattern. *)
Lemma CompileGlob_total (pat : gostring) :
  exists o, CompileGlob pat = Some o.
Proof.
  unfold CompileGlob. destruct (translate_total pat) as (p & E & _).
  rewrite E. eauto.
Qed.

(* ================================================================== *)
(** ** A byte put in front of the pattern *)

Lemma lift_eq (c : ascii) (p q : globParser) :
  in_ q = c :: in_ p -> index q = index p + 1 -> width q = width p ->
  neg q = negb (neg p) -> err q = option_map (liftErr c) (err p) ->
  out q = out p -> choiceNest q = choiceNest p -> q = lift c p.
Proof.
  destruct q; unfold lift; simpl; intros; subst; reflexivity.
Qed.

(** [next] reads the same rune one byte further in the pattern with a
    byte in front. *)
Lemma next_lift (c : ascii) (p : globParser) :
  0 <= index p ->
  next (lift c p) = (fst (next p), lift c (snd (next p))).
Proof.
  intros H. rewrite !next_eq. cbv zeta. simpl in_. simpl index.
  rewrite from_cons by lia.
  destruct (DecodeRuneInString _) as [r w]. simpl fst. simpl snd.
  destruct (w =? 0); simpl; f_equal; apply lift_eq; simpl; auto; lia.
Qed.

(** [parseMain] does not read the width it is entered with. *)
Lemma parseMain_width (w : Z) (p : globParser) :
  parseMain (set_width w p) = parseMain p.
Proof. reflexivity. Qed.

(** A [!] read by [next] at offset 0 is the first byte of the pattern. *)
Lemma next_bang_first (p : globParser) (r : rune) (p' : globParser) :
  next p = (r, p') -> r = rn "!" -> index p' - width p' = 0 ->
  0 <= index p -> HasPrefix (in_ p) (bytes "!") = true.
Proof.
  intros N Hr H0 Hi. rewrite next_eq in N. cbv zeta in N.
  destruct (DecodeRuneInString _) as [r0 w] eqn:D. simpl in N.
  destruct (w =? 0) eqn:E; inversion N as [[Hr0 Hp]]; clear N; btest.
  - rewrite Hr in Hr0. discriminate.
  - rewrite <- Hp in H0. simpl in H0. assert (Hz : index p = 0) by lia.
    rewrite Hr0, Hr in D.
    apply Decode_small in D; auto; [|vm_compute; reflexivity].
    destruct D as (c & t & Hs & Hc & _).
    rewrite Hz in Hs. unfold from in Hs. simpl in Hs. rewrite Hs.
    apply byteZ_inj in Hc. subst c. reflexivity.
Qed.

Lemma write_lift c r p : WriteRune r (lift c p) = lift c (WriteRune r p).
Proof. reflexivity. Qed.

Lemma writes_lift c s p : WriteString s (lift c p) = lift c (WriteString s p).
Proof. reflexivity. Qed.

Lemma peek_lift (c : ascii) (p : globParser) :
  0 <= index p ->
  peek (lift c p) = (fst (peek p), lift c (snd (peek p))).
Proof.
  intros H. rewrite !peek_eq. rewrite next_lift by auto. reflexivity.
Qed.

Lemma peek_index (p : globParser) : index (snd (peek p)) = index p.
Proof. rewrite peek_eq. reflexivity. Qed.

Ltac red_pair := cbn [fst snd]; cbv beta iota zeta.

(** A call of [parseMain] on the lifted parser is the lifted call, unless
    it reads a [!] at offset 0 of the pattern. *)
Lemma parseMain_lift (c : ascii) (p : globParser) :
  0 <= index p ->
  (index p = 0 -> HasPrefix (in_ p) (bytes "!") = false) ->
  parseMain (lift c p) = (lift c (fst (parseMain p)), snd (parseMain p)).
Proof.
  intros Hi Hbang. unfold parseMain, literalMain.
  rewrite next_lift by auto.
  destruct (next p) as [r p1] eqn:N1. red_pair.
  pose proof (next_inv _ _ _ N1) as (I1&I2&I3&I4&I5&I6&I7&I8&I9).
  assert (Hi1 : 0 <= index p1) by lia.
  destruct (r =? eof); [reflexivity|].
  destruct (r =? rn "\").
  { rewrite next_lift by auto.
    destruct (next p1) as [nx p2]. red_pair.
    destruct (nx =? eof); reflexivity. }
  destruct (r =? rn "!") eqn:Eb.
  { change (index (lift c p1)) with (index p1 + 1).
    change (width (lift c p1)) with (width p1).
    replace (index p1 + 1 - width p1 =? 0) with false
      by (symmetry; apply Z.eqb_neq; lia).
    cbn [negb]. cbv iota.
    destruct (index p1 - width p1 =? 0) eqn:E0; [|reflexivity].
    exfalso. btest.
    pose proof (next_bang_first _ _ _ N1 Eb E0 Hi) as HB.
    rewrite Hbang in HB by lia. discriminate. }
  destruct (regexSpecial r); [reflexivity|].
  destruct (r =? rn "{"); [reflexivity|].
  destruct (r =? rn ",").
  { change (choiceNest (lift c p1)) with (choiceNest p1).
    destruct (choiceNest p1 =? 0); reflexivity. }
  destruct (r =? rn "}").
  { change (choiceNest (lift c p1)) with (choiceNest p1).
    destruct (choiceNest p1 =? 0); reflexivity. }
  destruct (r =? rn "["); [reflexivity|].
  destruct (r =? rn "?"); [reflexivity|].
  destruct (r =? rn "*").
  { change (in_ (lift c p1)) with (c :: in_ p1).
    change (index (lift c p1)) with (index p1 + 1).
    rewrite from_cons by auto.
    destruct (HasPrefix (from (in_ p1) (index p1)) (bytes "*/")).
    - red_pair. f_equal. apply lift_eq; cbn; auto. lia.
    - rewrite peek_lift by auto.
      destruct (peek p1) as [r1 q1] eqn:P1. red_pair.
      assert (Hq1 : index q1 = index p1).
      { pose proof (peek_index p1) as X. rewrite P1 in X. exact X. }
      destruct (r1 =? rn "*").
      + rewrite writes_lift. rewrite next_lift by (simpl; lia).
        destruct (next (WriteString _ q1)) as [x q2]. reflexivity.
      + rewrite peek_lift by lia.
        destruct (peek q1) as [r2 q3] eqn:P2. red_pair.
        assert (Hq3 : index q3 = index q1).
        { pose proof (peek_index q1) as X. rewrite P2 in X. exact X. }
        destruct (r2 =? rn "/").
        * rewrite writes_lift. rewrite next_lift by (simpl; lia).
          destruct (next (WriteString _ q3)) as [x q2]. reflexivity.
        * reflexivity. }
  reflexivity.
Qed.

(** The loop of [parseClass] on the lifted parser is the lifted loop. *)
Lemma parseClassLoop_lift (c : ascii) (fuel : nat) :
  forall (start : Z) (p : globParser),
    0 <= index p ->
    parseClassLoop fuel (start + 1) (lift c p)
    = option_map (liftResult c) (parseClassLoop fuel start p).
Proof.
  induction fuel as [|fuel IH]; intros start p Hi; [reflexivity|].
  cbn [parseClassLoop].
  rewrite next_lift by auto.
  destruct (next p) as [r p1] eqn:N1. red_pair.
  pose proof (next_inv _ _ _ N1) as (I1&I2&I3&I4&I5&I6&I7&I8&I9).
  assert (Hi1 : 0 <= index p1) by lia.
  destruct (r =? eof); [reflexivity|].
  destruct (r =? rn "\").
  { rewrite next_lift by auto.
    destruct (next p1) as [nx p2] eqn:N2. red_pair.
    pose proof (next_inv _ _ _ N2) as (J1&J2&J3&J4&J5&J6&J7&J8&J9).
    destruct (nx =? eof); [|destruct (classEscaped nx)];
      rewrite !write_lift; apply IH; simpl; lia. }
  destruct (r =? rn "!").
  { change (index (lift c p1)) with (index p1 + 1).
    change (width (lift c p1)) with (width p1).
    replace (index p1 + 1 - (start + 1) - width p1)
      with (index p1 - start - width p1) by lia.
    destruct (index p1 - start - width p1 =? 0);
      rewrite !write_lift; apply IH; simpl; lia. }
  destruct (r =? rn "[").
  { rewrite !write_lift; apply IH; simpl; lia. }
  destruct (r =? rn "]"); [reflexivity|].
  rewrite !write_lift; apply IH; simpl; lia.
Qed.

(** More fuel changes no result of the loop of [parseClass]. *)
Lemma parseClassLoop_more (fuel : nat) :
  forall (start : Z) (p : globParser) (x : globParser * option parseFunc),
    parseClassLoop fuel start p = Some x ->
    parseClassLoop (S fuel) start p = Some x.
Proof.
  induction fuel as [|fuel IH]; intros start p x H; [discriminate|].
  cbn [parseClassLoop] in H. remember (S fuel) as n.
  cbn [parseClassLoop]. subst n.
  destruct (next p) as [r p1].
  destruct (r =? eof); [exact H|].
  destruct (r =? rn "\").
  { destruct (next p1) as [nx p2].
    destruct (nx =? eof); [|destruct (classEscaped nx)]; apply IH; exact H. }
  destruct (r =? rn "!").
  { destruct (index p1 - start - width p1 =? 0); apply IH; exact H. }
  destruct (r =? rn "["); [apply IH; exact H|].
  destruct (r =? rn "]"); [exact H|].
  apply IH; exact H.
Qed.

Lemma parseClass_lift (c : ascii) (p : globParser) :
  wf p ->
  parseClass (lift c p) = option_map (liftResult c) (parseClass p).
Proof.
  intros W. unfold parseClass.
  rewrite write_lift.
  change (index (lift c (WriteRune (rn "[") p)))
    with (index (WriteRune (rn "[") p) + 1).
  change (in_ (lift c (WriteRune (rn "[") p))) with (c :: in_ p).
  change (in_ (WriteRune (rn "[") p)) with (in_ p).
  set (q := WriteRune (rn "[") p).
  destruct (parseClassLoop_total (S (List.length (in_ p))) (index q) q)
    as (p' & st & E & _).
  - exact W.
  - unfold wf in W. simpl. unfold len in *. lia.
  - rewrite E.
    change (List.length (c :: in_ p)) with (S (List.length (in_ p))).
    rewrite parseClassLoop_lift by (unfold wf in W; simpl; lia).
    rewrite (parseClassLoop_more _ _ _ _ E). reflexivity.
Qed.

Lemma applyState_lift (c : ascii) (f : parseFunc) (p : globParser) :
  wf p ->
  (index p = 0 -> HasPrefix (in_ p) (bytes "!") = false) ->
  applyState f (lift c p) = option_map (liftResult c) (applyState f p).
Proof.
  intros W Hb. destruct f; cbn [applyState].
  - rewrite parseMain_lift by (auto; unfold wf in W; lia). reflexivity.
  - apply parseClass_lift. exact W.
Qed.

(** The state loop on the lifted parser is the lifted loop. *)
Lemma runStates_lift (c : ascii) (fuel : nat) :
  forall (st : option parseFunc) (p : globParser),
    wf p ->
    (index p = 0 -> HasPrefix (in_ p) (bytes "!") = false) ->
    runStates fuel st (lift c p) = option_map (lift c) (runStates fuel st p).
Proof.
  induction fuel as [|fuel IH]; intros st p W Hb.
  - destruct st; reflexivity.
  - destruct st as [f|]; [|reflexivity].
    cbn [runStates]. rewrite applyState_lift by auto.
    destruct (applyState_total f p W) as (p1 & st1 & E & A & P).
    rewrite E. cbn [option_map liftResult fst snd].
    destruct st1 as [f1|].
    + destruct P as [P1 P2]; [congruence|].
      destruct A as (A1&A2&A3&A4&A5).
      apply IH; auto. unfold wf in W. intros. lia.
    + destruct fuel; reflexivity.
Qed.

(** More fuel changes no result of the state loop. *)
Lemma runStates_more (fuel : nat) :
  forall (st : option parseFunc) (p r : globParser),
    wf p ->
    runStates fuel st p = Some r -> runStates (S fuel) st p = Some r.
Proof.
  induction fuel as [|fuel IH]; intros st p r W H.
  - destruct st; [discriminate|exact H].
  - destruct st as [f|]; [|exact H].
    cbn [runStates] in H. remember (S fuel) as n. cbn [runStates]. subst n.
    destruct (applyState_total f p W) as (p1 & st1 & E & A & P).
    rewrite E in *. apply IH; auto.
    destruct A as (A1&A2&A3&A4&A5). auto.
Qed.

(** The translation of a pattern with a [!] put in front of it: the same
    run, one byte further, with the negation flag toggled. *)
Lemma translate_bang (pat : gostring) :
  HasPrefix pat (bytes "!") = false ->
  exists p, translate pat = Some p
            /\ translate ("!"%char :: pat)
               = Some (lift "!"%char p).
Proof.
  intros Hb.
  destruct (translate_total pat) as (p & E & _).
  exists p. split; [exact E|].
  unfold translate in *.
  change (List.length ("!"%char :: pat)) with (S (List.length pat)).
  remember (S (List.length pat)) as n.
  cbn [runStates applyState].
  assert (S1 : parseMain (initParser ("!"%char :: pat))
               = (set_width 1 (lift "!"%char (initParser pat)),
                  Some ParseMain)).
  { reflexivity. }
  rewrite S1. subst n. remember (List.length pat) as m.
  cbn [runStates applyState]. rewrite parseMain_width.
  change (match parseMain (lift "!"%char (initParser pat)) with
          | (p', state') => runStates m state' p' end)
    with (runStates (S m) (Some ParseMain) (lift "!"%char (initParser pat))).
  rewrite runStates_lift; [rewrite E; reflexivity | apply wf_init |].
  intros _. exact Hb.
Qed.

(* ================================================================== *)
(** ** Runs of the state loop *)

Lemma runStates_ge (f1 f2 : nat) (st : option parseFunc) (p r : globParser) :
  (f1 <= f2)%nat -> wf p ->
  runStates f1 st p = Some r -> runStates f2 st p = Some r.
Proof.
  intros Hle W H. induction Hle; auto. apply runStates_more; auto.
Qed.

(** State calls keep the cursor inside the input, and the input as it
    is. *)
Lemma stepsFrom_wf (n : nat) :
  forall st p p' st',
    wf p -> stepsFrom n st p = Some (p', st') -> wf p' /\ in_ p' = in_ p.
Proof.
  induction n as [|n IH]; intros st p p' st' W H.
  - inversion H; subst. auto.
  - cbn [stepsFrom] in H. destruct st as [f|]; [|discriminate].
    destruct (applyState_total f p W) as (p1 & st1 & E & A & _).
    rewrite E in H. destruct A as (A1 & _ & A3 & _).
    destruct (IH _ _ _ _ (A3 W) H) as [W' I']. split; congruence.
Qed.

(** The loop continues from where its first [n] calls have left it. *)
Lemma runStates_steps (n : nat) :
  forall st p p' st' fuel r,
    stepsFrom n st p = Some (p', st') ->
    runStates fuel st' p' = Some r ->
    runStates (n + fuel) st p = Some r.
Proof.
  induction n as [|n IH]; intros st p p' st' fuel r H R.
  - inversion H; subst. exact R.
  - cbn [stepsFrom] in H. destruct st as [f|]; [|discriminate].
    cbn [Nat.add runStates].
    destruct (applyState f p) as [[p1 st1]|]; [|discriminate].
    eapply IH; eauto.
Qed.

(** The translation of a pattern, from the state its first [n] state
    calls reach. *)
Lemma translate_after (pat : gostring) (n : nat) (p : globParser)
      (st : option parseFunc) (fuel : nat) (r : globParser) :
  stateAfter n pat = Some (p, st) ->
  runStates fuel st p = Some r ->
  translate pat = Some r.
Proof.
  intros H R.
  destruct (translate_total pat) as (r0 & E & _).
  pose proof (runStates_steps _ _ _ _ _ _ _ H R) as R'.
  unfold translate in *.
  destruct (Nat.le_ge_cases (S (List.length pat)) (n + fuel)) as [L|L].
  - pose proof (runStates_ge _ _ _ _ _ L (wf_init pat) E) as X. congruence.
  - pose proof (runStates_ge _ _ _ _ _ L (wf_init pat) R') as X. congruence.
Qed.

(** A byte of a later suffix is a byte of an earlier one. *)
Lemma In_from_mono (s : gostring) (i j : Z) (c : ascii) :
  0 <= i <= j -> In c (from s j) -> In c (from s i).
Proof.
  intros H Hin. replace j with (i + (j - i)) in Hin by lia.
  rewrite from_from in Hin by lia. unfold from in Hin at 1.
  rewrite <- (firstn_skipn (Z.to_nat (j - i)) (from s i)).
  apply in_or_app. right. exact Hin.
Qed.

(** What [next] has read when it returns a rune below [RuneSelf]: the
    byte of that value, or nothing at the end of the input. *)
Lemma next_first_byte (p p' : globParser) (r : rune) :
  next p = (r, p') -> r < 128 ->
  (from (in_ p) (index p) = [] /\ r = eof /\ index p' = index p)
  \/ (exists c t, from (in_ p) (index p) = c :: t /\ byteZ c = r
                 /\ index p' = index p + 1).
Proof.
  intros N Hr. rewrite next_eq in N. cbv zeta in N.
  pose proof (Decode_width (from (in_ p) (index p))) as [Hw Hne].
  destruct (DecodeRuneInString _) as [r0 w] eqn:D. cbn [fst snd] in *.
  destruct (w =? 0) eqn:E; inversion N as [[Hr0 Hp]]; clear N; btest.
  - left. split; [|split; [reflexivity|]].
    + destruct (from (in_ p) (index p)); [reflexivity|].
      assert (1 <= w) by (apply Hne; discriminate). lia.
    + reflexivity.
  - right. subst r0.
    destruct (Decode_small _ _ _ D E Hr) as (c & t & Hs & Hc & Hw1).
    exists c, t. repeat split; auto. simpl. lia.
Qed.


Lemma byteZ_zero (c : ascii) : byteZ c = 0 -> c = zero.
Proof. intros H. apply byteZ_inj. rewrite H. reflexivity. Qed.

(* ================================================================== *)
(** ** The bytes read and the classes left open *)

(** The bytes a decoded rune is read from: one byte of its value when it
    is below [RuneSelf], and bytes at or above [RuneSelf] only
    otherwise. *)
Lemma Decode_bytes (s : gostring) (r w : Z) :
  DecodeRuneInString s = (r, w) -> w <> 0 ->
  (r < 128 /\ w = 1 /\ exists c t, s = c :: t /\ byteZ c = r)
  \/ (128 <= r /\ 1 <= w /\ Forall high (firstn (Z.to_nat w) s)).
Proof.
  intros D Hw.
  destruct (Z.ltb_spec r 128) as [Hr|Hr].
  - left. destruct (Decode_small _ _ _ D Hw Hr) as (c & t & ? & ? & ?).
    repeat split; auto. exists c, t. auto.
  - right. split; [exact Hr|].
    destruct s as [|c0 t]; [inversion D; lia|].
    unfold DecodeRuneInString in D. cbv zeta in D.
    pose proof (byteZ_range c0) as R0.
    assert (F1 : forall x : ascii, high x -> Forall high [x])
      by (intros; repeat constructor; auto).
    destruct (first_cases _ R0)
    as [[F ?]|[[F ?]|[(lo&hi&F&?&?&?)
                     |[(lo&hi&F&?&?&?&?)|(lo&hi&F&?&?&?&?)]]]];
      rewrite F in D; cbv beta iota zeta in D.
    + inversion D; subst. lia.
    + inversion D; subst. split; [lia|]. apply F1. unfold high; lia.
    + assert (Hh0 : high c0) by (unfold high; lia).
      destruct t as [|c1 t1];
        [inversion D; subst; split; [lia|apply F1; auto]|].
      destruct ((byteZ c1 <? lo) || (hi <? byteZ c1)) eqn:E1;
        [inversion D; subst; split; [lia|apply F1; auto]|].
      change (2 <=? 2) with true in D. cbv iota in D.
      inversion D; subst. split; [lia|]. btest.
      repeat constructor; auto. unfold high. lia.
    + assert (Hh0 : high c0) by (unfold high; lia).
      destruct t as [|c1 t1];
        [inversion D; subst; split; [lia|apply F1; auto]|].
      destruct ((byteZ c1 <? lo) || (hi <? byteZ c1)) eqn:E1;
        [inversion D; subst; split; [lia|apply F1; auto]|].
      change (3 <=? 2) with false in D. cbv iota in D.
      destruct t1 as [|c2 t2];
        [inversion D; subst; split; [lia|apply F1; auto]|].
      destruct (negb (cont (byteZ c2))) eqn:E2;
        [inversion D; subst; split; [lia|apply F1; auto]|].
      change (3 <=? 3) with true in D. cbv iota in D.
      inversion D; subst. split; [lia|]. btest. apply cont_range in E2.
      repeat constructor; unfold high; auto; lia.
    + assert (Hh0 : high c0) by (unfold high; lia).
      destruct t as [|c1 t1];
        [inversion D; subst; split; [lia|apply F1; auto]|].
      destruct ((byteZ c1 <? lo) || (hi <? byteZ c1)) eqn:E1;
        [inversion D; subst; split; [lia|apply F1; auto]|].
      change (4 <=? 2) with false in D. cbv iota in D.
      destruct t1 as [|c2 t2];
        [inversion D; subst; split; [lia|apply F1; auto]|].
      destruct (negb (cont (byteZ c2))) eqn:E2;
        [inversion D; subst; split; [lia|apply F1; auto]|].
      change (4 <=? 3) with false in D. cbv iota in D.
      destruct t2 as [|c3 t3];
        [inversion D; subst; split; [lia|apply F1; auto]|].
      destruct (negb (cont (byteZ c3))) eqn:E3;
        [inversion D; subst; split; [lia|apply F1; auto]|].
      inversion D; subst. split; [lia|]. btest.
      apply cont_range in E2, E3.
      repeat constructor; unfold high; auto; lia.
Qed.

Lemma high_not_special (c : ascii) :
  high c -> byte_eqb c "\" = false /\ byte_eqb c "]" = false.
Proof.
  unfold high. intros H. rewrite !byte_eqb_rn. unfold rn.
  split; apply Z.eqb_neq; intros E; rewrite E in H; vm_compute in H;
    congruence.
Qed.

(** Bytes outside ASCII neither close nor escape. *)
Lemma unclosed_skip_high (k : nat) :
  forall s, Forall high (firstn k s) -> unclosed s = unclosed (skipn k s).
Proof.
  induction k as [|k IH]; intros s H; [reflexivity|].
  destruct s as [|c t]; [reflexivity|].
  cbn [firstn] in H. inversion H as [|? ? Hc Ht]; subst.
  destruct (high_not_special c Hc) as [E1 E2].
  cbn [unclosed skipn]. rewrite E1, E2. apply IH. exact Ht.
Qed.

Lemma from_step (s : gostring) (i w : Z) :
  0 <= i -> 0 <= w -> from s (i + w) = skipn (Z.to_nat w) (from s i).
Proof. intros. rewrite from_from by lia. reflexivity. Qed.

(** [next] and what it has read, with the text left after it. *)
Lemma next_read (p p' : globParser) (r : rune) :
  next p = (r, p') -> 0 <= index p ->
  (from (in_ p) (index p) = [] /\ r = eof /\ index p' = index p)
  \/ (exists c t, from (in_ p) (index p) = c :: t /\ byteZ c = r
                 /\ r < 128 /\ index p' = index p + 1
                 /\ from (in_ p) (index p') = t)
  \/ (128 <= r /\ 1 <= width p' /\ index p' = index p + width p'
      /\ Forall high (firstn (Z.to_nat (width p')) (from (in_ p) (index p)))).
Proof.
  intros N Hi. rewrite next_eq in N. cbv zeta in N.
  pose proof (Decode_width (from (in_ p) (index p))) as [Hw Hne].
  destruct (DecodeRuneInString _) as [r0 w] eqn:D. cbn [fst snd] in *.
  destruct (w =? 0) eqn:E; inversion N as [[Hr0 Hp]]; clear N; btest.
  - left. split; [|split; reflexivity].
    destruct (from (in_ p) (index p)); [reflexivity|].
    assert (1 <= w) by (apply Hne; discriminate). lia.
  - right. subst r0.
    destruct (Decode_bytes _ _ _ D E) as [(Hr & Hw1 & c & t & Hs & Hc)|(Hr & Hw1 & Hh)].
    + left. exists c, t. subst w. simpl.
      repeat split; auto.
      rewrite from_step by lia. rewrite Hs. reflexivity.
    + right. simpl. repeat split; auto.
Qed.

(** A rune that is neither a backslash nor a closing bracket leaves the
    text as closed or unclosed as it was. *)
Lemma next_unclosed (p p' : globParser) (r : rune) :
  next p = (r, p') -> 0 <= index p ->
  r <> rn "\" -> r <> rn "]" ->
  unclosed (from (in_ p) (index p')) = unclosed (from (in_ p) (index p)).
Proof.
  intros N Hi H1 H2.
  destruct (next_read _ _ _ N Hi)
    as [(_ & _ & E)|[(c & t & Hs & Hc & Hr & E & Ht)|(Hr & Hw & E & Hh)]].
  - now rewrite E.
  - rewrite Ht, Hs. cbn [unclosed]. rewrite !byte_eqb_rn, Hc.
    apply Z.eqb_neq in H1, H2. now rewrite H1, H2.
  - rewrite E. rewrite from_step by lia. symmetry.
    apply unclosed_skip_high. exact Hh.
Qed.

(** A backslash and the rune after it. *)
Lemma next_escape_unclosed (p p1 p2 : globParser) (nx : rune) :
  next p = (rn "\", p1) -> next p1 = (nx, p2) -> 0 <= index p ->
  unclosed (from (in_ p) (index p2)) = unclosed (from (in_ p) (index p)).
Proof.
  intros N1 N2 Hi.
  pose proof (next_inv _ _ _ N1) as (I1&_&_&_&_&I6&I7&_&_).
  destruct (next_read _ _ _ N1 Hi)
    as [(_ & He & _)|[(c & t & Hs & Hc & Hr & E & Ht)|(Hr & _)]].
  - vm_compute in He. discriminate.
  - assert (Hi1 : 0 <= index p1) by lia.
    apply byteZ_inj in Hc. subst c.
    rewrite Hs. cbn [unclosed]. change (byte_eqb "\" "\") with true.
    cbv iota. rewrite <- I1 in *.
    destruct (next_read _ _ _ N2 Hi1)
      as [(Hn & _ & E2)|[(c & t2 & Hs2 & _ & _ & E2 & Ht2)|(_ & Hw & E2 & Hh)]].
    + rewrite E2, Hn. rewrite Ht in Hn. rewrite Hn. reflexivity.
    + rewrite Ht2. rewrite Ht in Hs2. rewrite Hs2. reflexivity.
    + rewrite E2. rewrite from_step by lia. rewrite Ht in *.
      destruct t as [|c1 t1].
      * rewrite skipn_nil. reflexivity.
      * destruct (Z.to_nat (width p2)) as [|k] eqn:Ek; [lia|].
        cbn [firstn] in Hh. inversion Hh as [|? ? Hc1 Ht1]; subst.
        cbn [skipn]. symmetry. apply unclosed_skip_high. exact Ht1.
  - vm_compute in Hr. congruence.
Qed.

(* ================================================================== *)
(** ** Unterminated classes *)

Lemma clean_mono (p q : globParser) :
  in_ q = in_ p -> 0 <= index p <= index q ->
  unclosed (from (in_ p) (index q)) = unclosed (from (in_ p) (index p)) ->
  clean p -> clean q.
Proof.
  intros Hin Hidx Hu [C1 C2]. split.
  - rewrite Hin, Hu. exact C1.
  - intros c Hc. apply C2. rewrite Hin in Hc. eapply In_from_mono; eauto.
Qed.

(** The loop of [parseClass] over input that never closes the class and
    holds no NUL: it runs to the end of the input and sets the error
    there. *)
Lemma parseClassLoop_unterminated (fuel : nat) :
  forall (start : Z) (p : globParser),
    wf p -> clean p ->
    (Z.to_nat (len (in_ p) - index p) < fuel)%nat ->
    exists p',
      parseClassLoop fuel start p = Some (p', None)
      /\ err p' = Some (GlobError (in_ p) (len (in_ p)) ErrUnterminatedClass).
Proof.
  induction fuel as [|fuel IH]; intros start p W C F; [lia|].
  cbn [parseClassLoop].
  assert (Hi : 0 <= index p) by (unfold wf in W; lia).
  destruct (next p) as [r p1] eqn:N1.
  pose proof (next_inv _ _ _ N1) as (I1&I2&I3&I4&I5&I6&I7&I8&I9).
  pose proof (I9 W) as W1.
  destruct (r =? eof) eqn:Er.
  { btest. eexists. split; [reflexivity|]. simpl. rewrite I1.
    destruct (next_first_byte _ _ _ N1) as [(Hnil & _ & Hi')|(c & t & Hs & Hc & Hi')].
    - rewrite Er. vm_compute. reflexivity.
    - apply from_nil_inv in Hnil; [|lia].
      unfold wf in W. repeat f_equal. lia.
    - exfalso. destruct C as [_ C2]. apply (C2 c).
      + rewrite Hs. left. reflexivity.
      + apply byteZ_zero. rewrite Hc. exact Er. }
  assert (Hr : r <> eof) by (btest; auto).
  specialize (I8 Hr).
  assert (K : forall q,
             in_ q = in_ p -> index p1 <= index q -> wf q ->
             unclosed (from (in_ p) (index q))
             = unclosed (from (in_ p) (index p)) ->
             exists p',
               parseClassLoop fuel start q = Some (p', None)
               /\ err p'
                  = Some (GlobError (in_ p) (len (in_ p)) ErrUnterminatedClass)).
  { intros q Q1 Q2 Q3 Q4.
    destruct (IH start q Q3) as (p' & E & R).
    - apply clean_mono with p; auto. lia.
    - unfold wf in *. rewrite Q1 in *. lia.
    - exists p'. split; [exact E|]. now rewrite <- Q1. }
  destruct (r =? rn "\") eqn:Ebs.
  { btest. subst r.
    destruct (next p1) as [nx p2] eqn:N2.
    pose proof (next_inv _ _ _ N2) as (J1&J2&J3&J4&J5&J6&J7&J8&J9).
    pose proof (J9 W1) as W2.
    pose proof (next_escape_unclosed _ _ _ _ N1 N2 Hi) as U.
    destruct (nx =? eof); [|destruct (classEscaped nx)];
      apply K; simpl; auto; try congruence; try lia. }
  destruct (r =? rn "]") eqn:Eb.
  { exfalso. btest.
    destruct (next_first_byte _ _ _ N1) as [(_ & He & _)|(c & t & Hs & Hc & Hi')].
    - rewrite Eb. vm_compute. reflexivity.
    - congruence.
    - destruct C as [C1 _]. rewrite Hs in C1. cbn [unclosed] in C1.
      rewrite !byte_eqb_rn, Hc, Eb in C1. vm_compute in C1. discriminate. }
  btest.
  pose proof (next_unclosed _ _ _ N1 Hi Ebs Eb) as U.
  destruct (r =? rn "!").
  { destruct (index p1 - start - width p1 =? 0);
      apply K; simpl; auto; try congruence; try lia. }
  destruct (r =? rn "[").
  { apply K; simpl; auto; try congruence; try lia. }
  apply K; simpl; auto; try congruence; try lia.
Qed.

(** C6 (amended).  When the translator enters the class state (after [n]
    state calls it has just read an unescaped opening bracket in the
    main state) and the text after the bracket never closes the class
    and holds no NUL, compilation fails with a [GlobError] of the
    unterminated-class error whose index is the byte length of the
    pattern. *)
Theorem unterminated_class_error (pat : gostring) (n : nat) (p : globParser) :
  stateAfter n pat = Some (p, Some ParseClass) ->
  unclosed (from pat (index p)) = true ->
  (forall c, In c (from pat (index p)) -> c <> zero) ->
  CompileGlob pat
  = Some (Err (GlobError pat (len pat) ErrUnterminatedClass)).
Proof.
  intros H U C.
  destruct (stepsFrom_wf _ _ _ _ _ (wf_init pat) H) as [W Hin].
  simpl in Hin.
  set (q := WriteRune (rn "[") p).
  destruct (parseClassLoop_unterminated (S (List.length (in_ q))) (index q) q)
    as (p' & E & Herr).
  - exact W.
  - split; simpl; rewrite Hin; auto.
  - unfold wf in W. simpl in *. unfold len in *. lia.
  - assert (T : translate pat = Some p').
    { apply (translate_after pat n p (Some ParseClass) 1 p' H).
      cbn [runStates applyState]. unfold parseClass. fold q.
      rewrite E. reflexivity. }
    unfold CompileGlob. rewrite T. unfold compileParsed. rewrite Herr.
    simpl in_. rewrite Hin. reflexivity.
Qed.

(** The theorem at the pattern [x[a\]bc], whose only closing bracket is
    escaped. *)
Lemma unterminated_class_error_witness :
  CompileGlob (bytes "x[a\]bc")
  = Some (Err (GlobError (bytes "x[a\]bc") (len (bytes "x[a\]bc"))
                 ErrUnterminatedClass)).
Proof.
  apply (unterminated_class_error (bytes "x[a\]bc") 2
           (mkParser (bytes "x[a\]bc") 2 1 false None (bytes "^(?s)x") 0)).
  - reflexivity.
  - reflexivity.
  - simpl. intros c [<-|[<-|[<-|[<-|[<-|[]]]]]]; discriminate.
Defined.

(** C6 as stated fails at the pattern of the four bytes [[], [a], NUL,
    [b]: the class is never closed and the index of the error is 3, not
    the length 4. *)
Lemma class_error_index_counterexample :
  stateAfter 1 [ "["%char; "a"%char; zero; "b"%char ]
  = Some (mkParser [ "["%char; "a"%char; zero; "b"%char ] 1 1 false None
            (bytes "^(?s)") 0, Some ParseClass)
  /\ unclosed [ "a"%char; zero; "b"%char ] = true
  /\ CompileGlob [ "["%char; "a"%char; zero; "b"%char ]
     = Some (Err (GlobError [ "["%char; "a"%char; zero; "b"%char ] 3
                    ErrUnterminatedClass))
  /\ len [ "["%char; "a"%char; zero; "b"%char ] = 4.
Proof.
  repeat split.
Qed.

(* ================================================================== *)
(** ** A NUL after the text *)

Lemma byteZ_zero_val : byteZ zero = 0.
Proof. reflexivity. Qed.

(** Inside the text before the NUL, [next] reads what it reads in that
    text alone. *)
Lemma next_ext (post : gostring) (p : globParser) :
  wf p -> index p < len (in_ p) ->
  next (ext post p) = (fst (next p), ext post (snd (next p))).
Proof.
  intros W H. rewrite !next_eq. cbv zeta.
  change (in_ (ext post p)) with (in_ p ++ zero :: post).
  change (index (ext post p)) with (index p).
  rewrite from_app by exact W.
  rewrite Decode_app_ascii.
  - destruct (DecodeRuneInString _) as [r w]. cbn [fst snd].
    destruct (w =? 0); reflexivity.
  - intros E. apply from_nil_inv in E; unfold wf in W; lia.
  - rewrite byteZ_zero_val. lia.
Qed.

(** At the end of the text before the NUL, [next] reads the NUL and
    moves past it, where on the text alone it meets the end. *)
Lemma next_ext_end (post : gostring) (p : globParser) :
  wf p -> index p = len (in_ p) ->
  next (ext post p)
  = (eof, set_index (index p + 1) (set_width 1 (ext post p)))
  /\ next p = (eof, set_width 0 p).
Proof.
  intros W H. rewrite !next_eq. cbv zeta.
  change (in_ (ext post p)) with (in_ p ++ zero :: post).
  change (index (ext post p)) with (index p).
  rewrite from_app by exact W.
  rewrite (from_end (in_ p) (index p)) by lia.
  split; reflexivity.
Qed.

Lemma next_not_eof_inside (p p' : globParser) (r : rune) :
  next p = (r, p') -> wf p -> r <> eof -> index p < len (in_ p).
Proof.
  intros N W Hr. rewrite next_eq in N. cbv zeta in N.
  destruct (Z.ltb_spec (index p) (len (in_ p))) as [L|L]; [exact L|].
  rewrite from_end in N by lia. simpl in N. inversion N. congruence.
Qed.

Lemma fst_next_ext (post : gostring) (p : globParser) :
  wf p -> fst (next (ext post p)) = fst (next p).
Proof.
  intros W.
  destruct (Z.ltb_spec (index p) (len (in_ p))) as [L|L].
  - rewrite next_ext by auto. reflexivity.
  - destruct (next_ext_end post p W) as [E1 E2]; [unfold wf in W; lia|].
    rewrite E1, E2. reflexivity.
Qed.

Lemma peek_ext (post : gostring) (p : globParser) :
  wf p -> peek (ext post p) = (fst (peek p), ext post (snd (peek p))).
Proof.
  intros W. rewrite !peek_eq. rewrite fst_next_ext by auto. reflexivity.
Qed.

Lemma HasPrefix_ext (l post : gostring) :
  HasPrefix (l ++ zero :: post) (bytes "*/") = HasPrefix l (bytes "*/").
Proof.
  destruct l as [|a [|b l]]; cbn.
  - reflexivity.
  - destruct (byte_eqb "*" a); reflexivity.
  - reflexivity.
Qed.

Lemma write_ext post r p : WriteRune r (ext post p) = ext post (WriteRune r p).
Proof. reflexivity. Qed.

Lemma writes_ext post s p :
  WriteString s (ext post p) = ext post (WriteString s p).
Proof. reflexivity. Qed.

Lemma peek_wf (p : globParser) : wf p -> wf (snd (peek p)).
Proof. rewrite peek_eq. auto. Qed.

(** A call of [parseMain] that stays inside the text before the NUL does
    what it does on that text alone. *)
Lemma parseMain_ext (post : gostring) (p q : globParser)
      (st : option parseFunc) :
  wf p ->
  parseMain (ext post p) = (q, st) ->
  index q <= len (in_ p) ->
  q = ext post (fst (parseMain p)) /\ st = snd (parseMain p).
Proof.
  intros W H Hq.
  destruct (Z.ltb_spec (index p) (len (in_ p))) as [L|L].
  2:{ exfalso. destruct (next_ext_end post p W) as [E1 _];
        [unfold wf in W; lia|].
      unfold parseMain in H. rewrite E1 in H.
      change (eof =? eof) with true in H. cbv iota in H.
      inversion H; subst. simpl in Hq. lia. }
  revert H. unfold parseMain, literalMain.
  rewrite next_ext by auto.
  destruct (next p) as [r p1] eqn:N1. red_pair.
  pose proof (next_inv _ _ _ N1) as (I1&I2&I3&I4&I5&I6&I7&I8&I9).
  pose proof (I9 W) as W1.
  destruct (r =? eof); [intros H; inversion H; auto|].
  destruct (r =? rn "\").
  { destruct (Z.ltb_spec (index p1) (len (in_ p1))) as [L1|L1].
    - rewrite next_ext by auto.
      destruct (next p1) as [nx p2]. red_pair.
      destruct (nx =? eof); intros H; inversion H; auto.
    - destruct (next_ext_end post p1 W1) as [E1 E2];
        [unfold wf in W1; lia|].
      rewrite E1. red_pair. change (eof =? eof) with true. cbv iota.
      intros H; inversion H; subst. simpl in Hq. exfalso.
      unfold wf in W1. rewrite <- I1 in Hq. lia. }
  destruct (r =? rn "!").
  { change (index (ext post p1)) with (index p1).
    change (width (ext post p1)) with (width p1).
    destruct (negb (index p1 - width p1 =? 0));
      intros H; inversion H; auto. }
  destruct (regexSpecial r); [intros H; inversion H; auto|].
  destruct (r =? rn "{"); [intros H; inversion H; auto|].
  destruct (r =? rn ",").
  { change (choiceNest (ext post p1)) with (choiceNest p1).
    destruct (choiceNest p1 =? 0); intros H; inversion H; auto. }
  destruct (r =? rn "}").
  { change (choiceNest (ext post p1)) with (choiceNest p1).
    destruct (choiceNest p1 =? 0); intros H; inversion H; auto. }
  destruct (r =? rn "["); [intros H; inversion H; auto|].
  destruct (r =? rn "?"); [intros H; inversion H; auto|].
  destruct (r =? rn "*").
  { change (in_ (ext post p1)) with (in_ p1 ++ zero :: post).
    change (index (ext post p1)) with (index p1).
    rewrite from_app by exact W1. rewrite HasPrefix_ext.
    destruct (HasPrefix (from (in_ p1) (index p1)) (bytes "*/")).
    - intros H; inversion H; auto.
    - rewrite peek_ext by auto.
      destruct (peek p1) as [r1 q1] eqn:P1. red_pair.
      assert (Wq1 : wf q1).
      { pose proof (peek_wf p1 W1) as X. rewrite P1 in X. exact X. }
      assert (Eq1 : q1 = set_width 0 p1 /\ r1 = fst (next p1)).
      { pose proof (peek_eq p1) as X. rewrite P1 in X.
        inversion X; auto. }
      destruct Eq1 as [Eq1 Er1].
      destruct (r1 =? rn "*") eqn:E1.
      + rewrite writes_ext.
        assert (L1 : index p1 < len (in_ p1)).
        { destruct (next p1) as [x y] eqn:N2.
          apply (next_not_eof_inside _ _ _ N2 W1).
          simpl in Er1. subst x. btest. rewrite E1. discriminate. }
        rewrite next_ext by (subst q1; auto).
        destruct (next (WriteString _ q1)) as [x q2].
        intros H; inversion H; auto.
      + rewrite peek_ext by auto.
        destruct (peek q1) as [r2 q3] eqn:P2. red_pair.
        assert (Wq3 : wf q3).
        { pose proof (peek_wf q1 Wq1) as X. rewrite P2 in X. exact X. }
        assert (Eq3 : q3 = set_width 0 q1 /\ r2 = fst (next q1)).
        { pose proof (peek_eq q1) as X. rewrite P2 in X.
          inversion X; auto. }
        destruct Eq3 as [Eq3 Er2].
        destruct (r2 =? rn "/") eqn:E2.
        * rewrite writes_ext.
          assert (L1 : index q1 < len (in_ q1)).
          { destruct (next q1) as [x y] eqn:N2.
            apply (next_not_eof_inside _ _ _ N2 Wq1).
            simpl in Er2. subst x. btest. rewrite E2. discriminate. }
          rewrite next_ext by (subst q3; auto).
          destruct (next (WriteString _ q3)) as [x q2].
          intros H; inversion H; auto.
        * intros H; inversion H; auto. }
  intros H; inversion H; auto.
Qed.

(** The loop of [parseClass] moves the cursor forward. *)
Lemma parseClassLoop_index (fuel : nat) :
  forall start p q st,
    parseClassLoop fuel start p = Some (q, st) -> index p <= index q.
Proof.
  induction fuel as [|fuel IH]; intros start p q st H; [discriminate|].
  cbn [parseClassLoop] in H.
  destruct (next p) as [r p1] eqn:N1.
  pose proof (next_inv _ _ _ N1) as (I1&I2&I3&I4&I5&I6&I7&I8&I9).
  destruct (r =? eof); [inversion H; subst; simpl; lia|].
  destruct (r =? rn "\").
  { destruct (next p1) as [nx p2] eqn:N2.
    pose proof (next_inv _ _ _ N2) as (J1&J2&J3&J4&J5&J6&J7&J8&J9).
    destruct (nx =? eof); [|destruct (classEscaped nx)];
      apply IH in H; simpl in H; lia. }
  destruct (r =? rn "!").
  { destruct (index p1 - start - width p1 =? 0);
      apply IH in H; simpl in H; lia. }
  destruct (r =? rn "["); [apply IH in H; simpl in H; lia|].
  destruct (r =? rn "]"); [inversion H; subst; simpl; lia|].
  apply IH in H; simpl in H; lia.
Qed.

(** The loop of [parseClass] that closes its class inside the text
    before the NUL does what it does on that text alone. *)
Lemma parseClassLoop_ext (post : gostring) (fuel : nat) :
  forall (start : Z) (p q : globParser),
    wf p ->
    parseClassLoop fuel start (ext post p) = Some (q, Some ParseMain) ->
    index q <= len (in_ p) ->
    exists q',
      parseClassLoop fuel start p = Some (q', Some ParseMain)
      /\ q = ext post q'.
Proof.
  induction fuel as [|fuel IH]; intros start p q W H Hq; [discriminate|].
  cbn [parseClassLoop] in H. cbn [parseClassLoop].
  destruct (Z.ltb_spec (index p) (len (in_ p))) as [L|L].
  2:{ exfalso. destruct (next_ext_end post p W) as [E1 _];
        [unfold wf in W; lia|].
      rewrite E1 in H. change (eof =? eof) with true in H. cbv iota in H.
      discriminate. }
  rewrite next_ext in H by auto.
  destruct (next p) as [r p1] eqn:N1. cbn [fst snd] in H.
  cbv beta iota zeta in H.
  pose proof (next_inv _ _ _ N1) as (I1&I2&I3&I4&I5&I6&I7&I8&I9).
  pose proof (I9 W) as W1.
  destruct (r =? eof); [discriminate|].
  assert (K : forall x,
             in_ x = in_ p -> wf x ->
             parseClassLoop fuel start (ext post x) = Some (q, Some ParseMain) ->
             exists q',
               parseClassLoop fuel start x = Some (q', Some ParseMain)
               /\ q = ext post q').
  { intros x X1 X2 X3. apply IH; auto. now rewrite X1. }
  destruct (r =? rn "\").
  { destruct (Z.ltb_spec (index p1) (len (in_ p1))) as [L1|L1].
    - rewrite next_ext in H by auto.
      destruct (next p1) as [nx p2] eqn:N2. cbn [fst snd] in H.
      cbv beta iota zeta in H.
      pose proof (next_inv _ _ _ N2) as (J1&J2&J3&J4&J5&J6&J7&J8&J9).
      pose proof (J9 W1) as W2.
      destruct (nx =? eof); [|destruct (classEscaped nx)];
        apply K; auto; simpl; congruence.
    - exfalso. destruct (next_ext_end post p1 W1) as [E1 E2];
        [unfold wf in W1; lia|].
      rewrite E1 in H. cbv beta iota zeta in H.
      change (eof =? eof) with true in H. cbv iota in H.
      apply parseClassLoop_index in H. simpl in H.
      unfold wf in W1. rewrite <- I1 in Hq. lia. }
  destruct (r =? rn "!").
  { change (index (ext post p1)) with (index p1) in H.
    change (width (ext post p1)) with (width p1) in H.
    destruct (index p1 - start - width p1 =? 0);
      apply K; auto; simpl; congruence. }
  destruct (r =? rn "["); [apply K; auto; simpl; congruence|].
  destruct (r =? rn "]").
  { inversion H; subst. eexists. split; reflexivity. }
  apply K; auto; simpl; congruence.
Qed.

Lemma parseClassLoop_ge (f1 f2 : nat) start p x :
  (f1 <= f2)%nat ->
  parseClassLoop f1 start p = Some x -> parseClassLoop f2 start p = Some x.
Proof.
  intros Hle H. induction Hle; auto. apply parseClassLoop_more; auto.
Qed.

Lemma parseClass_ext (post : gostring) (p q : globParser) :
  wf p ->
  parseClass (ext post p) = Some (q, Some ParseMain) ->
  index q <= len (in_ p) ->
  exists q', parseClass p = Some (q', Some ParseMain) /\ q = ext post q'.
Proof.
  intros W H Hq. unfold parseClass in *.
  rewrite write_ext in H.
  change (index (ext post (WriteRune (rn "[") p)))
    with (index (WriteRune (rn "[") p)) in H.
  set (x := WriteRune (rn "[") p) in *.
  destruct (parseClassLoop_ext post _ _ x q W H Hq) as (q' & E & Eq).
  exists q'. split; [|exact Eq].
  destruct (parseClassLoop_total (S (List.length (in_ x))) (index x) x)
    as (p' & st & E' & _).
  - exact W.
  - unfold wf in W. simpl in *. unfold len in *. lia.
  - rewrite E'. f_equal.
    assert (Hle : (S (List.length (in_ x))
                   <= S (List.length (in_ (ext post x))))%nat).
    { simpl. rewrite length_app. lia. }
    pose proof (parseClassLoop_ge _ _ _ _ _ Hle E') as X.
    congruence.
Qed.

Lemma wf_ext (post : gostring) (p : globParser) : wf p -> wf (ext post p).
Proof.
  unfold wf, ext, len. simpl. rewrite length_app. simpl. lia.
Qed.

(** State calls move the cursor forward. *)
Lemma stepsFrom_index (n : nat) :
  forall st p p' st',
    wf p -> stepsFrom n st p = Some (p', st') -> index p <= index p'.
Proof.
  induction n as [|n IH]; intros st p p' st' W H.
  - inversion H; subst. lia.
  - cbn [stepsFrom] in H. destruct st as [f|]; [|discriminate].
    destruct (applyState_total f p W) as (p1 & st1 & E & A & _).
    rewrite E in H. destruct A as (A1 & A2 & A3 & _).
    apply IH in H; auto. lia.
Qed.

(** While the loop runs, the error slot stays as it was. *)
Lemma stepsFrom_running (n : nat) :
  forall st p p' f',
    wf p -> stepsFrom n st p = Some (p', Some f') -> err p' = err p.
Proof.
  induction n as [|n IH]; intros st p p' f' W H.
  - inversion H; subst. reflexivity.
  - cbn [stepsFrom] in H. destruct st as [f|]; [|discriminate].
    destruct (applyState_total f p W) as (p1 & st1 & E & A & P).
    rewrite E in H. destruct A as (A1 & A2 & A3 & _).
    destruct st1 as [f1|].
    + destruct P as [_ P2]; [congruence|].
      apply IH in H; auto. congruence.
    + destruct n; discriminate.
Qed.

(** The state calls that stay in the text before the NUL are those of
    the run on that text alone. *)
Lemma stepsFrom_ext (post : gostring) (n : nat) :
  forall st p q,
    wf p ->
    stepsFrom n st (ext post p) = Some (q, Some ParseMain) ->
    index q <= len (in_ p) ->
    exists p', stepsFrom n st p = Some (p', Some ParseMain)
               /\ q = ext post p'.
Proof.
  induction n as [|n IH]; intros st p q W H Hq.
  - inversion H; subst. eexists. split; reflexivity.
  - cbn [stepsFrom] in H. cbn [stepsFrom].
    destruct st as [f|]; [|discriminate].
    destruct (applyState f (ext post p)) as [[q1 st1]|] eqn:E; [|discriminate].
    assert (Wq1 : wf q1 /\ in_ q1 = in_ (ext post p)).
    { destruct (applyState_total f _ (wf_ext post p W)) as (a & b & E' & A & _).
      rewrite E in E'. inversion E'; subst.
      destruct A as (A1 & _ & A3 & _). split; auto.
      apply A3. apply wf_ext. exact W. }
    destruct Wq1 as [Wq1 Iq1].
    pose proof (stepsFrom_index _ _ _ _ _ Wq1 H) as M.
    assert (Hst1 : exists f1, st1 = Some f1).
    { destruct st1 as [f1|]; [eauto|]. destruct n; discriminate. }
    destruct Hst1 as [f1 ->].
    destruct f; cbn [applyState] in E |- *.
    + inversion E as [E0]; clear E.
      destruct (parseMain_ext post p q1 (Some f1) W E0) as [Eq1 Est]; [lia|].
      destruct (parseMain p) as [p1 s1] eqn:PM. cbn [fst snd] in *.
      subst q1 s1.
      apply IH in H; auto.
      * apply parseMain_inv in PM. destruct PM as ((A1&_&A3&_) & _).
        auto.
      * apply parseMain_inv in PM. destruct PM as ((A1&_&A3&_) & _).
        rewrite A1. exact Hq.
    + assert (f1 = ParseMain).
      { destruct (applyState_total ParseClass _ (wf_ext post p W))
          as (a & b & E' & _ & _).
        cbn [applyState] in E'. rewrite E in E'. inversion E'; subst.
        unfold parseClass in E.
        destruct (parseClassLoop_total
                    (S (List.length (in_ (WriteRune (rn "[") (ext post p)))))
                    (index (WriteRune (rn "[") (ext post p)))
                    (WriteRune (rn "[") (ext post p)))
          as (a' & b' & E'' & (_ & _ & C)).
        - apply wf_ext. exact W.
        - pose proof (wf_ext post p W) as X. unfold wf in X. simpl in *.
          unfold len in *. lia.
        - rewrite E in E''. inversion E''; subst.
          destruct C as [(C1 & _)|(C1 & _)]; congruence. }
      subst f1.
      destruct (parseClass_ext post p q1 W E) as (q' & E' & Eq); [lia|].
      rewrite E'. subst q1.
      destruct (applyState_total ParseClass p W) as (a & b & E2 & A & _).
      cbn [applyState] in E2. rewrite E' in E2. inversion E2; subst.
      destruct A as (A1 & _ & A3 & _).
      apply IH in H; auto. rewrite A1. exact Hq.
Qed.

(* ================================================================== *)
(** ** NUL in the main state *)

Lemma GlobMatch_same (pat1 pat2 : gostring) (p1 p2 : globParser) :
  translate pat1 = Some p1 -> translate pat2 = Some p2 ->
  err p1 = err p2 -> out p1 = out p2 ->
  (err p1 = None \/ pat1 = pat2) ->
  forall data, GlobMatch pat1 data = GlobMatch pat2 data.
Proof.
  intros T1 T2 He Ho Hn data. unfold GlobMatch, CompileGlob.
  rewrite T1, T2. unfold compileParsed. rewrite <- He.
  destruct (err p1) as [e|]; [reflexivity|].
  unfold WriteRune. cbn [out set_out]. rewrite Ho.
  destruct (regexp.Compile _); reflexivity.
Qed.

(** C9 (amended).  When the translator, in its main state after [n] state
    calls, stands at a NUL of the pattern (the NUL is the code point
    [parseMain] dispatches on), the translation stops there with no
    error and gives the text and the flag of the pattern cut before the
    NUL; compiling and matching come out as for the cut pattern. *)
Theorem nul_in_main_truncates (pre post : gostring) (n : nat)
        (p : globParser) :
  stateAfter n (pre ++ zero :: post) = Some (p, Some ParseMain) ->
  index p = len pre ->
  (exists p1 p2,
      translate (pre ++ zero :: post) = Some p1
      /\ translate pre = Some p2
      /\ err p1 = None /\ err p2 = None
      /\ out p1 = out p2 /\ neg p1 = neg p2)
  /\ forall data, GlobMatch (pre ++ zero :: post) data = GlobMatch pre data.
Proof.
  intros H Hi.
  assert (X : exists p1 p2,
      translate (pre ++ zero :: post) = Some p1
      /\ translate pre = Some p2
      /\ err p1 = None /\ err p2 = None
      /\ out p1 = out p2 /\ neg p1 = neg p2).
  { unfold stateAfter in H.
    change (initParser (pre ++ zero :: post))
      with (ext post (initParser pre)) in H.
    destruct (stepsFrom_ext post n _ _ _ (wf_init pre) H) as (p' & S' & Ep).
    { simpl. lia. }
    destruct (stepsFrom_wf _ _ _ _ _ (wf_init pre) S') as [W' I'].
    pose proof (stepsFrom_running _ _ _ _ _ (wf_init pre) S') as Herr.
    simpl in I', Herr. subst p. simpl in Hi.
    destruct (next_ext_end post p' W') as [E1 E2]; [congruence|].
    exists (set_index (index p' + 1) (set_width 1 (ext post p'))),
           (set_width 0 p').
    split; [|split; [|repeat split; auto]].
    - apply (translate_after _ n (ext post p') (Some ParseMain) 1).
      + exact H.
      + cbn [runStates applyState]. unfold parseMain. rewrite E1.
        reflexivity.
    - apply (translate_after _ n p' (Some ParseMain) 1).
      + exact S'.
      + cbn [runStates applyState]. unfold parseMain. rewrite E2.
        reflexivity. }
  split; [exact X|].
  destruct X as (p1 & p2 & T1 & T2 & E1 & E2 & Ho & Hn).
  apply (GlobMatch_same _ _ p1 p2); auto. congruence.
Qed.

(** The theorem at the pattern [a], NUL, [b], which matches as the
    pattern [a] does. *)
Lemma nul_in_main_truncates_witness :
  (exists p1 p2,
      translate (bytes "a" ++ zero :: bytes "b") = Some p1
      /\ translate (bytes "a") = Some p2
      /\ err p1 = None /\ err p2 = None
      /\ out p1 = out p2 /\ neg p1 = neg p2)
  /\ forall data,
       GlobMatch (bytes "a" ++ zero :: bytes "b") data
       = GlobMatch (bytes "a") data.
Proof.
  apply (nul_in_main_truncates (bytes "a") (bytes "b") 1
           (mkParser (bytes "a" ++ zero :: bytes "b") 1 1 false None
                     (bytes "^(?s)a") 0)).
  - reflexivity.
  - reflexivity.
Defined.

(** C9 as stated fails at the pattern backslash, NUL, [$]: the NUL is
    read in the main state as the code point after the backslash, the
    translation goes on to the [$] behind it, and the matcher rejects the
    candidate [$] that the pattern cut at the NUL accepts. *)
Lemma escaped_nul_counterexample :
  (exists p, translate ("\"%char :: zero :: bytes "$") = Some p
             /\ index p = 3 /\ out p = bytes "^(?s)\\$")
  /\ (exists p, translate (bytes "\") = Some p /\ out p = bytes "^(?s)\")
  /\ GlobMatch ("\"%char :: zero :: bytes "$") (bytes "$") = Some (Ok false)
  /\ GlobMatch (bytes "\") (bytes "$") = Some (Ok true).
Proof.
  split; [eexists; split; [vm_compute; reflexivity|split; reflexivity]|].
  split; [eexists; split; [vm_compute; reflexivity|reflexivity]|].
  split; vm_compute; reflexivity.
Qed.

(* ================================================================== *)
(** ** A leading exclamation mark *)

(** [CompileGlob] is [CompileGlobWith] at every engine that agrees with
    the engine model on the text of the pattern. *)
Lemma CompileGlob_with (engine : gostring -> regexp.Regexp + ErrorCode)
      (pat : gostring) :
  (forall expr r, regexp.Compile expr = regexp.Compiled r ->
                  engine expr = inl r) ->
  (forall expr code, regexp.Compile expr = regexp.Rejected code ->
                     engine expr = inr code) ->
  match CompileGlob pat with
  | Some (Ok g) => CompileGlobWith engine pat = Some (inl g)
  | Some (Err e) => CompileGlobWith engine pat = Some (inr e)
  | Some Unknown => True
  | None => CompileGlobWith engine pat = None
  end.
Proof.
  intros Hc Hr. unfold CompileGlob, CompileGlobWith, compileParsed.
  destruct (translate pat) as [p|]; [|reflexivity].
  destruct (err p); [reflexivity|]. cbv zeta.
  destruct (regexp.Compile _) eqn:E; [| |exact I].
  - now rewrite (Hc _ _ E).
  - now rewrite (Hr _ _ E).
Qed.

(** C8.  For every pattern that does not begin with [!], the translator
    writes the same expression text for the pattern and for the pattern
    with a [!] in front, with the negation flag toggled and the same
    error, if any, one byte further.  Hence, whatever the engine makes
    of a text, both compilations fail or both give matchers of the same
    expression, which agree on every candidate; so do the compilations
    with the engine model. *)
Theorem leading_bang_same_match
        (engine : gostring -> regexp.Regexp + ErrorCode) (pat : gostring) :
  HasPrefix pat (bytes "!") = false ->
  (exists p p',
      translate pat = Some p /\ translate (bytes "!" ++ pat) = Some p'
      /\ out p' = out p /\ neg p' = negb (neg p)
      /\ err p' = option_map (liftErr "!"%char) (err p))
  /\ match CompileGlobWith engine pat,
           CompileGlobWith engine (bytes "!" ++ pat) with
     | Some (inl g), Some (inl g') =>
         negated g' = negb (negated g) /\ re g' = re g
         /\ forall s, Match g' s = Match g s
     | Some (inr e), Some (inr e') => e' = liftErr "!"%char e
     | _, _ => False
     end
  /\ match CompileGlob pat, CompileGlob (bytes "!" ++ pat) with
     | Some (Ok g), Some (Ok g') =>
         negated g' = negb (negated g) /\ forall s, Match g' s = Match g s
     | Some (Err e), Some (Err e') => e' = liftErr "!"%char e
     | Some Unknown, Some Unknown => True
     | _, _ => False
     end.
Proof.
  intros Hb. destruct (translate_bang pat Hb) as (p & E1 & E2).
  change (bytes "!" ++ pat) with ("!"%char :: pat).
  split; [|split].
  - exists p, (lift "!"%char p). repeat split; auto.
  - unfold CompileGlobWith. rewrite E1, E2.
    change (err (lift "!"%char p))
      with (option_map (liftErr "!"%char) (err p)).
    destruct (err p); cbn [option_map]; [reflexivity|]. cbv zeta.
    rewrite write_lift.
    change (out (lift "!"%char (WriteRune (rn "$") p)))
      with (out (WriteRune (rn "$") p)).
    destruct (engine _); [|reflexivity].
    split; [|split]; reflexivity.
  - unfold CompileGlob. rewrite E1, E2. unfold compileParsed.
    change (err (lift "!"%char p))
      with (option_map (liftErr "!"%char) (err p)).
    destruct (err p); cbn [option_map]; [reflexivity|].
    rewrite write_lift.
    change (out (lift "!"%char (WriteRune (rn "$") p)))
      with (out (WriteRune (rn "$") p)).
    destruct (regexp.Compile _); [|reflexivity|exact I].
    split; reflexivity.
Qed.

(** The theorem at the pattern [*.go], with the engine model as the
    engine. *)
Lemma leading_bang_same_match_witness :
  HasPrefix (bytes "*.go") (bytes "!") = false
  /\ (exists p p',
        translate (bytes "*.go") = Some p
        /\ translate (bytes "!" ++ bytes "*.go") = Some p'
        /\ out p' = out p /\ neg p' = negb (neg p)
        /\ err p' = option_map (liftErr "!"%char) (err p))
  /\ match CompileGlobWith modelEngine (bytes "*.go"),
           CompileGlobWith modelEngine (bytes "!" ++ bytes "*.go") with
     | Some (inl g), Some (inl g') =>
         negated g' = negb (negated g) /\ re g' = re g
         /\ forall s, Match g' s = Match g s
     | Some (inr e), Some (inr e') => e' = liftErr "!"%char e
     | _, _ => False
     end.
Proof.
  split; [reflexivity|].
  destruct (leading_bang_same_match modelEngine (bytes "*.go") eq_refl)
    as (T & M & _).
  split; [exact T|exact M].
Defined.

(* ================================================================== *)
(** ** A second exclamation mark *)

(** C4 as stated fails at the pattern [!!rest]: the flag ends set, not
    unset, and the second [!] is in the output. *)
Lemma second_bang_literal_counterexample :
  (exists p, translate (bytes "!!rest") = Some p
             /\ neg p = true /\ out p = bytes "^(?s)!rest")
  /\ ~ (exists p, translate (bytes "!!rest") = Some p /\ neg p = false).
Proof.
  split.
  - eexists. split; [vm_compute; reflexivity|]. split; reflexivity.
  - intros (p & E & N). vm_compute in E. inversion E; subst. discriminate.
Qed.

(** One call of the main state in the loop. *)
Lemma runStates_main_step (fuel : nat) (p p' : globParser)
      (st : option parseFunc) :
  parseMain p = (p', st) ->
  runStates (S fuel) (Some ParseMain) p = runStates fuel st p'.
Proof. intros E. cbn [runStates applyState]. now rewrite E. Qed.

Lemma stepsFrom_main_step (n : nat) (p p' : globParser)
      (st : option parseFunc) :
  parseMain p = (p', st) ->
  stepsFrom (S n) (Some ParseMain) p = stepsFrom n st p'.
Proof. intros E. cbn [stepsFrom applyState]. now rewrite E. Qed.

(** C4 (amended).  Only the [!] at offset 0 toggles the flag.  For every
    pattern that begins with two [!], the first state call consumes the
    first [!], sets the flag and writes nothing; the second state call
    writes the second [!] as a literal and leaves the flag set: after
    it the cursor is at offset 2 and the output is [^(?s)!].  The
    translation is the run of the loop from there; its flag is set and
    its output begins with [^(?s)!]. *)
Theorem second_bang_is_literal (rest : gostring) :
  stateAfter 1 (bytes "!!" ++ rest)
  = Some (mkParser (bytes "!!" ++ rest) 1 1 true None (bytes "^(?s)") 0,
          Some ParseMain)
  /\ stateAfter 2 (bytes "!!" ++ rest)
     = Some (mkParser (bytes "!!" ++ rest) 2 1 true None (bytes "^(?s)!") 0,
             Some ParseMain)
  /\ translate (bytes "!!" ++ rest)
     = runStates (S (List.length rest)) (Some ParseMain)
         (mkParser (bytes "!!" ++ rest) 2 1 true None (bytes "^(?s)!") 0)
  /\ exists p,
       translate (bytes "!!" ++ rest) = Some p
       /\ neg p = true
       /\ exists o, out p = bytes "^(?s)!" ++ o.
Proof.
  change (bytes "!!" ++ rest) with ("!"%char :: "!"%char :: rest).
  set (pat := "!"%char :: "!"%char :: rest).
  set (s1 := mkParser pat 1 1 true None (bytes "^(?s)") 0).
  set (s2 := mkParser pat 2 1 true None (bytes "^(?s)!") 0).
  assert (P1 : parseMain (initParser pat) = (s1, Some ParseMain))
    by reflexivity.
  assert (P2 : parseMain s1 = (s2, Some ParseMain)) by reflexivity.
  assert (T : translate pat
              = runStates (S (List.length rest)) (Some ParseMain) s2).
  { unfold translate.
    change (List.length pat) with (S (S (List.length rest))).
    now rewrite (runStates_main_step _ _ _ _ P1),
      (runStates_main_step _ _ _ _ P2). }
  split; [|split; [|split]].
  - unfold stateAfter. now rewrite (stepsFrom_main_step _ _ _ _ P1).
  - unfold stateAfter.
    now rewrite (stepsFrom_main_step _ _ _ _ P1),
      (stepsFrom_main_step _ _ _ _ P2).
  - exact T.
  - assert (W : wf s2).
    { unfold wf, s2, pat, len. cbn [index in_ List.length]. lia. }
    destruct (runStates_total (S (List.length rest)) (Some ParseMain) s2 W)
      as (p & E & A).
    { unfold s2, pat, len. cbn [index in_ List.length]. lia. }
    exists p. split; [|split].
    + now rewrite T.
    + destruct A as (_ & _ & _ & _ & A5). rewrite A5; [reflexivity|].
      simpl. lia.
    + destruct A as (_ & _ & _ & A4 & _). exact A4.
Qed.

(* ================================================================== *)
(** ** The matcher *)

Module regexp_facts.
Import regexp.

(** An expression that starts with [^] matches at no later position. *)
Lemma startsAnchored_later (re : Regexp) :
  startsAnchored re = true ->
  forall s k, matchHere re false s k = false.
Proof.
  induction re; cbn [startsAnchored]; intros H s k; try discriminate;
    cbn [matchHere].
  - reflexivity.
  - apply IHre. exact H.
  - apply IHre1. exact H.
  - apply andb_prop in H. destruct H as [H1 H2].
    rewrite IHre1, IHre2 by auto. reflexivity.
Qed.

Lemma search_later (re : Regexp) :
  startsAnchored re = true -> forall s, search re false s = false.
Proof.
  intros H s. induction s as [|c s IH]; cbn [search];
    rewrite startsAnchored_later by exact H; auto.
Qed.

(** A match of an expression that starts with [^] starts at the
    beginning of the text. *)
Lemma MatchString_anchored (re : Regexp) (s : gostring) :
  startsAnchored re = true ->
  MatchString re s = matchHere re true (runes s) (fun _ _ => true).
Proof.
  intros H. unfold MatchString.
  destruct (runes s) as [|c l]; cbn [search].
  - apply orb_false_r.
  - rewrite search_later by exact H. apply orb_false_r.
Qed.

(** A repetition of a class runs over every run of runes of the class. *)
Lemma starLoop_class (negated : bool) (ranges : list (rune * rune))
      (l : list rune) :
  forall (fuel : nat) (b : bool) (rest : list rune) (k : continuation),
    Forall (fun c => classMatches negated ranges c = true) l ->
    (List.length l <= fuel)%nat ->
    (forall b', k b' rest = true) ->
    starLoop (matchHere (OpCharClass negated ranges)) fuel b (l ++ rest) k
    = true.
Proof.
  induction l as [|c l IH]; intros fuel b rest k Hall Hfuel Hk.
  - destruct fuel; cbn [starLoop app]; rewrite Hk; auto using orb_true_r.
  - destruct fuel as [|fuel]; [simpl in Hfuel; lia|].
    inversion Hall as [|? ? Hc Hl]; subst.
    cbn [starLoop app matchHere oneRune]. rewrite Hc.
    cbn [andb].
    replace (List.length (l ++ rest) <? List.length (c :: l ++ rest))%nat
      with true by (symmetry; apply Nat.ltb_lt; simpl; lia).
    cbn [andb]. rewrite IH; auto. simpl in Hfuel. lia.
Qed.

End regexp_facts.
Import regexp_facts.

(* ---------------------------------------------------------------- *)

Lemma question_compiles :
  CompileGlob (bytes "?") = Some (Ok (mkGlob (bytes "?") questionRe false)).
Proof. reflexivity. Qed.

(** The matches of the expression of [?] at the start of the text. *)
Lemma question_matches (l : list rune) :
  regexp.matchHere questionRe true l (fun _ _ => true) = true
  <-> exists c, l = [c] /\ c <> rn "/".
Proof.
  unfold questionRe. cbn [regexp.matchHere andb].
  destruct l as [|c [|d l]]; cbn [regexp.oneRune].
  - split; [discriminate|]. intros (c & E & _). discriminate.
  - unfold regexp.classMatches, regexp.inRange. cbn [existsb fst snd xorb].
    rewrite orb_false_r, andb_true_r. change (rn "/") with 47.
    split.
    + intros H. exists c. split; [reflexivity|].
      intros ->. discriminate.
    + intros (c' & E & Hne). inversion E; subst c'.
      destruct (Z.leb_spec 47 c); destruct (Z.leb_spec c 47);
        try reflexivity. lia.
  - rewrite andb_false_r. split; [discriminate|].
    intros (c' & E & _). discriminate.
Qed.

(** C5 (amended).  The pattern [?] compiles to a matcher that accepts
    exactly the candidates of one code point other than [/]; it rejects
    [/], the empty candidate and every candidate of two code points or
    more. *)
Theorem question_mark_one_code_point :
  exists g,
    CompileGlob (bytes "?") = Some (Ok g)
    /\ forall data,
         Match g data = true
         <-> exists c, runes data = [c] /\ c <> rn "/".
Proof.
  eexists. split; [exact question_compiles|].
  intros data. unfold Match. cbn [re].
  rewrite regexp_facts.MatchString_anchored by reflexivity.
  apply question_matches.
Qed.

(** C5 as stated fails at the candidate [/], of one code point: it is
    rejected. *)
Lemma question_mark_slash_counterexample :
  runes (bytes "/") = [rn "/"]
  /\ GlobMatch (bytes "?") (bytes "/") = Some (Ok false).
Proof. split; reflexivity. Qed.

(** The only string whose runes are the single rune [a] is [a]. *)
Lemma runes_a (data : gostring) :
  runes data = [rn "a"] <-> data = bytes "a".
Proof.
  split; [|intros ->; reflexivity].
  unfold runes. destruct data as [|c t]; [discriminate|].
  cbn [List.length runesFuel].
  destruct (DecodeRuneInString (c :: t)) as [r w] eqn:D.
  intros H. inversion H as [[Hr Ht]]. subst r.
  apply Decode_small in D; [|intros E; subst w|vm_compute; reflexivity].
  - destruct D as (c' & t' & Hs & Hc & Hw). inversion Hs; subst c' t' w.
    apply byteZ_inj in Hc. subst c.
    change (from ("a"%char :: t) 1) with t in Ht.
    destruct t as [|c2 t2]; [reflexivity|].
    cbn [List.length runesFuel] in Ht.
    destruct (DecodeRuneInString (c2 :: t2)). discriminate.
  - pose proof (Decode_width (c :: t)) as [_ Hne].
    rewrite D in Hne. simpl in Hne.
    assert (1 <= 0) by (apply Hne; discriminate). lia.
Qed.

(** The pattern [a], NUL, [b] matches exactly the candidate [a]. *)
Lemma nul_pattern_matches_a (data : gostring) :
  GlobMatch (bytes "a" ++ zero :: bytes "b") data = Some (Ok true)
  <-> data = bytes "a".
Proof.
  rewrite <- runes_a.
  change (GlobMatch (bytes "a" ++ zero :: bytes "b") data)
    with (Some (Ok (regexp.MatchString
                      (regexp.OpConcat
                         (regexp.OpConcat regexp.OpBeginText
                            (regexp.OpLiteral 97))
                         regexp.OpEndText) data))).
  rewrite regexp_facts.MatchString_anchored by reflexivity.
  cbn [regexp.matchHere andb].
  destruct (runes data) as [|c [|d l]]; cbn [regexp.oneRune].
  - split; discriminate.
  - rewrite andb_true_r. change (rn "a") with 97.
    destruct (Z.eqb_spec 97 c) as [<-|Hne].
    + split; reflexivity.
    + split; [discriminate|]. intros E. inversion E. congruence.
  - rewrite andb_false_r. split; discriminate.
Qed.

(* ================================================================== *)
(** ** Globstar, directory entries, anchors and engine errors *)

Lemma globstarFile_compiles :
  CompileGlob (bytes "**/file")
  = Some (Ok (mkGlob (bytes "**/file") globstarFileRe false)).
Proof. reflexivity. Qed.

(** A non-empty run of components ends with a slash. *)
Lemma components_last (comps : list (list rune)) :
  comps <> [] -> Forall noNul comps ->
  exists body, components comps = body ++ [rn "/"] /\ noNul body.
Proof.
  induction comps as [|c cs IH]; intros Hne Hall; [congruence|].
  inversion Hall as [|? ? Hc Hcs]; subst.
  destruct cs as [|c' cs'].
  - exists c. split; [|exact Hc]. unfold components. simpl.
    now rewrite app_nil_r.
  - destruct IH as (body & E & Hb); [discriminate|exact Hcs|].
    exists (c ++ [rn "/"] ++ body). split.
    + unfold components in *. cbn [flat_map] in *. rewrite E.
      now rewrite <- !app_assoc.
    + unfold noNul in *. apply Forall_app. split; [exact Hc|].
      apply Forall_app. split; [|exact Hb].
      constructor; [discriminate|constructor].
Qed.

(** The expression of [**/file] matches components without NUL followed
    by [file]. *)
Lemma globstarFile_matches (comps : list (list rune)) :
  Forall noNul comps ->
  regexp.matchHere globstarFileRe true
    (components comps ++ runes (bytes "file")) (fun _ _ => true) = true.
Proof.
  intros Hall. unfold globstarFileRe.
  cbn [regexp.matchHere andb].
  destruct comps as [|c cs].
  - reflexivity.
  - destruct (components_last (c :: cs)) as (body & E & Hb);
      [discriminate|exact Hall|].
    rewrite E. rewrite <- app_assoc.
    apply orb_true_iff. right.
    apply regexp_facts.starLoop_class.
    + unfold noNul in Hb. eapply Forall_impl; [|exact Hb].
      intros r Hr. unfold regexp.classMatches, regexp.inRange.
      cbn [existsb fst snd]. rewrite orb_false_r. cbv beta in Hr.
      destruct (Z.leb_spec 0 r); destruct (Z.leb_spec r 0);
        try reflexivity. lia.
    + rewrite !length_app. lia.
    + intros b'. reflexivity.
Qed.

(** C1 (amended).  The pattern [**/file] compiles; its matcher accepts the
    candidates [file], [/file], [y/file] and [x/y/file], and it accepts
    every candidate whose code points are zero or more components, each
    followed by a slash, and then [file], provided no component holds a
    NUL: the globstar is translated to [(|[^\0]*/)], whose class leaves
    NUL out. *)
Theorem globstar_leading_components :
  exists g,
    CompileGlob (bytes "**/file") = Some (Ok g)
    /\ Match g (bytes "file") = true
    /\ Match g (bytes "/file") = true
    /\ Match g (bytes "y/file") = true
    /\ Match g (bytes "x/y/file") = true
    /\ forall (data : gostring) (comps : list (list rune)),
         Forall noNul comps ->
         runes data = components comps ++ runes (bytes "file") ->
         Match g data = true.
Proof.
  eexists. split; [exact globstarFile_compiles|].
  repeat (split; [reflexivity|]).
  intros data comps Hall Hd. unfold Match. cbn [re].
  rewrite regexp_facts.MatchString_anchored by reflexivity.
  rewrite Hd. apply globstarFile_matches. exact Hall.
Qed.

(** The theorem at the candidate [usr/local/file]. *)
Lemma globstar_leading_components_witness :
  exists g,
    CompileGlob (bytes "**/file") = Some (Ok g)
    /\ Match g (bytes "usr/local/file") = true.
Proof.
  destruct globstar_leading_components as (g & E & _ & _ & _ & _ & H).
  exists g. split; [exact E|].
  apply (H (bytes "usr/local/file")
           [runes (bytes "usr"); runes (bytes "local")]).
  - repeat constructor; discriminate.
  - reflexivity.
Defined.

(** C1 as stated fails at the candidate made of one slash-terminated
    component, a NUL alone, followed by [file]: it is rejected. *)
Lemma globstar_nul_component_counterexample :
  runes (zero :: bytes "/file")
  = components [[0]] ++ runes (bytes "file")
  /\ GlobMatch (bytes "**/file") (zero :: bytes "/file") = Some (Ok false).
Proof. split; reflexivity. Qed.

(* ---------------------------------------------------------------- *)

(** C7.  [MatchInfo] is [Match] of the name or, for a directory only,
    [Match] of the name followed by a slash; the pattern [*/] rejects the
    entry [dir] that is no directory and accepts the directory [dir]. *)
Theorem match_info_directory :
  (forall (g : Glob) (info : FileInfo),
      MatchInfo g info
      = Match g (Name info)
        || (IsDir info && Match g (Name info ++ bytes "/")))
  /\ exists g,
       CompileGlob (bytes "*/") = Some (Ok g)
       /\ MatchInfo g (mkFileInfo (bytes "dir") false) = false
       /\ MatchInfo g (mkFileInfo (bytes "dir") true) = true.
Proof.
  split.
  - intros g info. unfold MatchInfo.
    destruct (IsDir info); cbn [andb]; [reflexivity|].
    now rewrite orb_false_r.
  - eexists. split; [reflexivity|]. split; reflexivity.
Qed.

(* ---------------------------------------------------------------- *)

(** C2 (failing input).  For the pattern [a\] the translator writes the
    dangling backslash as it is; the text it emits, [^(?s)a\], closed by
    [$], ends in an escaped dollar and not in the anchor.  The matcher
    accepts [a$b], of which the expression matches the runes 0..2 and not
    the runes 0..3, and it rejects [a\]. *)
Theorem dangling_escape_unanchored :
  exists p g,
    translate (bytes "a\") = Some p
    /\ out p = bytes "^(?s)a\"
    /\ CompileGlob (bytes "a\") = Some (Ok g)
    /\ Match g (bytes "a$b") = true
    /\ regexp.matchesSpan (re g) (runes (bytes "a$b")) 0 3 = false
    /\ regexp.matchesSpan (re g) (runes (bytes "a$b")) 0 2 = true
    /\ Match g (bytes "a\") = false.
Proof.
  do 2 eexists. split; [vm_compute; reflexivity|].
  split; [reflexivity|]. split; [vm_compute; reflexivity|].
  repeat split.
Qed.

(* ---------------------------------------------------------------- *)

(** C3 (amended).  When the engine rejects the text emitted by the
    translator, [CompileGlob] returns the error of the engine as it is,
    wrapped in no [GlobError]. *)
Theorem engine_error_returned_bare (pat : gostring) (p : globParser)
        (code : ErrorCode) :
  translate pat = Some p ->
  err p = None ->
  regexp.Compile (out p ++ bytes "$") = regexp.Rejected code ->
  CompileGlob pat = Some (Err (SyntaxError code)).
Proof.
  intros T E C. unfold CompileGlob. rewrite T. unfold compileParsed.
  rewrite E.
  change (out (WriteRune (rn "$") p)) with (out p ++ bytes "$").
  rewrite C. reflexivity.
Qed.

(** The theorem at the pattern [{a], whose text [^(?s)(a$] the engine
    rejects for the missing parenthesis. *)
Lemma engine_error_returned_bare_witness :
  CompileGlob (bytes "{a") = Some (Err (SyntaxError ErrMissingParen)).
Proof.
  apply (engine_error_returned_bare (bytes "{a")
           (mkParser (bytes "{a") 2 0 false None (bytes "^(?s)(a") 1)).
  - reflexivity.
  - reflexivity.
  - reflexivity.
Defined.

(** C3 as stated fails at the pattern [{a]: the error returned is the
    error of the engine, not a [GlobError] of offset 0 that wraps it. *)
Lemma engine_error_not_wrapped_counterexample :
  regexp.Compile (bytes "^(?s)(a$") = regexp.Rejected ErrMissingParen
  /\ CompileGlob (bytes "{a") = Some (Err (SyntaxError ErrMissingParen))
  /\ isGlobError (SyntaxError ErrMissingParen) = false
  /\ CompileGlob (bytes "{a")
     <> Some (Err (GlobError (bytes "{a") 0 (SyntaxError ErrMissingParen))).
Proof.
  split; [reflexivity|]. split; [reflexivity|]. split; [reflexivity|].
  intros H. vm_compute in H. discriminate.
Qed.

(* ================================================================== *)
(** ** Searching strings *)

Lemma IndexByte_none (t : gostring) (c : ascii) :
  ~ In c t -> IndexByte t c = -1.
Proof.
  induction t as [|x t IH]; intros H; [reflexivity|].
  cbn [IndexByte].
  destruct (byte_eqb_spec x c) as [->|Hne].
  - exfalso. apply H. left. reflexivity.
  - rewrite IH; [reflexivity|]. intros Hin. apply H. right. exact Hin.
Qed.

(** [IndexByte] is -1 or an offset. *)
Lemma IndexByte_range (t : gostring) (c : ascii) :
  IndexByte t c = -1 \/ 0 <= IndexByte t c.
Proof.
  induction t as [|x t IH]; [left; reflexivity|].
  cbn [IndexByte]. destruct (byte_eqb x c); [right; lia|].
  destruct (IndexByte t c <? 0) eqn:E; btest; [left; reflexivity|right; lia].
Qed.

(** [IndexAny] is -1 or the offset of one of the bytes sought. *)
Lemma IndexAny_spec (t chars : gostring) :
  IndexAny t chars = -1
  \/ (0 <= IndexAny t chars < len t
      /\ existsb (byte_eqb (nth (Z.to_nat (IndexAny t chars)) t zero)) chars
         = true).
Proof.
  induction t as [|x t IH]; [left; reflexivity|].
  cbn [IndexAny].
  destruct (existsb (byte_eqb x) chars) eqn:E.
  - right. rewrite len_cons. pose proof (len_nonneg t).
    split; [lia|]. exact E.
  - destruct IH as [IH|[IH1 IH2]].
    + left. rewrite IH. reflexivity.
    + right. destruct (IndexAny t chars <? 0) eqn:E0; btest; [lia|].
      rewrite len_cons. split; [lia|].
      replace (Z.to_nat (IndexAny t chars + 1))
        with (S (Z.to_nat (IndexAny t chars))) by lia.
      exact IH2.
Qed.

Lemma nth_from (s : gostring) (i d : Z) :
  0 <= i -> 0 <= d ->
  nth (Z.to_nat d) (from s i) zero = byteAt s (i + d).
Proof.
  intros Hi Hd. unfold from, byteAt.
  replace (Z.to_nat (i + d)) with (Z.to_nat i + Z.to_nat d)%nat by lia.
  generalize (Z.to_nat i) as n. generalize (Z.to_nat d) as m.
  intros m n. revert s. induction n as [|n IH]; intros s; [reflexivity|].
  destruct s as [|x s]; simpl.
  - destruct m; reflexivity.
  - apply IH.
Qed.

Lemma nth_In_len (t : gostring) (d : Z) :
  0 <= d < len t -> In (nth (Z.to_nat d) t zero) t.
Proof. unfold len. intros H. apply nth_In. lia. Qed.

Lemma skipn_cons_nth (n : nat) :
  forall s : gostring,
    (n < List.length s)%nat -> skipn n s = nth n s zero :: skipn (S n) s.
Proof.
  induction n as [|n IH]; intros s Hn.
  - destruct s; [simpl in Hn; lia|reflexivity].
  - destruct s as [|x s]; [simpl in Hn; lia|].
    simpl. apply IH. simpl in Hn. lia.
Qed.

Lemma from_cons_nth (s : gostring) (j : Z) :
  0 <= j < len s -> from s j = byteAt s j :: from s (j + 1).
Proof.
  unfold from, byteAt, len. intros H.
  replace (Z.to_nat (j + 1)) with (S (Z.to_nat j)) by lia.
  apply skipn_cons_nth. lia.
Qed.

(** The loop that counts slashes stops at the third one; it counts the
    slashes that no backslash escapes. *)
Lemma slashLoop_count (fuel : nat) :
  forall (s : gostring) (j count : Z),
    0 <= j -> 0 <= count <= 3 ->
    (Z.to_nat (len s - j) < fuel)%nat ->
    snd (slashLoop fuel s j count)
    = Z.min 3 (count + Z.of_nat (unescapedSlashes (from s j)))
    /\ j <= fst (slashLoop fuel s j count).
Proof.
  induction fuel as [|fuel IH]; intros s j count Hj Hc F; [lia|].
  cbn [slashLoop].
  destruct (j <? len s) eqn:Ej; btest; cbn [andb].
  2:{ rewrite from_end by lia. cbn [unescapedSlashes fst snd]. lia. }
  destruct (count <? 3) eqn:Ec; btest; cbn [fst snd].
  2:{ split; lia. }
  rewrite (from_cons_nth s j) by lia. cbn [unescapedSlashes].
  destruct (byte_eqb (byteAt s j) "\").
  - destruct (IH s (j + 1 + 1) count) as [E1 E2]; [lia|lia|lia|].
    split; [|lia]. rewrite E1.
    destruct (Z.ltb_spec (j + 1) (len s)) as [L|L].
    + rewrite (from_cons_nth s (j + 1)) by lia. reflexivity.
    + rewrite (from_end s (j + 1)) by lia.
      rewrite (from_end s (j + 1 + 1)) by lia. reflexivity.
  - destruct (byte_eqb (byteAt s j) "/").
    + destruct (IH s (j + 1) (count + 1)) as [E1 E2]; [lia|lia|lia|].
      split; [|lia]. rewrite E1. lia.
    + destruct (IH s (j + 1) count) as [E1 E2]; [lia|lia|lia|].
      split; [|lia]. exact E1.
Qed.

(* ================================================================== *)
(** ** Unterminated variable references *)

Lemma from_app_len (a b : gostring) : from (a ++ b) (len a) = b.
Proof.
  unfold from, len. rewrite Nat2Z.id, skipn_app, skipn_all, Nat.sub_diag.
  reflexivity.
Qed.

Section SubstituteFacts.

Variable regexpReplace : gostring -> gostring -> gostring -> gostring + error.

(** At a [${] that no closing brace follows, the loop body breaks out
    of the loop, unless the reference has the regexp form without its
    two slashes. *)
Lemma substituteAt_unterminated (s : gostring) (vars : VariableMap)
      (i start : Z) (out : gostring) :
  0 <= i ->
  ~ In "}"%char (from s (i + 2)) ->
  (0 <= IndexAny (from s (i + 2)) (bytes ":/}") ->
   byteAt s (i + 2 + IndexAny (from s (i + 2)) (bytes ":/}")) = "/"%char ->
   (2 <= unescapedSlashes
           (from s (i + 2 + IndexAny (from s (i + 2)) (bytes ":/}"))))%nat) ->
  substituteAt regexpReplace s vars i start out = Break.
Proof.
  intros Hi Hno Hsl. unfold substituteAt, switchAt. cbv zeta.
  set (d := IndexAny (from s (i + 2)) (bytes ":/}")) in *.
  destruct (d =? -1) eqn:Ed; [reflexivity|]. btest.
  destruct (IndexAny_spec (from s (i + 2)) (bytes ":/}")) as [X|[D1 D2]];
    [fold d in X; congruence|]. fold d in D1, D2.
  assert (Dc : In (byteAt s (i + 2 + d)) (from s (i + 2))).
  { rewrite <- nth_from by lia. apply nth_In_len. exact D1. }
  assert (Hlater : forall j, i + 2 <= j -> ~ In "}"%char (from s j)).
  { intros j Hj Hin. apply Hno. apply (In_from_mono s (i + 2) j); auto.
    lia. }
  destruct (byte_eqb (byteAt s (i + 2 + d)) ":") eqn:E1.
  { rewrite IndexByte_none; [reflexivity|]. apply Hlater. lia. }
  destruct (byte_eqb_spec (byteAt s (i + 2 + d)) "/") as [E2|E2].
  { specialize (Hsl (proj1 D1) E2).
    destruct (slashLoop_count (S (List.length s)) s (i + 2 + d) 1)
      as [C1 C2]; try lia.
    { pose proof (len_nonneg s). unfold len in *. lia. }
    destruct (slashLoop (S (List.length s)) s (i + 2 + d) 1) as [j count].
    cbn [fst snd] in *.
    assert (Hc3 : count = 3) by lia. rewrite Hc3.
    change (negb (3 =? 3)) with false. cbv iota.
    rewrite IndexByte_none; [reflexivity|]. apply Hlater. lia. }
  destruct (byte_eqb_spec (byteAt s (i + 2 + d)) "}") as [E3|E3];
    [|reflexivity].
  exfalso. apply Hno. rewrite <- E3. exact Dc.
Qed.

(** The loop walks over the text that holds no [${]. *)
Lemma substituteLoop_skip (s : gostring) (vars : VariableMap)
      (start : Z) (out : gostring) (k : nat) :
  forall (fuel : nat) (i : Z),
    0 <= i -> i + Z.of_nat k <= len s ->
    (forall j, i <= j < i + Z.of_nat k ->
               HasPrefix (from s j) (bytes "${") = false) ->
    substituteLoop regexpReplace (k + fuel) s vars i start out
    = substituteLoop regexpReplace fuel s vars (i + Z.of_nat k) start out.
Proof.
  induction k as [|k IH]; intros fuel i Hi Hk Hno.
  - cbn [Nat.add]. f_equal. lia.
  - cbn [Nat.add substituteLoop].
    replace (i <? len s) with true by (symmetry; apply Z.ltb_lt; lia).
    cbn [negb]. rewrite Hno by lia.
    rewrite IH; try lia.
    + f_equal. lia.
    + intros j Hj. apply Hno. lia.
Qed.

(** X13.  For every input whose first [${] is followed by no closing
    brace, [Substitute] returns the input as it is, provided that, when the
    first of [:] and [/] after the [${] is a slash (the regexp form),
    the text from that slash on holds two unescaped slashes. *)
Theorem unterminated_reference_kept (pre rest : gostring)
        (vars : VariableMap) :
  (forall j, 0 <= j < len pre ->
             HasPrefix (from (pre ++ bytes "${" ++ rest) j) (bytes "${")
             = false) ->
  ~ In "}"%char rest ->
  (0 <= IndexAny rest (bytes ":/}") ->
   byteAt rest (IndexAny rest (bytes ":/}")) = "/"%char ->
   (2 <= unescapedSlashes (from rest (IndexAny rest (bytes ":/}"))))%nat) ->
  Substitute regexpReplace (pre ++ bytes "${" ++ rest) vars
  = Some (Substituted (pre ++ bytes "${" ++ rest)).
Proof.
  intros Hpre Hno Hsl. unfold Substitute.
  set (s := pre ++ bytes "${" ++ rest) in *.
  assert (Ls : len s = len pre + 2 + len rest).
  { unfold s, len. rewrite !length_app. simpl. lia. }
  pose proof (len_nonneg pre) as Lp. pose proof (len_nonneg rest) as Lr.
  assert (Fr : from s (len pre + 2) = rest).
  { unfold s. rewrite app_assoc.
    replace (len pre + 2) with (len (pre ++ bytes "${"))
      by (unfold len; rewrite length_app; simpl; lia).
    apply from_app_len. }
  assert (Fp : from s (len pre) = bytes "${" ++ rest).
  { apply from_app_len. }
  replace (S (List.length s))
    with (List.length pre + S (S (S (List.length rest))))%nat
    by (unfold len in Ls; lia).
  rewrite substituteLoop_skip; try lia.
  2:{ fold (len pre). lia. }
  2:{ intros j Hj. apply Hpre. fold (len pre) in Hj. lia. }
  fold (len pre). replace (0 + len pre) with (len pre) by lia.
  cbn [substituteLoop].
  replace (len pre <? len s) with true by (symmetry; apply Z.ltb_lt; lia).
  cbn [negb]. rewrite Fp. change (HasPrefix (bytes "${" ++ rest) (bytes "${"))
    with true. cbv iota.
  rewrite substituteAt_unterminated.
  - unfold from. simpl. reflexivity.
  - lia.
  - rewrite Fr. exact Hno.
  - rewrite Fr. intros H0 Hb.
    rewrite <- (nth_from s (len pre + 2)) in Hb by lia.
    rewrite Fr in Hb.
    replace (len pre + 2 + IndexAny rest (bytes ":/}"))
      with ((len pre + 2) + IndexAny rest (bytes ":/}")) by lia.
    rewrite from_from by lia. rewrite Fr.
    apply Hsl; auto.
Qed.

End SubstituteFacts.

(** The theorem at the input [x ${variable/foo/bar]. *)
Lemma unterminated_reference_kept_witness :
  Substitute keepValue (bytes "x " ++ bytes "${" ++ bytes "variable/foo/bar")
             exampleVars
  = Some (Substituted (bytes "x " ++ bytes "${" ++ bytes "variable/foo/bar")).
Proof.
  apply (unterminated_reference_kept keepValue (bytes "x ")
           (bytes "variable/foo/bar") exampleVars).
  - intros j Hj. change (len (bytes "x ")) with 2 in Hj.
    assert (E : j = 0 \/ j = 1) by lia.
    destruct E as [-> | ->]; reflexivity.
  - simpl. intuition discriminate.
  - intros _ _. vm_compute. lia.
Defined.

(** C10 (failing inputs).  At the input [${variable/foo], which no
    closing brace ends, [Substitute] returns the malformed-regexp error,
    and at the input of the five bytes [$], [{], [v], [/], backslash it
    panics: in the regexp form the slashes are counted before the
    closing brace is looked for, and the slice taken for the message
    ends past the end of the input.  The unterminated references of the
    other forms, and of the regexp form with its two slashes, are copied
    as they are. *)
Theorem unterminated_regexp_reference_fails
        (regexpReplace : gostring -> gostring -> gostring -> gostring + error)
        (vars : VariableMap) :
  Substitute regexpReplace (bytes "${variable/foo") vars
  = Some (Failed (MalformedRegexpSubstitution (bytes "${variable/foo")))
  /\ Substitute regexpReplace (bytes "${v/\") vars = Some Panics
  /\ Substitute regexpReplace (bytes "${variable") vars
     = Some (Substituted (bytes "${variable"))
  /\ Substitute regexpReplace (bytes "${variable:-") vars
     = Some (Substituted (bytes "${variable:-"))
  /\ Substitute regexpReplace (bytes "${variable:foo") vars
     = Some (Substituted (bytes "${variable:foo"))
  /\ Substitute regexpReplace (bytes "${variable/foo/bar") vars
     = Some (Substituted (bytes "${variable/foo/bar")).
Proof. repeat split; reflexivity. Qed.

(** *** Termination of [Substitute] *)

Section SubstituteTotal.

Variable regexpReplace : gostring -> gostring -> gostring -> gostring + error.

(** The switch exits with a break or a return, or leaves a cursor and an
    offset that are no smaller than they were. *)
Lemma switchAt_forward (s : gostring) (subsStart i delim : Z) :
  0 <= i -> 0 <= delim ->
  match switchAt s subsStart i delim with
  | inl (Continue _ _ _) => False
  | inl _ => True
  | inr (i1, delim1, _) => i <= i1 /\ 0 <= delim1
  end.
Proof.
  intros Hi Hd. unfold switchAt. cbv zeta.
  destruct (byte_eqb (byteAt s (i + delim)) ":").
  { destruct (IndexByte_range (from s (i + (delim + 1))) "}") as [E|E].
    - rewrite E. exact I.
    - destruct (IndexByte (from s (i + (delim + 1))) "}" =? -1); [exact I|].
      lia. }
  destruct (byte_eqb (byteAt s (i + delim)) "/").
  { destruct (slashLoop_count (S (List.length s)) s (i + delim) 1)
      as [_ C2]; try lia.
    { pose proof (len_nonneg s). unfold len in *. lia. }
    destruct (slashLoop (S (List.length s)) s (i + delim) 1) as [j count].
    cbn [fst snd] in C2.
    destruct (negb (count =? 3)).
    - destruct (len s <? j); exact I.
    - destruct (IndexByte_range (from s j) "}") as [E|E].
      + rewrite E. exact I.
      + destruct (IndexByte (from s j) "}" =? -1); [exact I|]. lia. }
  destruct (byte_eqb (byteAt s (i + delim)) "}"); [lia|exact I].
Qed.

(** An iteration that goes on leaves the cursor further in the input. *)
Lemma substituteAt_forward (s : gostring) (vars : VariableMap)
      (i start : Z) (out : gostring) :
  0 <= i ->
  match substituteAt regexpReplace s vars i start out with
  | Continue i' _ _ => i < i'
  | _ => True
  end.
Proof.
  intros Hi. unfold substituteAt. cbv zeta.
  destruct (IndexAny_spec (from s (i + 2)) (bytes ":/}")) as [E|[E _]].
  { rewrite E. exact I. }
  destruct (IndexAny (from s (i + 2)) (bytes ":/}") =? -1); [exact I|].
  pose proof (switchAt_forward s i (i + 2)
                (IndexAny (from s (i + 2)) (bytes ":/}"))) as F.
  destruct (switchAt s i (i + 2) _) as [exit|[[i1 delim1] def]].
  - destruct exit; auto. exfalso. apply F; lia.
  - destruct F as [F1 F2]; try lia.
    destruct (negb _); [lia|].
    destruct (expand _ _ _ _ _ _ _ _); [exact I|]. lia.
Qed.

(** The loop of [Substitute] ends when it has more fuel than the input
    has bytes left. *)
Lemma substituteLoop_total (s : gostring) (vars : VariableMap) (fuel : nat) :
  forall (i start : Z) (out : gostring),
    0 <= i ->
    (Z.to_nat (len s - i) < fuel)%nat ->
    exists r, substituteLoop regexpReplace fuel s vars i start out = Some r.
Proof.
  induction fuel as [|fuel IH]; intros i start out Hi F; [lia|].
  cbn [substituteLoop].
  destruct (negb (i <? len s)) eqn:E; [eauto|]. btest.
  destruct (HasPrefix (from s i) (bytes "${")).
  - pose proof (substituteAt_forward s vars i start out Hi) as S.
    destruct (substituteAt regexpReplace s vars i start out); eauto.
    apply IH; lia.
  - apply IH; lia.
Qed.

(** [Substitute] returns, or panics, on every input. *)
Lemma Substitute_total (s : gostring) (vars : VariableMap) :
  exists r, Substitute regexpReplace s vars = Some r.
Proof.
  unfold Substitute. apply substituteLoop_total; [lia|].
  pose proof (len_nonneg s). unfold len in *. lia.
Qed.

End SubstituteTotal.

(* ================================================================== *)
(** ** Encoding what was decoded *)

Lemma ofZ_byteZ (c : ascii) : ofZ (byteZ c) = c.
Proof.
  unfold ofZ, byteZ. rewrite N2Z.id. apply ascii_N_embedding.
Qed.

(** The bounds of the second byte that exclude the surrogates and the
    values past [MaxRune]. *)
Lemma first_tight (s0 sz lo hi : Z) :
  first s0 = Some (Some (sz, lo, hi)) ->
  (s0 = 237 -> hi <= 159) /\ (s0 = 244 -> hi <= 143) /\ s0 <= 244.
Proof.
  unfold first.
  repeat match goal with
  | |- context [if ?b then _ else _] =>
      let E := fresh "E" in destruct b eqn:E
  end; intros H; inversion H; subst; btest; lia.
Qed.

(** A rune read from a valid encoding is written back as the bytes it
    was read from. *)
Lemma Encode_Decode (s : gostring) (r w : Z) :
  DecodeRuneInString s = (r, w) -> w <> 0 ->
  (r = RuneError -> w <> 1) ->
  EncodeRune r = firstn (Z.to_nat w) s.
Proof.
  intros D Hw Hv.
  destruct s as [|c0 t]; [inversion D; lia|].
  unfold DecodeRuneInString in D. cbv zeta in D.
  pose proof (byteZ_range c0) as R0.
  destruct (first_cases _ R0)
    as [[F ?]|[[F ?]|[(lo&hi&F&?&?&?)
                     |[(lo&hi&F&?&?&?&?)|(lo&hi&F&?&?&?&?)]]]];
    rewrite F in D; cbv beta iota zeta in D.
  - inversion D; subst. unfold EncodeRune.
    replace ((0 <=? byteZ c0) && (byteZ c0 <=? 127)) with true
      by (symmetry; apply andb_true_iff; split; apply Z.leb_le; lia).
    simpl. now rewrite ofZ_byteZ.
  - inversion D; subst. exfalso. now apply Hv.
  - destruct t as [|c1 t1]; [inversion D; subst; exfalso; now apply Hv|].
    pose proof (byteZ_range c1) as R1.
    destruct ((byteZ c1 <? lo) || (hi <? byteZ c1)) eqn:E1;
      [inversion D; subst; exfalso; now apply Hv|].
    change (2 <=? 2) with true in D. cbv iota in D.
    inversion D as [[Hr Hw2]]. btest.
    set (r0 := byteZ c0 mod 32 * 64 + byteZ c1 mod 64).
    assert (B : 128 <= r0 <= 2047 /\ r0 / 64 = byteZ c0 - 192
                /\ r0 mod 64 = byteZ c1 - 128).
    { unfold r0. Z.to_euclidean_division_equations. lia. }
    destruct B as (B1 & B2 & B3).
    unfold EncodeRune.
    replace ((0 <=? r0) && (r0 <=? 127)) with false
      by (symmetry; apply andb_false_iff; right; apply Z.leb_gt; lia).
    replace ((0 <=? r0) && (r0 <=? 2047)) with true
      by (symmetry; apply andb_true_iff; split; apply Z.leb_le; lia).
    rewrite B2, B3.
    replace (192 + (byteZ c0 - 192)) with (byteZ c0) by lia.
    replace (128 + (byteZ c1 - 128)) with (byteZ c1) by lia.
    now rewrite !ofZ_byteZ.
  - destruct (first_tight _ _ _ _ F) as (T1 & T2 & T3).
    destruct t as [|c1 t1]; [inversion D; subst; exfalso; now apply Hv|].
    pose proof (byteZ_range c1) as R1.
    destruct ((byteZ c1 <? lo) || (hi <? byteZ c1)) eqn:E1;
      [inversion D; subst; exfalso; now apply Hv|].
    change (3 <=? 2) with false in D. cbv iota in D.
    destruct t1 as [|c2 t2]; [inversion D; subst; exfalso; now apply Hv|].
    pose proof (byteZ_range c2) as R2.
    destruct (negb (cont (byteZ c2))) eqn:E2;
      [inversion D; subst; exfalso; now apply Hv|].
    change (3 <=? 3) with true in D. cbv iota in D.
    inversion D as [[Hr Hw2]]. btest. apply cont_range in E2.
    set (r0 := byteZ c0 mod 16 * 4096 + byteZ c1 mod 64 * 64
               + byteZ c2 mod 64).
    assert (B : 2048 <= r0 <= 65535 /\ ~ (55296 <= r0 <= 57343)
                /\ r0 / 4096 = byteZ c0 - 224
                /\ (r0 / 64) mod 64 = byteZ c1 - 128
                /\ r0 mod 64 = byteZ c2 - 128).
    { unfold r0. Z.to_euclidean_division_equations. lia. }
    destruct B as (B1 & B0 & B2 & B3 & B4).
    unfold EncodeRune, MaxRune.
    replace ((0 <=? r0) && (r0 <=? 127)) with false
      by (symmetry; apply andb_false_iff; right; apply Z.leb_gt; lia).
    replace ((0 <=? r0) && (r0 <=? 2047)) with false
      by (symmetry; apply andb_false_iff; right; apply Z.leb_gt; lia).
    replace ((r0 <? 0) || (1114111 <? r0)
             || (55296 <=? r0) && (r0 <=? 57343)) with false.
    2:{ symmetry. apply orb_false_iff. split.
        - apply orb_false_iff. split; apply Z.ltb_ge; lia.
        - apply andb_false_iff.
          destruct (Z.leb_spec 55296 r0); [right|left; reflexivity].
          apply Z.leb_gt. lia. }
    replace (r0 <=? 65535) with true by (symmetry; apply Z.leb_le; lia).
    rewrite B2, B3, B4.
    replace (224 + (byteZ c0 - 224)) with (byteZ c0) by lia.
    replace (128 + (byteZ c1 - 128)) with (byteZ c1) by lia.
    replace (128 + (byteZ c2 - 128)) with (byteZ c2) by lia.
    now rewrite !ofZ_byteZ.
  - destruct (first_tight _ _ _ _ F) as (T1 & T2 & T3).
    destruct t as [|c1 t1]; [inversion D; subst; exfalso; now apply Hv|].
    pose proof (byteZ_range c1) as R1.
    destruct ((byteZ c1 <? lo) || (hi <? byteZ c1)) eqn:E1;
      [inversion D; subst; exfalso; now apply Hv|].
    change (4 <=? 2) with false in D. cbv iota in D.
    destruct t1 as [|c2 t2]; [inversion D; subst; exfalso; now apply Hv|].
    pose proof (byteZ_range c2) as R2.
    destruct (negb (cont (byteZ c2))) eqn:E2;
      [inversion D; subst; exfalso; now apply Hv|].
    change (4 <=? 3) with false in D. cbv iota in D.
    destruct t2 as [|c3 t3]; [inversion D; subst; exfalso; now apply Hv|].
    pose proof (byteZ_range c3) as R3.
    destruct (negb (cont (byteZ c3))) eqn:E3;
      [inversion D; subst; exfalso; now apply Hv|].
    inversion D as [[Hr Hw2]]. btest. apply cont_range in E2, E3.
    set (r0 := byteZ c0 mod 8 * 262144 + byteZ c1 mod 64 * 4096
               + byteZ c2 mod 64 * 64 + byteZ c3 mod 64).
    assert (B : 65536 <= r0 <= 1114111
                /\ r0 / 262144 = byteZ c0 - 240
                /\ (r0 / 4096) mod 64 = byteZ c1 - 128
                /\ (r0 / 64) mod 64 = byteZ c2 - 128
                /\ r0 mod 64 = byteZ c3 - 128).
    { unfold r0. Z.to_euclidean_division_equations. lia. }
    destruct B as (B1 & B2 & B3 & B4 & B5).
    unfold EncodeRune, MaxRune.
    replace ((0 <=? r0) && (r0 <=? 127)) with false
      by (symmetry; apply andb_false_iff; right; apply Z.leb_gt; lia).
    replace ((0 <=? r0) && (r0 <=? 2047)) with false
      by (symmetry; apply andb_false_iff; right; apply Z.leb_gt; lia).
    replace ((r0 <? 0) || (1114111 <? r0)
             || (55296 <=? r0) && (r0 <=? 57343)) with false.
    2:{ symmetry. apply orb_false_iff. split.
        - apply orb_false_iff. split; apply Z.ltb_ge; lia.
        - apply andb_false_iff. right. apply Z.leb_gt. lia. }
    replace (r0 <=? 65535) with false by (symmetry; apply Z.leb_gt; lia).
    rewrite B2, B3, B4, B5.
    replace (240 + (byteZ c0 - 240)) with (byteZ c0) by lia.
    replace (128 + (byteZ c1 - 128)) with (byteZ c1) by lia.
    replace (128 + (byteZ c2 - 128)) with (byteZ c2) by lia.
    replace (128 + (byteZ c3 - 128)) with (byteZ c3) by lia.
    now rewrite !ofZ_byteZ.
Qed.

(* ================================================================== *)
(** ** Quote: the builder *)

(** The loops of [Quote] only append to the builder. *)
Lemma escapeWord_app (rs : list (Z * rune)) :
  forall b, escapeWord rs b = b ++ escapeWord rs [].
Proof.
  induction rs as [|[i ch] rs IH]; intros b; cbn [escapeWord].
  - now rewrite app_nil_r.
  - rewrite IH. rewrite (IH (_ ++ EncodeRune ch)).
    destruct (needsQuote i ch); cbn [app]; now rewrite <- ?app_assoc.
Qed.

Lemma quoteArg_app (b arg : gostring) : quoteArg b arg = b ++ quoteArg [] arg.
Proof.
  unfold quoteArg.
  destruct (scanWord (rangeString arg) false) as [saw need].
  destruct saw; [apply escapeWord_app|].
  destruct need; cbn [app]; now rewrite <- ?app_assoc.
Qed.

Lemma quoteLoop_false (argv : list gostring) :
  forall b,
    quoteLoop argv false b
    = b ++ flat_map (fun a => " "%char :: quoteArg [] a) argv.
Proof.
  induction argv as [|a argv IH]; intros b; cbn [quoteLoop flat_map].
  - now rewrite app_nil_r.
  - rewrite IH, quoteArg_app. rewrite <- !app_assoc. reflexivity.
Qed.

Lemma Quote_cons (a : gostring) (argv : list gostring) :
  Quote (a :: argv)
  = quoteArg [] a ++ flat_map (fun a => " "%char :: quoteArg [] a) argv.
Proof.
  unfold Quote. cbn [quoteLoop]. apply quoteLoop_false.
Qed.

(* ================================================================== *)
(** ** Quote: the runes of a word and its bytes *)

Lemma needsQuote_small (i : Z) (ch : rune) :
  needsQuote i ch = true -> 0 <= ch < 128.
Proof.
  unfold needsQuote, doubleQuote. intros H.
  destruct ((i =? 0) && (ch =? rn "~")) eqn:E.
  - btest. subst ch. vm_compute. split; congruence.
  - repeat (apply orb_prop in H; destruct H as [H|H]);
      apply Z.eqb_eq in H; subst ch; vm_compute; split; congruence.
Qed.

(** A rune that needs no quoting is none of the three characters a
    shell reads as syntax. *)
Lemma needsQuote_reader (i : Z) (ch : rune) :
  needsQuote i ch = false ->
  ch <> rn " " /\ ch <> rn "'" /\ ch <> rn "\".
Proof.
  unfold needsQuote. intros H.
  destruct ((i =? 0) && (ch =? rn "~")); [discriminate|].
  btest. auto.
Qed.

Lemma needsQuote_apostrophe (i : Z) : needsQuote i (rn "'") = true.
Proof.
  unfold needsQuote. destruct ((i =? 0) && (rn "'" =? rn "~")); reflexivity.
Qed.

Lemma nth_error_from (s : gostring) (w j : nat) :
  nth_error (from s (Z.of_nat w)) j = nth_error s (w + j).
Proof.
  unfold from. rewrite Nat2Z.id. revert s.
  induction w as [|w IH]; intros s; [reflexivity|].
  destruct s as [|c t]; cbn [skipn Nat.add nth_error].
  - now destruct j.
  - apply IH.
Qed.

(** Every byte below [RuneSelf] is a rune of the loop, at its offset. *)
Lemma rangeFrom_ascii_in (fuel : nat) :
  forall (i0 : Z) (s : gostring) (j : nat) (c : ascii),
    (List.length s <= fuel)%nat ->
    nth_error s j = Some c -> byteZ c < 128 ->
    In (i0 + Z.of_nat j, byteZ c) (rangeFrom fuel i0 s).
Proof.
  induction fuel as [|fuel IH]; intros i0 s j c F N Hc.
  - destruct s; [now destruct j | simpl in F; lia].
  - destruct s as [|c0 t] eqn:Es; [now destruct j|]. rewrite <- Es in *.
    assert (Hne : s <> []) by (rewrite Es; discriminate).
    cbn [rangeFrom]. rewrite Es at 1.
    pose proof (Decode_width s) as [W1 W2]. specialize (W2 Hne).
    destruct (DecodeRuneInString s) as [r w] eqn:D. cbn [snd] in W1, W2.
    destruct (Decode_bytes s r w D ltac:(lia)) as [(Hr & Hw & c' & t' & E & B)
                                                  |(Hr & Hw & Hh)].
    + subst w. destruct j as [|j].
      * left. rewrite E in N. cbn in N. inversion N; subst c'.
        rewrite B. f_equal. lia.
      * right.
        replace (i0 + Z.of_nat (S j)) with (i0 + 1 + Z.of_nat j) by lia.
        apply IH; auto.
        -- unfold from. rewrite length_skipn. rewrite Es in F |- *.
           simpl in *. lia.
        -- change 1 with (Z.of_nat 1). rewrite nth_error_from. exact N.
    + destruct (Nat.lt_ge_cases j (Z.to_nat w)) as [L|L].
      * exfalso. rewrite Forall_forall in Hh.
        assert (Hin : In c (firstn (Z.to_nat w) s)).
        { apply nth_error_In with j. rewrite nth_error_firstn.
          apply Nat.ltb_lt in L. now rewrite L. }
        specialize (Hh c Hin). unfold high in Hh. lia.
      * right.
        replace (i0 + Z.of_nat j)
          with (i0 + w + Z.of_nat (j - Z.to_nat w)) by lia.
        apply IH; auto.
        -- unfold from. rewrite length_skipn. unfold len in W1. lia.
        -- replace w with (Z.of_nat (Z.to_nat w)) at 1 by lia.
           rewrite nth_error_from. rewrite <- N. f_equal. lia.
Qed.

(** A rune below [RuneSelf] that the loop yields is a byte of the word,
    at the offset the loop gives. *)
Lemma rangeFrom_small_byte (fuel : nat) :
  forall (i0 : Z) (s : gostring) (i : Z) (ch : rune),
    In (i, ch) (rangeFrom fuel i0 s) -> ch < 128 ->
    exists (j : nat) (c : ascii),
      i = i0 + Z.of_nat j /\ nth_error s j = Some c /\ byteZ c = ch.
Proof.
  induction fuel as [|fuel IH]; intros i0 s i ch Hin Hc; [destruct Hin|].
  cbn [rangeFrom] in Hin.
  destruct s as [|c0 t] eqn:Es; [destruct Hin|]. rewrite <- Es in *.
  assert (Hne : s <> []) by (rewrite Es; discriminate).
  pose proof (Decode_width s) as [W1 W2]. specialize (W2 Hne).
  destruct (DecodeRuneInString s) as [r w] eqn:D. cbn [snd] in W1, W2.
  destruct Hin as [Hin|Hin].
  - inversion Hin; subst i r.
    destruct (Decode_small s ch w D ltac:(lia) Hc) as (c & t' & E & B & Hw).
    exists O, c. rewrite E. cbn. repeat split; auto. lia.
  - destruct (IH _ _ _ _ Hin Hc) as (j & c & Hi & N & B).
    exists (Z.to_nat w + j)%nat, c. split; [lia|]. split; [|exact B].
    rewrite <- nth_error_from. replace (Z.of_nat (Z.to_nat w)) with w by lia.
    exact N.
Qed.

(** What the first loop over a word leaves in its two flags. *)
Lemma scanWord_saw (rs : list (Z * rune)) :
  forall nq, fst (scanWord rs nq) = existsb (fun x => snd x =? rn "'") rs.
Proof.
  induction rs as [|[i ch] rs IH]; intros nq; cbn [scanWord existsb snd];
    [reflexivity|].
  destruct (ch =? rn "'"); [reflexivity|]. cbn [orb]. apply IH.
Qed.

Lemma scanWord_need (rs : list (Z * rune)) :
  forall nq,
    fst (scanWord rs nq) = false ->
    snd (scanWord rs nq)
    = nq || existsb (fun x => needsQuote (fst x) (snd x)) rs.
Proof.
  induction rs as [|[i ch] rs IH]; intros nq; cbn [scanWord existsb fst snd].
  - now rewrite orb_false_r.
  - destruct (ch =? rn "'"); [discriminate|]. intros H.
    rewrite IH by exact H.
    destruct (needsQuote i ch), nq; reflexivity.
Qed.

(** The first loop sees an apostrophe exactly when the word holds the
    byte. *)
Lemma saw_apostrophe (w : gostring) :
  fst (scanWord (rangeString w) false) = true <-> In "'"%char w.
Proof.
  rewrite scanWord_saw, existsb_exists. split.
  - intros [[i ch] [Hin E]]. cbn [snd] in E. btest. subst ch.
    destruct (rangeFrom_small_byte _ _ _ _ _ Hin) as (j & c & _ & N & B).
    { vm_compute. reflexivity. }
    apply byteZ_inj in B. subst c. eapply nth_error_In; eauto.
  - intros Hin. destruct (In_nth_error _ _ Hin) as [j N].
    exists (0 + Z.of_nat j, byteZ "'"%char). split.
    + apply rangeFrom_ascii_in; auto. vm_compute. reflexivity.
    + cbn [snd]. apply Z.eqb_refl.
Qed.

(** The second flag, for a word without apostrophe: whether some byte of
    the word needs quoting where it stands. *)
Lemma need_quoting (w : gostring) :
  ~ In "'"%char w ->
  (snd (scanWord (rangeString w) false) = true
   <-> exists (j : nat) (c : ascii),
         nth_error w j = Some c
         /\ needsQuote (Z.of_nat j) (byteZ c) = true).
Proof.
  intros Hno.
  assert (S0 : fst (scanWord (rangeString w) false) = false).
  { destruct (fst (scanWord (rangeString w) false)) eqn:E; [|reflexivity].
    exfalso. apply Hno. now apply saw_apostrophe. }
  rewrite scanWord_need by exact S0. cbn [orb]. rewrite existsb_exists.
  split.
  - intros [[i ch] [Hin E]]. cbn [fst snd] in E.
    pose proof (needsQuote_small _ _ E) as Hs.
    destruct (rangeFrom_small_byte _ _ _ _ _ Hin ltac:(lia))
      as (j & c & Hi & N & B).
    exists j, c. split; [exact N|]. rewrite B.
    replace (Z.of_nat j) with i by lia. exact E.
  - intros (j & c & N & E).
    pose proof (needsQuote_small _ _ E) as Hs.
    exists (0 + Z.of_nat j, byteZ c). split.
    + apply rangeFrom_ascii_in; auto. lia.
    + cbn [fst snd]. replace (0 + Z.of_nat j) with (Z.of_nat j) by lia.
      exact E.
Qed.

(** X3.  The command line of two lists of words, neither of them
    empty, is the command lines of the two with a space between. *)
Theorem quote_of_appended (argv1 argv2 : list gostring) :
  argv1 <> [] -> argv2 <> [] ->
  Quote (argv1 ++ argv2) = Quote argv1 ++ bytes " " ++ Quote argv2.
Proof.
  intros H1 H2.
  destruct argv1 as [|a argv1]; [congruence|].
  destruct argv2 as [|b argv2]; [congruence|].
  cbn [app]. rewrite !Quote_cons, flat_map_app. cbn [flat_map].
  rewrite <- !app_assoc. reflexivity.
Qed.

(** The theorem at [rm] and [abc def], [hij]. *)
Lemma quote_of_appended_witness :
  Quote ([bytes "rm"] ++ [bytes "abc def"; bytes "hij"])
  = Quote [bytes "rm"] ++ bytes " " ++ Quote [bytes "abc def"; bytes "hij"].
Proof.
  apply (quote_of_appended [bytes "rm"] [bytes "abc def"; bytes "hij"]);
    discriminate.
Defined.

(** X1.  A word no byte of which needs quoting where it stands is
    written as it is. *)
Theorem quote_plain_word (w : gostring) :
  (forall (j : nat) (c : ascii),
      nth_error w j = Some c -> needsQuote (Z.of_nat j) (byteZ c) = false) ->
  Quote [w] = w.
Proof.
  intros Hp.
  assert (Hno : ~ In "'"%char w).
  { intros Hin. destruct (In_nth_error _ _ Hin) as [j N].
    specialize (Hp j _ N). change (byteZ "'") with (rn "'") in Hp.
    rewrite needsQuote_apostrophe in Hp. discriminate. }
  rewrite Quote_cons. cbn [flat_map]. rewrite app_nil_r.
  unfold quoteArg.
  destruct (scanWord (rangeString w) false) as [saw need] eqn:E.
  assert (S0 : saw = false).
  { destruct saw; [|reflexivity]. exfalso. apply Hno.
    apply saw_apostrophe. now rewrite E. }
  assert (N0 : need = false).
  { destruct need; [|reflexivity]. exfalso.
    destruct (proj1 (need_quoting w Hno)) as (j & c & N & Q).
    - now rewrite E.
    - rewrite (Hp j c N) in Q. discriminate. }
  subst. reflexivity.
Qed.

(** The theorem at the word [c~], whose tilde is not its first byte. *)
Lemma quote_plain_word_witness : Quote [bytes "c~"] = bytes "c~".
Proof.
  apply (quote_plain_word (bytes "c~")).
  intros j c N.
  destruct j as [|[|j]]; cbn in N; inversion N; subst; try reflexivity.
  destruct j; discriminate.
Defined.

(** X2.  A word that holds no apostrophe and a byte of which needs
    quoting where it stands is written between two apostrophes. *)
Theorem quote_between_apostrophes (w : gostring) :
  ~ In "'"%char w ->
  (exists (j : nat) (c : ascii),
      nth_error w j = Some c /\ needsQuote (Z.of_nat j) (byteZ c) = true) ->
  Quote [w] = bytes "'" ++ w ++ bytes "'".
Proof.
  intros Hno Hq.
  rewrite Quote_cons. cbn [flat_map]. rewrite app_nil_r.
  unfold quoteArg.
  destruct (scanWord (rangeString w) false) as [saw need] eqn:E.
  assert (S0 : saw = false).
  { destruct saw; [|reflexivity]. exfalso. apply Hno.
    apply saw_apostrophe. now rewrite E. }
  assert (N0 : need = true).
  { apply (need_quoting w Hno) in Hq. now rewrite E in Hq. }
  subst. reflexivity.
Qed.

(** The theorem at the word [~b], whose tilde is its first byte. *)
Lemma quote_between_apostrophes_witness :
  Quote [bytes "~b"] = bytes "'" ++ bytes "~b" ++ bytes "'".
Proof.
  apply (quote_between_apostrophes (bytes "~b")).
  - simpl. intuition discriminate.
  - exists O, "~"%char. split; reflexivity.
Defined.

(* ================================================================== *)
(** ** Quote: reading the command line back *)

Lemma pushed_app (cur : option gostring) (a b : gostring) :
  pushed (pushed cur a) b = pushed cur (a ++ b).
Proof.
  destruct a as [|x a]; [reflexivity|].
  destruct b as [|y b]; cbn [pushed app wordOf].
  - now rewrite app_nil_r.
  - now rewrite <- app_assoc.
Qed.

Lemma readerPlain_test (c : ascii) :
  readerPlain c ->
  byte_eqb c " " = false /\ byte_eqb c "'" = false /\ byte_eqb c "\" = false.
Proof.
  intros (H1 & H2 & H3).
  repeat split;
    match goal with
    | |- byte_eqb c ?k = false =>
        destruct (byte_eqb_spec c k) as [E|E]; [congruence|reflexivity]
    end.
Qed.

Lemma high_readerPlain (c : ascii) : high c -> readerPlain c.
Proof.
  unfold high, readerPlain. intros H.
  repeat split; intros E; subst c; vm_compute in H; congruence.
Qed.

Lemma small_readerPlain (i : Z) (c : ascii) :
  needsQuote i (byteZ c) = false -> readerPlain c.
Proof.
  intros H. destruct (needsQuote_reader _ _ H) as (H1 & H2 & H3).
  repeat split; intros E; subst c; [apply H1|apply H2|apply H3]; reflexivity.
Qed.

(** Bytes that are no syntax are read as bytes of the word. *)
Lemma read_plain_bytes (t : gostring) :
  forall (cur : option gostring) (rest : gostring),
    Forall readerPlain t ->
    readWords Plain cur (t ++ rest) = readWords Plain (pushed cur t) rest.
Proof.
  induction t as [|c t IH]; intros cur rest H; [reflexivity|].
  inversion H as [|? ? Hc Ht]; subst.
  destruct (readerPlain_test c Hc) as (E1 & E2 & E3).
  cbn [app readWords]. rewrite E1, E2, E3.
  rewrite IH by exact Ht.
  change (Some (wordOf cur ++ [c])) with (pushed cur [c]).
  rewrite pushed_app. reflexivity.
Qed.

(** The bytes up to the closing apostrophe are read as bytes of the
    word. *)
Lemma read_quoted (t : gostring) :
  forall (w0 rest : gostring),
    ~ In "'"%char t ->
    readWords InApostrophes (Some w0) (t ++ "'"%char :: rest)
    = readWords Plain (Some (w0 ++ t)) rest.
Proof.
  induction t as [|c t IH]; intros w0 rest H.
  - cbn [app readWords]. change (byte_eqb "'" "'") with true. cbv iota.
    now rewrite app_nil_r.
  - cbn [app readWords].
    destruct (byte_eqb_spec c "'") as [E|E].
    + exfalso. apply H. left. exact E.
    + cbn [wordOf]. rewrite IH.
      * now rewrite <- app_assoc.
      * intros Hin. apply H. right. exact Hin.
Qed.

(** A word of valid UTF-8 written with backslashes is read back as the
    word. *)
Lemma read_escaped (fuel : nat) :
  forall (i : Z) (s : gostring) (cur : option gostring) (rest : gostring),
    (List.length s <= fuel)%nat ->
    validFrom fuel s = true ->
    readWords Plain cur (escapeWord (rangeFrom fuel i s) [] ++ rest)
    = readWords Plain (pushed cur s) rest.
Proof.
  induction fuel as [|fuel IH]; intros i s cur rest F V.
  - destruct s; [reflexivity | simpl in F; lia].
  - destruct s as [|c0 t] eqn:Es; [reflexivity|]. rewrite <- Es in *.
    assert (Hne : s <> []) by (rewrite Es; discriminate).
    cbn [rangeFrom validFrom] in *. rewrite Es in V at 1. rewrite Es at 1.
    pose proof (Decode_width s) as [W1 W2]. specialize (W2 Hne).
    destruct (DecodeRuneInString s) as [r w] eqn:D. cbn [snd] in W1, W2.
    destruct ((r =? RuneError) && (w =? 1)) eqn:EV; [discriminate|].
    assert (Enc : EncodeRune r = firstn (Z.to_nat w) s).
    { apply Encode_Decode; auto; [lia|]. intros -> ->. discriminate. }
    assert (Fl : (List.length (from s w) <= fuel)%nat).
    { unfold from. rewrite length_skipn. unfold len in W1. lia. }
    assert (Sp : s = firstn (Z.to_nat w) s ++ from s w).
    { unfold from. now rewrite firstn_skipn. }
    cbn [escapeWord]. rewrite escapeWord_app, Enc. rewrite <- app_assoc.
    destruct (needsQuote i r) eqn:Q.
    + pose proof (needsQuote_small _ _ Q) as Hs.
      destruct (Decode_small s r w D ltac:(lia) ltac:(lia))
        as (c & t' & E & B & Hw).
      subst w.
      assert (F1 : firstn (Z.to_nat 1) s = [c]) by (rewrite E; reflexivity).
      rewrite F1. cbn [app readWords].
      change (byte_eqb "\" " ") with false.
      change (byte_eqb "\" "'") with false.
      change (byte_eqb "\" "\") with true. cbv iota.
      rewrite IH by auto. cbn [wordOf].
      change (Some (wordOf cur ++ [c])) with (pushed cur [c]).
      rewrite pushed_app. do 2 f_equal.
      rewrite Sp at 2. rewrite F1. reflexivity.
    + cbn [app].
      assert (Pl : Forall readerPlain (firstn (Z.to_nat w) s)).
      { destruct (Decode_bytes s r w D ltac:(lia))
          as [(Hr & Hw & c & t' & E & B)|(Hr & Hw & Hh)].
        - subst w. rewrite E. cbn. constructor; [|constructor].
          apply (small_readerPlain i). now rewrite B.
        - eapply Forall_impl; [|exact Hh]. apply high_readerPlain. }
      rewrite read_plain_bytes by exact Pl.
      rewrite IH by auto. rewrite pushed_app. rewrite <- Sp. reflexivity.
Qed.

(** The bytes of a word that holds no apostrophe and needs no quoting
    are no syntax for the reader. *)
Lemma plain_word_bytes (w : gostring) :
  scanWord (rangeString w) false = (false, false) ->
  Forall readerPlain w.
Proof.
  intros E. apply Forall_forall. intros c Hin.
  destruct (Z.ltb_spec (byteZ c) 128) as [L|L];
    [|apply high_readerPlain; exact L].
  destruct (In_nth_error _ _ Hin) as [j N].
  assert (Hno : ~ In "'"%char w).
  { intros H. apply saw_apostrophe in H. rewrite E in H. discriminate. }
  apply (small_readerPlain (Z.of_nat j)).
  destruct (needsQuote (Z.of_nat j) (byteZ c)) eqn:Q; [|reflexivity].
  exfalso.
  assert (X : snd (scanWord (rangeString w) false) = true).
  { apply (need_quoting w Hno). exists j, c. auto. }
  rewrite E in X. discriminate.
Qed.

(** What [Quote] writes for a word is read back as the word. *)
Lemma quoteArg_read (w : gostring) (cur : option gostring) (rest : gostring) :
  (In "'"%char w -> ValidString w = true) ->
  readWords Plain cur (quoteArg [] w ++ rest)
  = readWords Plain (pushed cur w) rest.
Proof.
  intros Hv. unfold quoteArg.
  destruct (scanWord (rangeString w) false) as [saw need] eqn:E.
  destruct saw.
  - apply read_escaped; [lia|]. apply Hv. apply saw_apostrophe.
    now rewrite E.
  - assert (Hno : ~ In "'"%char w).
    { intros H. apply saw_apostrophe in H. rewrite E in H. discriminate. }
    destruct need.
    + cbn [app]. rewrite <- app_assoc. cbn [app readWords].
      change (byte_eqb "'" " ") with false.
      change (byte_eqb "'" "'") with true. cbv iota.
      rewrite read_quoted by exact Hno.
      destruct w as [|c t]; [|reflexivity].
      discriminate E.
    + cbn [app]. apply read_plain_bytes. apply plain_word_bytes. exact E.
Qed.

Lemma read_more_words (argv : list gostring) :
  forall cur : option gostring,
    (forall w, In w argv -> In "'"%char w -> ValidString w = true) ->
    readWords Plain cur
              (flat_map (fun a => " "%char :: quoteArg [] a) argv)
    = match cur with
      | Some w => [w]
      | None => []
      end ++ filter nonEmpty argv.
Proof.
  induction argv as [|a argv IH]; intros cur Hv.
  - cbn. destruct cur; reflexivity.
  - cbn [flat_map app readWords]. change (byte_eqb " " " ") with true.
    cbv iota.
    assert (R : readWords Plain None
                  (quoteArg [] a ++
                   flat_map (fun a => " "%char :: quoteArg [] a) argv)
                = filter nonEmpty (a :: argv)).
    { rewrite quoteArg_read by (apply Hv; left; reflexivity).
      rewrite IH by (intros w Hw; apply Hv; right; exact Hw).
      destruct a; reflexivity. }
    destruct cur; rewrite R; reflexivity.
Qed.

(** X4.  Read back as a shell reads it, the command line gives the
    words it was written from, the empty ones left out, when every word
    that holds an apostrophe is valid UTF-8. *)
Theorem quote_read_back (argv : list gostring) :
  (forall w, In w argv -> In "'"%char w -> ValidString w = true) ->
  shellWords (Quote argv) = filter nonEmpty argv.
Proof.
  intros Hv. destruct argv as [|a argv]; [reflexivity|].
  rewrite Quote_cons. unfold shellWords.
  rewrite quoteArg_read by (apply Hv; left; reflexivity).
  rewrite read_more_words by (intros w Hw; apply Hv; right; exact Hw).
  destruct a; reflexivity.
Qed.

(** The theorem at the words [he l'lo], the empty word and [wo rld]. *)
Lemma quote_read_back_witness :
  shellWords (Quote [bytes "he l'lo"; []; bytes "wo rld"])
  = filter nonEmpty [bytes "he l'lo"; []; bytes "wo rld"].
Proof.
  apply (quote_read_back [bytes "he l'lo"; []; bytes "wo rld"]).
  intros w [<-|[<-|[<-|[]]]] _; reflexivity.
Defined.

(* ================================================================== *)
(** ** Substitute: texts around one reference *)

Lemma refFree_spec (t : gostring) :
  refFree t = true ->
  forall j, HasPrefix (from t j) (bytes "${") = false.
Proof.
  induction t as [|c t IH]; intros H j.
  - unfold from. now rewrite skipn_nil.
  - cbn [refFree] in H. apply andb_prop in H. destruct H as [H1 H2].
    unfold from. destruct (Z.to_nat j) as [|n] eqn:E; cbn [skipn].
    + now apply negb_true_iff in H1.
    + specialize (IH H2 (Z.of_nat n)). unfold from in IH.
      now rewrite Nat2Z.id in IH.
Qed.

(** A text that holds no [${] holds none when a dollar sign follows
    it. *)
Lemma refFree_before (pre rest : gostring) :
  refFree pre = true ->
  forall j, 0 <= j < len pre ->
            HasPrefix (from (pre ++ "$"%char :: rest) j) (bytes "${") = false.
Proof.
  induction pre as [|c pre IH]; intros H j Hj.
  - unfold len in Hj. simpl in Hj. lia.
  - cbn [refFree] in H. apply andb_prop in H. destruct H as [H1 H2].
    apply negb_true_iff in H1.
    destruct (Z.eq_dec j 0) as [->|Hne].
    + unfold from. cbn [Z.to_nat skipn app].
      cbn [HasPrefix bytes list_ascii_of_string] in H1 |- *.
      destruct (byte_eqb "$" c); [|reflexivity]. cbn [andb] in *.
      destruct pre as [|y pre]; [reflexivity|]. exact H1.
    + rewrite len_cons in Hj.
      replace j with ((j - 1) + 1) by lia. cbn [app].
      rewrite from_cons by lia. apply IH; [exact H2 | lia].
Qed.

Lemma IndexAny_none_inv (x : ascii) (a chars : gostring) :
  IndexAny (x :: a) chars = -1 ->
  existsb (byte_eqb x) chars = false /\ IndexAny a chars = -1.
Proof.
  cbn [IndexAny]. destruct (existsb (byte_eqb x) chars); [discriminate|].
  destruct (IndexAny_spec a chars) as [E|[E _]]; [auto|].
  destruct (IndexAny a chars <? 0) eqn:L; btest; intros; lia.
Qed.

Lemma IndexAny_app (a chars : gostring) (c : ascii) (rest : gostring) :
  IndexAny a chars = -1 -> existsb (byte_eqb c) chars = true ->
  IndexAny (a ++ c :: rest) chars = len a.
Proof.
  intros Ha Hc. induction a as [|x a IH].
  - cbn [app IndexAny]. now rewrite Hc.
  - apply IndexAny_none_inv in Ha. destruct Ha as [Hx Ha].
    cbn [app IndexAny]. rewrite Hx, (IH Ha). rewrite len_cons.
    pose proof (len_nonneg a).
    destruct (len a <? 0) eqn:L; btest; lia.
Qed.

Lemma IndexByte_none_inv (x : ascii) (a : gostring) (c : ascii) :
  IndexByte (x :: a) c = -1 -> byte_eqb x c = false /\ IndexByte a c = -1.
Proof.
  cbn [IndexByte]. destruct (byte_eqb x c); [discriminate|].
  destruct (IndexByte_range a c) as [E|E]; [auto|].
  destruct (IndexByte a c <? 0) eqn:L; btest; intros; lia.
Qed.


Lemma IndexByte_absent (a : gostring) (c : ascii) :
  IndexByte a c = -1 -> ~ In c a.
Proof.
  induction a as [|x a IH]; intros H [].
  - subst x. apply IndexByte_none_inv in H. destruct H as [H _].
    destruct (byte_eqb_spec c c); congruence.
  - apply IndexByte_none_inv in H. destruct H as [_ H]. now apply IH.
Qed.

Lemma IndexAny_absent (a chars : gostring) (c : ascii) :
  IndexAny a chars = -1 -> In c chars -> ~ In c a.
Proof.
  induction a as [|x a IH]; intros H Hc [].
  - subst x. apply IndexAny_none_inv in H. destruct H as [H _].
    assert (X : existsb (byte_eqb c) chars = true).
    { apply existsb_exists. exists c. split; [exact Hc|].
      destruct (byte_eqb_spec c c); congruence. }
    congruence.
  - apply IndexAny_none_inv in H. destruct H as [_ H]. now apply IH.
Qed.

Lemma firstn_len_app (a b : gostring) :
  firstn (Z.to_nat (len a)) (a ++ b) = a.
Proof.
  unfold len. rewrite Nat2Z.id, firstn_app, Nat.sub_diag, firstn_all.
  cbn [firstn]. apply app_nil_r.
Qed.

Lemma nth_len_app (a : gostring) (c : ascii) (rest : gostring) :
  nth (Z.to_nat (len a)) (a ++ c :: rest) zero = c.
Proof. unfold len. rewrite Nat2Z.id. apply nth_middle. Qed.

Lemma from_len_app (a b : gostring) (d : Z) :
  0 <= d -> from (a ++ b) (len a + d) = from b d.
Proof.
  intros Hd. pose proof (len_nonneg a).
  rewrite from_from by lia. f_equal.
  unfold from, len. rewrite Nat2Z.id, skipn_app, skipn_all, Nat.sub_diag.
  reflexivity.
Qed.

Lemma byteAt_from (s : gostring) (i d : Z) :
  0 <= i -> 0 <= d ->
  byteAt s (i + d) = nth (Z.to_nat d) (from s i) zero.
Proof. intros. symmetry. now apply nth_from. Qed.

Lemma slice_from (s : gostring) (i j : Z) :
  slice s i j = firstn (Z.to_nat (j - i)) (from s i).
Proof. reflexivity. Qed.

Lemma len_app (a b : gostring) : len (a ++ b) = len a + len b.
Proof. unfold len. rewrite length_app. lia. Qed.

Section SubstituteForms.

Variable regexpReplace : gostring -> gostring -> gostring -> gostring + error.

(** Past the last [${] the loop copies the rest of the input. *)
Lemma substituteLoop_rest (s : gostring) (vars : VariableMap) (fuel : nat) :
  forall (i start : Z) (out : gostring),
    0 <= i -> (Z.to_nat (len s - i) < fuel)%nat ->
    (forall j, i <= j -> HasPrefix (from s j) (bytes "${") = false) ->
    substituteLoop regexpReplace fuel s vars i start out
    = Some (Substituted (out ++ from s start)).
Proof.
  induction fuel as [|fuel IH]; intros i start out Hi F Hno; [lia|].
  cbn [substituteLoop].
  destruct (i <? len s) eqn:E; btest; cbn [negb]; [|reflexivity].
  rewrite Hno by lia. apply IH; try lia.
  intros j Hj. apply Hno. lia.
Qed.

(** The call of [Substitute] up to the first [${] and the iteration at
    it. *)
Lemma Substitute_first (s : gostring) (vars : VariableMap) (k : Z) :
  0 <= k ->
  (forall j, 0 <= j < k -> HasPrefix (from s j) (bytes "${") = false) ->
  HasPrefix (from s k) (bytes "${") = true ->
  Substitute regexpReplace s vars
  = match substituteAt regexpReplace s vars k 0 [] with
    | Continue i' start' out' =>
        substituteLoop regexpReplace (List.length s - Z.to_nat k) s vars
                       (i' + 1) start' out'
    | Break => Some (Substituted s)
    | Return r => Some r
    end.
Proof.
  intros Hk Hpre Hat.
  assert (L0 : k <= len s).
  { destruct (Z.le_gt_cases k (len s)); [auto|].
    rewrite from_end in Hat by lia. cbn in Hat. discriminate. }
  assert (L : k + 2 <= len s).
  { pose proof (HasPrefix_len _ _ Hat) as X. rewrite len_from in X by lia.
    change (len (bytes "${")) with 2 in X. lia. }
  unfold Substitute.
  replace (S (List.length s))
    with (Z.to_nat k + S (List.length s - Z.to_nat k))%nat
    by (unfold len in L; lia).
  rewrite (substituteLoop_skip regexpReplace s vars 0 [] (Z.to_nat k));
    try lia.
  2:{ intros j Hj. apply Hpre. lia. }
  replace (0 + Z.of_nat (Z.to_nat k)) with k by lia.
  cbn [substituteLoop].
  replace (k <? len s) with true by (symmetry; apply Z.ltb_lt; lia).
  cbn [negb]. rewrite Hat.
  destruct (substituteAt regexpReplace s vars k 0 []); try reflexivity.
Qed.

(** The frame of the theorems on one reference: the input is [pre],
    the reference [${body}] and [post]; [pre] holds no [${], and [post]
    none after its first byte. *)
Lemma Substitute_one (pre body post : gostring) (vars : VariableMap) :
  refFree pre = true ->
  let s := pre ++ bytes "${" ++ body ++ bytes "}" ++ post in
  from s (len pre) = bytes "${" ++ body ++ bytes "}" ++ post
  /\ from s (len pre + 2) = body ++ bytes "}" ++ post
  /\ slice s 0 (len pre) = pre
  /\ Substitute regexpReplace s vars
     = match substituteAt regexpReplace s vars (len pre) 0 [] with
       | Continue i' start' out' =>
           if (i' =? len pre + 2 + len body + 1)
              && (start' =? i') && refFree (from post 1)
           then Some (Substituted (out' ++ post))
           else substituteLoop regexpReplace
                  (List.length s - Z.to_nat (len pre)) s vars
                  (i' + 1) start' out'
       | Break => Some (Substituted s)
       | Return r => Some r
       end.
Proof.
  intros Hpre s. pose proof (len_nonneg pre) as Lp.
  pose proof (len_nonneg body) as Lb.
  assert (F0 : from s (len pre) = bytes "${" ++ body ++ bytes "}" ++ post).
  { unfold s. replace (len pre) with (len pre + 0) by lia.
    now rewrite from_len_app. }
  assert (F2 : from s (len pre + 2) = body ++ bytes "}" ++ post).
  { unfold s. now rewrite from_len_app. }
  split; [exact F0|]. split; [exact F2|]. split.
  { rewrite slice_from. unfold s, from. cbn [Z.to_nat skipn].
    rewrite Z.sub_0_r. apply firstn_len_app. }
  rewrite (Substitute_first s vars (len pre)); try lia.
  2:{ intros j Hj. unfold s. apply refFree_before; auto. }
  2:{ rewrite F0. reflexivity. }
  destruct (substituteAt regexpReplace s vars (len pre) 0 [])
    as [i' start' out'| |r]; try reflexivity.
  destruct ((i' =? len pre + 2 + len body + 1) && (start' =? i')
            && refFree (from post 1)) eqn:E; [|reflexivity].
  btest. subst start'.
  assert (Fp : forall d, 0 <= d -> from s (i' + d) = from post d).
  { intros d Hd. unfold s.
    replace (pre ++ bytes "${" ++ body ++ bytes "}" ++ post)
      with ((pre ++ bytes "${" ++ body ++ bytes "}") ++ post)
      by (now rewrite <- !app_assoc).
    replace i' with (len (pre ++ bytes "${" ++ body ++ bytes "}")).
    - now apply from_len_app.
    - rewrite !len_app. change (len (bytes "${")) with 2.
      change (len (bytes "}")) with 1. lia. }
  rewrite substituteLoop_rest.
  - replace i' with (i' + 0) by lia. rewrite (Fp 0) by lia. reflexivity.
  - lia.
  - assert (Ls : len s = i' + len post).
    { unfold s. rewrite !len_app. change (len (bytes "${")) with 2.
      change (len (bytes "}")) with 1. lia. }
    pose proof (len_nonneg post). unfold len in *. lia.
  - intros j Hj. replace j with (i' + (1 + (j - i' - 1))) by lia.
    rewrite Fp by lia. rewrite from_from by lia.
    apply refFree_spec. assumption.
Qed.

End SubstituteForms.

(* ================================================================== *)
(** ** Substitute: the forms of a reference *)

Lemma canSubst_eq (vars : VariableMap) (name : gostring) :
  match CanSubstitute vars with
  | Some f => f
  | None => fun _ => true
  end name = canSubst vars name.
Proof. unfold canSubst. destruct (CanSubstitute vars); reflexivity. Qed.

Lemma delimiter_tests :
  existsb (byte_eqb "}") (bytes ":/}") = true
  /\ existsb (byte_eqb ":") (bytes ":/}") = true
  /\ existsb (byte_eqb "/") (bytes ":/}") = true.
Proof. repeat split. Qed.

Section SubstituteReference.

Variable regexpReplace : gostring -> gostring -> gostring -> gostring + error.

(** The iteration at [${name}]. *)
Lemma substituteAt_plain (s : gostring) (vars : VariableMap)
      (k start : Z) (out name post : gostring) :
  0 <= k ->
  from s (k + 2) = name ++ bytes "}" ++ post ->
  IndexAny name (bytes ":/}") = -1 ->
  canSubst vars name = true ->
  substituteAt regexpReplace s vars k start out
  = if snd (Get vars name)
    then Continue (k + 2 + len name + 1) (k + 2 + len name + 1)
                  ((out ++ slice s start k) ++ fst (Get vars name))
    else Return (Failed (UndefinedVariable name)).
Proof.
  intros Hk F2 Hn Hc. pose proof (len_nonneg name) as Ln.
  unfold substituteAt. cbv zeta. rewrite F2.
  cbn [bytes list_ascii_of_string app].
  rewrite IndexAny_app by (auto; reflexivity).
  replace (len name =? -1) with false by (symmetry; apply Z.eqb_neq; lia).
  unfold switchAt. cbv zeta.
  rewrite byteAt_from by lia. rewrite F2.
  cbn [bytes list_ascii_of_string app]. rewrite nth_len_app.
  change (byte_eqb "}" ":") with false.
  change (byte_eqb "}" "/") with false.
  change (byte_eqb "}" "}") with true. cbv iota.
  rewrite slice_from, F2.
  replace (k + 2 + len name - (k + 2)) with (len name) by lia.
  rewrite firstn_len_app.
  rewrite canSubst_eq, Hc. cbn [negb]. unfold expand.
  destruct (Get vars name) as [value present]. cbn [fst snd].
  destruct present; cbn [negb]; [|reflexivity].
  f_equal; lia.
Qed.

(** X6.  A reference [${name}], with no [${] before it and none
    after the byte that follows it, is replaced by the value of the
    variable; when the variable is not defined, the call fails with the
    undefined-variable error. *)
Theorem substitute_reference (pre name post : gostring) (vars : VariableMap) :
  refFree pre = true ->
  IndexAny name (bytes ":/}") = -1 ->
  refFree (from post 1) = true ->
  canSubst vars name = true ->
  Substitute regexpReplace (pre ++ bytes "${" ++ name ++ bytes "}" ++ post)
             vars
  = Some (if snd (Get vars name)
          then Substituted (pre ++ fst (Get vars name) ++ post)
          else Failed (UndefinedVariable name)).
Proof.
  intros Hpre Hn Hpost Hc.
  destruct (Substitute_one regexpReplace pre name post vars Hpre)
    as (F0 & F2 & Sl & E).
  rewrite E. pose proof (len_nonneg pre).
  rewrite (substituteAt_plain _ vars (len pre) 0 [] name post); auto.
  destruct (snd (Get vars name)); [|reflexivity].
  rewrite !Z.eqb_refl, Hpost. cbn [andb app]. rewrite Sl.
  now rewrite <- app_assoc.
Qed.

End SubstituteReference.

(** The theorem at [x ${variable}${y}]: the reference is replaced, and
    the text after it, which begins with the byte the loop steps over,
    is kept. *)
Lemma substitute_reference_witness :
  Substitute keepValue
             (bytes "x " ++ bytes "${" ++ bytes "variable" ++ bytes "}"
              ++ bytes "${y}") exampleVars
  = Some (Substituted (bytes "x " ++ bytes "value" ++ bytes "${y}")).
Proof.
  apply (substitute_reference keepValue (bytes "x ") (bytes "variable")
           (bytes "${y}") exampleVars); reflexivity.
Defined.

Section SubstituteDefaults.

Variable regexpReplace : gostring -> gostring -> gostring -> gostring + error.





End SubstituteDefaults.




(* ================================================================== *)
(** ** Substitute: the regexp form *)

Lemma from_head (s : gostring) (j : Z) (x : ascii) (r : gostring) :
  0 <= j -> from s j = x :: r ->
  j < len s /\ byteAt s j = x /\ from s (j + 1) = r.
Proof.
  intros Hj F.
  assert (L : j < len s).
  { destruct (Z.lt_ge_cases j (len s)); [auto|].
    rewrite from_end in F by lia. discriminate. }
  split; [exact L|]. rewrite from_cons_nth in F by lia.
  inversion F. auto.
Qed.






Section SubstituteRegexp.

Variable regexpReplace : gostring -> gostring -> gostring -> gostring + error.


End SubstituteRegexp.


(* ================================================================== *)
(** ** Substitute: texts without reference, adjacent references and
       refused names *)

Section SubstituteWhole.

Variable regexpReplace : gostring -> gostring -> gostring -> gostring + error.

(** X5.  A text that holds no [${] is returned as it is. *)
Theorem substitute_no_reference (s : gostring) (vars : VariableMap) :
  refFree s = true ->
  Substitute regexpReplace s vars = Some (Substituted s).
Proof.
  intros H. unfold Substitute.
  rewrite substituteLoop_rest.
  - reflexivity.
  - lia.
  - unfold len. lia.
  - intros j _. now apply refFree_spec.
Qed.

(** X11.  A reference that begins right after the closing brace
    of a reference is not expanded: the loop steps over the byte that
    follows the brace. *)
Theorem substitute_adjacent_kept (pre name rest : gostring)
        (vars : VariableMap) :
  refFree pre = true ->
  IndexAny name (bytes ":/}") = -1 ->
  refFree rest = true ->
  canSubst vars name = true ->
  snd (Get vars name) = true ->
  Substitute regexpReplace
    (pre ++ bytes "${" ++ name ++ bytes "}" ++ bytes "${" ++ rest) vars
  = Some (Substituted (pre ++ fst (Get vars name) ++ bytes "${" ++ rest)).
Proof.
  intros Hpre Hn Hrest Hc Hp.
  destruct (Substitute_one regexpReplace pre name (bytes "${" ++ rest)
              vars Hpre) as (F0 & F2 & Sl & E).
  rewrite E. pose proof (len_nonneg pre).
  rewrite (substituteAt_plain _ _ vars (len pre) 0 [] name
             (bytes "${" ++ rest)); auto.
  rewrite Hp, !Z.eqb_refl. cbn [andb].
  assert (R : refFree (from (bytes "${" ++ rest) 1) = true) by exact Hrest.
  rewrite R. cbn [app]. rewrite Sl. now rewrite <- app_assoc.
Qed.

(** With a map that refuses every name, an iteration at a [${] leaves
    the output as it is. *)
Lemma substituteAt_refused (s : gostring) (vars : VariableMap)
      (i start : Z) (out : gostring) :
  (forall name, canSubst vars name = false) ->
  match substituteAt regexpReplace s vars i start out with
  | Continue _ start' out' => start' = start /\ out' = out
  | Break => True
  | Return Panics => True
  | Return (Failed (MalformedRegexpSubstitution _)) => True
  | Return _ => False
  end.
Proof.
  intros Hc. unfold substituteAt. cbv zeta.
  destruct (_ =? -1); [exact I|].
  unfold switchAt. cbv zeta.
  destruct (byte_eqb _ ":").
  { destruct (_ =? -1); [exact I|]. rewrite canSubst_eq, Hc. cbn. auto. }
  destruct (byte_eqb _ "/").
  { destruct (slashLoop _ _ _ _) as [j count].
    destruct (negb (count =? 3)).
    - destruct (len s <? j); exact I.
    - destruct (_ =? -1); [exact I|]. rewrite canSubst_eq, Hc. cbn. auto. }
  destruct (byte_eqb _ "}"); [|exact I].
  rewrite canSubst_eq, Hc. cbn. auto.
Qed.

Lemma substituteLoop_refused (s : gostring) (vars : VariableMap) :
  (forall name, canSubst vars name = false) ->
  forall (fuel : nat) (i : Z),
    match substituteLoop regexpReplace fuel s vars i 0 [] with
    | Some (Substituted t) => t = s
    | Some (Failed (MalformedRegexpSubstitution _)) => True
    | Some (Failed _) => False
    | Some Panics => True
    | None => True
    end.
Proof.
  intros Hc. induction fuel as [|fuel IH]; intros i; [exact I|].
  cbn [substituteLoop].
  destruct (negb (i <? len s)); [reflexivity|].
  destruct (HasPrefix _ _); [|apply IH].
  pose proof (substituteAt_refused s vars i 0 [] Hc) as A.
  destruct (substituteAt regexpReplace s vars i 0 [])
    as [i' start' out'| |r].
  - destruct A as [-> ->]. apply IH.
  - reflexivity.
  - destruct r as [t|e|]; [destruct A | destruct e; exact A | exact I].
Qed.

(** X12.  When the map's [CanSubstitute] refuses every name, the
    call returns its input as it is; the one failure left is that of a
    reference of the regexp form that lacks its slashes. *)
Theorem substitute_all_refused (s : gostring) (vars : VariableMap) :
  (forall name, canSubst vars name = false) ->
  match Substitute regexpReplace s vars with
  | Some (Substituted t) => t = s
  | Some (Failed (MalformedRegexpSubstitution _)) => True
  | Some (Failed _) => False
  | Some Panics => True
  | None => False
  end.
Proof.
  intros Hc.
  pose proof (substituteLoop_refused s vars Hc (S (List.length s)) 0) as L.
  destruct (Substitute_total regexpReplace s vars) as [r Hr].
  unfold Substitute in *. rewrite Hr in *. exact L.
Qed.

End SubstituteWhole.

(** The theorem at a text with a dollar sign and braces, but no [${]. *)
Lemma substitute_no_reference_witness :
  Substitute keepValue (bytes "cost: 5$ {net}") exampleVars
  = Some (Substituted (bytes "cost: 5$ {net}")).
Proof.
  apply (substitute_no_reference keepValue (bytes "cost: 5$ {net}")
           exampleVars).
  reflexivity.
Defined.

(** The theorem at [${variable}${variable}]. *)
Lemma substitute_adjacent_kept_witness :
  Substitute keepValue
    ([] ++ bytes "${" ++ bytes "variable" ++ bytes "}" ++ bytes "${"
        ++ bytes "variable}") exampleVars
  = Some (Substituted ([] ++ bytes "value" ++ bytes "${"
                          ++ bytes "variable}")).
Proof.
  apply (substitute_adjacent_kept keepValue [] (bytes "variable")
           (bytes "variable}") exampleVars); reflexivity.
Defined.

(** The theorem at a map that refuses every name and the text
    [a ${variable} b ${undefined:x}]. *)
Lemma substitute_all_refused_witness :
  match Substitute keepValue (bytes "a ${variable} b ${undefined:x}")
          (mkVariableMap (simpleGet []) (Some (fun _ => false))) with
  | Some (Substituted t) => t = bytes "a ${variable} b ${undefined:x}"
  | Some (Failed (MalformedRegexpSubstitution _)) => True
  | Some (Failed _) => False
  | Some Panics => True
  | None => False
  end.
Proof.
  apply (substitute_all_refused keepValue
           (bytes "a ${variable} b ${undefined:x}")
           (mkVariableMap (simpleGet []) (Some (fun _ => false)))).
  reflexivity.
Defined.

(* ================================================================== *)
(** ** The translator: the flag, the class state and the error *)


Ltac split_tests :=
  repeat match goal with
  | |- context [if ?b then _ else _] => destruct b eqn:?
  | |- context [match ?x with (_, _) => _ end] => destruct x eqn:?
  end.


(** [parseMain] enters the class state only when it has read [[]. *)
Lemma parseMain_class (p p' : globParser) :
  parseMain p = (p', Some ParseClass) -> fst (next p) = rn "[".
Proof.
  unfold parseMain, literalMain.
  destruct (next p) as [r p1] eqn:N1. cbn [fst]. clear N1.
  destruct (r =? rn "[") eqn:E; [btest; auto|].
  split_tests; intros H; inversion H.
Qed.

(** The byte that [next] has read a rune below [RuneSelf] from. *)
Lemma next_byte_in (p : globParser) (c : ascii) :
  0 <= index p -> fst (next p) = rn c -> rn c <> eof -> rn c < 128 ->
  In c (in_ p).
Proof.
  intros Hi N Hne Hs.
  destruct (next p) as [r p1] eqn:N1. cbn [fst] in N. subst r.
  destruct (next_first_byte _ _ _ N1 Hs) as [(_ & E & _)|(b & t & F & B & _)].
  - congruence.
  - apply byteZ_inj in B. subst b.
    apply (In_from_mono (in_ p) 0 (index p)); [lia|].
    rewrite F. left. reflexivity.
Qed.

(** What a state call leaves in the error slot: what was there, or,
    when the class state ends the loop, the error of the class left
    open at the offset of the cursor. *)
Lemma applyState_err (f : parseFunc) (p p' : globParser)
      (st : option parseFunc) :
  wf p -> applyState f p = Some (p', st) ->
  err p' = err p
  \/ (f = ParseClass /\ st = None
      /\ err p' = Some (GlobError (in_ p) (index p') ErrUnterminatedClass)).
Proof.
  intros W H. destruct f; cbn [applyState] in H.
  - inversion H as [E]. apply parseMain_inv in E. left. tauto.
  - unfold parseClass in H. set (q := WriteRune (rn "[") p) in *.
    destruct (parseClassLoop_total (S (List.length (in_ q))) (index q) q)
      as (p2 & st2 & E & (A & N & C)).
    + exact W.
    + unfold wf in W. simpl in *. unfold len in *. lia.
    + rewrite E in H. inversion H; subst.
      destruct C as [(?&?&?)|(?&?)]; [left|right]; auto.
Qed.

(** The error slot after the state loop, entered with an empty slot. *)
Lemma runStates_err (fuel : nat) :
  forall (st : option parseFunc) (p p' : globParser),
    wf p -> err p = None ->
    (st = Some ParseClass -> 1 <= index p) ->
    runStates fuel st p = Some p' ->
    err p' = None
    \/ exists i, 1 <= i <= len (in_ p)
                 /\ err p' = Some (GlobError (in_ p) i ErrUnterminatedClass).
Proof.
  induction fuel as [|fuel IH]; intros st p p' W E0 Hc R.
  - destruct st; [discriminate|]. inversion R; subst. left. exact E0.
  - destruct st as [f|]; [|inversion R; subst; left; exact E0].
    cbn [runStates] in R.
    destruct (applyState_total f p W) as (p1 & st1 & E & A & P).
    rewrite E in R.
    pose proof (applyState_err f p p1 st1 W E) as X.
    destruct A as (A1 & A2 & A3 & A4 & A5). pose proof (A3 W) as W1.
    destruct X as [X|(Xf & Xs & X)].
    + rewrite <- A1. apply (IH st1 p1 p' W1); [congruence| |exact R].
      intros Hs. destruct P as [P _]; [congruence|]. unfold wf in W. lia.
    + subst f st1. specialize (Hc eq_refl). unfold wf in W1.
      rewrite A1 in W1.
      destruct fuel; inversion R; subst; right;
        exists (index p'); (split; [lia|exact X]).
Qed.

(** The main state never enters the class state on a pattern without
    [[], and the error slot stays as it was. *)
Lemma runStates_no_bracket (fuel : nat) :
  forall (p p' : globParser),
    wf p -> ~ In "["%char (in_ p) ->
    runStates fuel (Some ParseMain) p = Some p' ->
    err p' = err p.
Proof.
  induction fuel as [|fuel IH]; intros p p' W Hno R; [discriminate|].
  cbn [runStates applyState] in R.
  destruct (parseMain p) as [p1 st1] eqn:E.
  pose proof (parseMain_inv _ _ _ E) as (A & Er & _).
  destruct A as (A1 & A2 & A3 & _).
  destruct st1 as [[|]|].
  - rewrite <- Er. apply IH; auto. now rewrite A1.
  - exfalso. apply Hno. apply parseMain_class in E.
    apply next_byte_in;
      [unfold wf in W; lia | exact E | vm_compute; congruence
      | vm_compute; reflexivity].
  - destruct fuel; inversion R; subst; exact Er.
Qed.





(** X15.  An error of [CompileGlob] is an error of the engine or a
    [GlobError] that names the pattern, wraps [ErrUnterminatedClass] and
    has its index between 1 and the length of the pattern. *)
Theorem compile_error_shape (pat : gostring) (e : error) :
  CompileGlob pat = Some (Err e) ->
  (exists code, e = SyntaxError code)
  \/ (exists i, 1 <= i <= len pat
                /\ e = GlobError pat i ErrUnterminatedClass
                /\ Unwrap e = Some ErrUnterminatedClass).
Proof.
  unfold CompileGlob, compileParsed.
  destruct (translate pat) as [p|] eqn:T; [|discriminate].
  unfold translate in T.
  apply runStates_err in T; [|apply wf_init|reflexivity|discriminate].
  change (in_ (initParser pat)) with pat in T.
  destruct T as [T|(i & Hi & T)]; rewrite T.
  - cbv zeta. destruct (regexp.Compile _); try discriminate.
    intros H. inversion H. left. eauto.
  - intros H. inversion H. right. exists i. auto.
Qed.

(** The theorem at the pattern [x[a-]. *)
Lemma compile_error_shape_witness :
  (exists code, GlobError (bytes "x[a-") 4 ErrUnterminatedClass
                = SyntaxError code)
  \/ (exists i, 1 <= i <= len (bytes "x[a-")
                /\ GlobError (bytes "x[a-") 4 ErrUnterminatedClass
                   = GlobError (bytes "x[a-") i ErrUnterminatedClass
                /\ Unwrap (GlobError (bytes "x[a-") 4 ErrUnterminatedClass)
                   = Some ErrUnterminatedClass).
Proof.
  apply (compile_error_shape (bytes "x[a-")). vm_compute. reflexivity.
Defined.

(** X16.  The compilation of a pattern that holds no [[] never
    fails with a [GlobError]. *)
Theorem no_bracket_no_glob_error (pat : gostring) (e : error) :
  ~ In "["%char pat ->
  CompileGlob pat = Some (Err e) -> isGlobError e = false.
Proof.
  intros Hno. unfold CompileGlob, compileParsed.
  destruct (translate pat) as [p|] eqn:T; [|discriminate].
  unfold translate in T.
  apply runStates_no_bracket in T; [|apply wf_init|exact Hno].
  change (err (initParser pat)) with (@None error) in T. rewrite T.
  cbv zeta. destruct (regexp.Compile _); try discriminate.
  intros H. inversion H. reflexivity.
Qed.

(** The theorem at the pattern [{a], which the engine rejects. *)
Lemma no_bracket_no_glob_error_witness :
  isGlobError (SyntaxError ErrMissingParen) = false.
Proof.
  apply (no_bracket_no_glob_error (bytes "{a") (SyntaxError ErrMissingParen)).
  - simpl. intuition discriminate.
  - vm_compute. reflexivity.
Defined.

(** X17.  The text that [CompileGlob] gives the engine begins with
    [^(?s)] and ends with the [$] written after the state loop. *)
Theorem emitted_text_frame (pat : gostring) :
  exists p body,
    translate pat = Some p
    /\ out (WriteRune (rn "$") p) = bytes "^(?s)" ++ body ++ bytes "$".
Proof.
  unfold translate.
  destruct (runStates_total (S (List.length pat)) (Some ParseMain)
              (initParser pat) (wf_init pat)) as (p & E & A).
  - simpl. unfold len. lia.
  - destruct A as (_ & _ & _ & [o Ho] & _).
    exists p, o. split; [exact E|].
    cbn [WriteRune set_out out]. rewrite Ho. cbn [initParser WriteString
      set_out out app]. now rewrite <- app_assoc.
Qed.

(* ================================================================== *)
(** ** The fragment of literals, [?], [*] and choices: the translator *)

Lemma Decode_ascii (c : ascii) (t : gostring) :
  byteZ c < 128 -> DecodeRuneInString (c :: t) = (byteZ c, 1).
Proof.
  intros H. pose proof (byteZ_range c) as R.
  destruct (first_cases _ R)
    as [[F ?]|[[F ?]|[(lo&hi&F&?&?&?)
                     |[(lo&hi&F&?&?&?&?)|(lo&hi&F&?&?&?&?)]]]]; try lia.
  unfold DecodeRuneInString. now rewrite F.
Qed.

Lemma Encode_ascii (c : ascii) :
  byteZ c < 128 -> EncodeRune (byteZ c) = [c].
Proof.
  intros H. pose proof (byteZ_range c) as R. unfold EncodeRune.
  replace ((0 <=? byteZ c) && (byteZ c <=? 127)) with true
    by (symmetry; apply andb_true_intro; split; apply Z.leb_le; lia).
  now rewrite ofZ_byteZ.
Qed.

Lemma eqb_eq (a b : gostring) : GoString.eqb a b = true <-> a = b.
Proof.
  revert b. induction a as [|x a IH]; intros [|y b]; cbn [GoString.eqb];
    try (split; [discriminate|congruence]); [tauto|].
  rewrite andb_true_iff, IH.
  destruct (byte_eqb_spec x y) as [->|N]; split.
  - intros [_ ->]. reflexivity.
  - intros E. inversion E. auto.
  - intros [E _]. discriminate.
  - intros E. inversion E. contradiction.
Qed.

(** A byte that none of the bytes of [l] equals fails each test
    against a byte of [l]. *)
Lemma not_among (c : ascii) (l : gostring) :
  existsb (byte_eqb c) l = false ->
  forall k, existsb (byte_eqb k) l = true -> (byteZ c =? rn k) = false.
Proof.
  intros N k Hk. rewrite <- byte_eqb_rn.
  apply existsb_exists in Hk. destruct Hk as (x & Hin & Hx).
  destruct (byte_eqb_spec k x) as [->|]; [|discriminate].
  destruct (byte_eqb c x) eqn:E; [|reflexivity].
  assert (T : existsb (byte_eqb c) l = true)
    by (apply existsb_exists; exists x; auto).
  congruence.
Qed.

Lemma plainByte_facts (c : ascii) :
  plainByte c = true ->
  1 <= byteZ c < 128
  /\ forall k, existsb (byte_eqb k) (bytes "\![{?*") = true ->
               (byteZ c =? rn k) = false.
Proof.
  unfold plainByte. intros H.
  apply andb_prop in H. destruct H as [H N].
  apply andb_prop in H. destruct H as [H1 H2].
  apply Z.leb_le in H1. apply Z.ltb_lt in H2. split; [lia|].
  apply not_among. now apply negb_true_iff.
Qed.

Lemma wordByte_facts (c : ascii) :
  wordByte c = true ->
  plainByte c = true
  /\ (byteZ c =? rn ",") = false /\ (byteZ c =? rn "}") = false.
Proof.
  unfold wordByte. intros H. apply andb_prop in H. destruct H as [P N].
  apply negb_true_iff in N. split; [exact P|].
  split; apply (not_among c (bytes ",}") N); reflexivity.
Qed.

(** The seven tests of [regexSpecial]. *)
Lemma regexSpecial_cases (c : ascii) :
  (regexSpecial (byteZ c) = true
   /\ In c (bytes ".()^$|+"))
  \/ (regexSpecial (byteZ c) = false
      /\ forall k, existsb (byte_eqb k) (bytes ".()^$|+") = true ->
                   (byteZ c =? rn k) = false).
Proof.
  unfold regexSpecial. rewrite <- !byte_eqb_rn.
  destruct (existsb (byte_eqb c) (bytes ".()^$|+")) eqn:E.
  - left. apply existsb_exists in E. destruct E as (x & Hin & Hx).
    destruct (byte_eqb_spec c x) as [->|]; [|discriminate].
    split; [|exact Hin].
    cbn in Hin. intuition (subst; reflexivity).
  - right. split.
    + cbn [bytes list_ascii_of_string existsb] in E.
      rewrite orb_false_r in E. rewrite <- !orb_assoc. exact E.
    + intros k Hk. rewrite <- byte_eqb_rn. rewrite byte_eqb_rn.
      now apply (not_among c (bytes ".()^$|+")).
Qed.

(** [next] at a byte below [RuneSelf]. *)
Lemma next_ascii (p : globParser) (c : ascii) (t : gostring) :
  reads p (c :: t) -> byteZ c < 128 ->
  next p = (byteZ c, set_index (index p + 1) (set_width 1 p))
  /\ reads (set_index (index p + 1) (set_width 1 p)) t.
Proof.
  intros [I F] H. split.
  - unfold next. rewrite F, Decode_ascii by exact H. reflexivity.
  - destruct (from_head _ _ _ _ I F) as (_ & _ & F').
    split; cbn; [lia|exact F'].
Qed.

Lemma next_end (p : globParser) :
  reads p [] -> next p = (eof, set_width 0 p).
Proof. intros [I F]. unfold next. rewrite F. reflexivity. Qed.

Lemma wrote_trans (p p1 p2 : globParser) (t1 t2 r1 r2 : gostring)
      (n1 n2 : Z) :
  wrote p p1 t1 r1 n1 -> wrote p1 p2 t2 r2 n2 ->
  wrote p p2 (t1 ++ t2) r2 n2.
Proof.
  intros (_ & O1 & E1 & G1 & _) (R2 & O2 & E2 & G2 & N2).
  unfold wrote. rewrite O2, O1, E2, E1, G2, G1, app_assoc. auto.
Qed.

(** [parseMain] at a plain byte: the byte is written, after a backslash
    if the engine gives it a meaning. *)
Lemma step_plain (p : globParser) (c : ascii) (t : gostring) :
  reads p (c :: t) -> plainByte c = true ->
  choiceNest p = 0 \/ wordByte c = true ->
  exists p', parseMain p = (p', Some ParseMain)
             /\ wrote p p' (litText c) t (choiceNest p).
Proof.
  intros R P D. destruct (plainByte_facts c P) as [B K].
  destruct (next_ascii p c t R) as [N R1]; [lia|].
  unfold parseMain. rewrite N.
  replace (byteZ c =? eof) with false
    by (symmetry; apply Z.eqb_neq; unfold eof; lia).
  rewrite (K "\"%char), (K "!"%char) by reflexivity.
  unfold litText.
  destruct (regexSpecial_cases c) as [[S _]|[S KS]]; rewrite S.
  - eexists. split; [reflexivity|].
    unfold wrote, literalMain, WriteRune. cbn. rewrite Encode_ascii by lia.
    rewrite <- app_assoc. auto.
  - rewrite (K "{"%char) by reflexivity.
    assert (L : forall q, literalMain (byteZ c)
                            (set_index (index p + 1) (set_width 1 p))
                          = (q, Some ParseMain) ->
                wrote p q [c] t (choiceNest p)).
    { unfold literalMain, WriteRune. intros q E. inversion E; subst q.
      unfold wrote. cbn. rewrite Encode_ascii by lia. auto. }
    destruct D as [D|D].
    + cbn [choiceNest set_index set_width].
      replace (choiceNest p =? 0) with true
        by (symmetry; apply Z.eqb_eq; exact D).
      rewrite (K "["%char), (K "?"%char), (K "*"%char) by reflexivity.
      eexists. split; [|apply L; reflexivity].
      destruct (byteZ c =? rn ","); [reflexivity|].
      destruct (byteZ c =? rn "}"); reflexivity.
    + destruct (wordByte_facts c D) as (_ & C1 & C2).
      rewrite C1, C2.
      rewrite (K "["%char), (K "?"%char), (K "*"%char) by reflexivity.
      eexists. split; [|apply L]; reflexivity.
Qed.

Lemma step_question (p : globParser) (t : gostring) :
  reads p ("?"%char :: t) ->
  exists p', parseMain p = (p', Some ParseMain)
             /\ wrote p p' (bytes "[^/]") t (choiceNest p).
Proof.
  intros R. destruct (next_ascii p _ t R) as [N R1]; [reflexivity|].
  unfold parseMain. rewrite N.
  eexists. split; [reflexivity|]. unfold wrote. cbn. auto.
Qed.

Lemma step_open (p : globParser) (t : gostring) :
  reads p ("{"%char :: t) ->
  exists p', parseMain p = (p', Some ParseMain)
             /\ wrote p p' (bytes "(") t (choiceNest p + 1).
Proof.
  intros R. destruct (next_ascii p _ t R) as [N R1]; [reflexivity|].
  unfold parseMain. rewrite N.
  eexists. split; [reflexivity|]. unfold wrote. cbn. auto.
Qed.

Lemma step_comma (p : globParser) (t : gostring) :
  reads p (","%char :: t) -> choiceNest p <> 0 ->
  exists p', parseMain p = (p', Some ParseMain)
             /\ wrote p p' (bytes "|") t (choiceNest p).
Proof.
  intros R H. destruct (next_ascii p _ t R) as [N R1]; [reflexivity|].
  unfold parseMain. rewrite N.
  change (byteZ "," =? eof) with false. cbv iota.
  change (byteZ "," =? rn "\") with false. cbv iota.
  change (byteZ "," =? rn "!") with false. cbv iota.
  change (regexSpecial (byteZ ",")) with false. cbv iota.
  change (byteZ "," =? rn "{") with false. cbv iota.
  change (byteZ "," =? rn ",") with true. cbv iota.
  cbn [choiceNest set_index set_width].
  replace (choiceNest p =? 0) with false
    by (symmetry; now apply Z.eqb_neq).
  eexists. split; [reflexivity|]. unfold wrote. cbn. auto.
Qed.

Lemma step_close (p : globParser) (t : gostring) :
  reads p ("}"%char :: t) -> choiceNest p <> 0 ->
  exists p', parseMain p = (p', Some ParseMain)
             /\ wrote p p' (bytes ")") t (choiceNest p - 1).
Proof.
  intros R H. destruct (next_ascii p _ t R) as [N R1]; [reflexivity|].
  unfold parseMain. rewrite N.
  change (byteZ "}" =? eof) with false. cbv iota.
  change (byteZ "}" =? rn "\") with false. cbv iota.
  change (byteZ "}" =? rn "!") with false. cbv iota.
  change (regexSpecial (byteZ "}")) with false. cbv iota.
  change (byteZ "}" =? rn "{") with false. cbv iota.
  change (byteZ "}" =? rn ",") with false. cbv iota.
  change (byteZ "}" =? rn "}") with true. cbv iota.
  cbn [choiceNest set_index set_width].
  replace (choiceNest p =? 0) with false
    by (symmetry; now apply Z.eqb_neq).
  eexists. split; [reflexivity|]. unfold wrote. cbn. auto.
Qed.

(** [parseMain] at a [*] that neither a second [*] nor a [/] follows. *)
Lemma step_star (p : globParser) (t : gostring) :
  reads p ("*"%char :: t) ->
  match t with
  | [] => True
  | c :: _ => byteZ c < 128 /\ c <> "*"%char /\ c <> "/"%char
  end ->
  exists p', parseMain p = (p', Some ParseMain)
             /\ wrote p p' (bytes "[^/]*") t (choiceNest p).
Proof.
  intros R H. destruct (next_ascii p _ t R) as [N R1]; [reflexivity|].
  unfold parseMain. rewrite N.
  change (byteZ "*" =? eof) with false. cbv iota.
  change (byteZ "*" =? rn "\") with false. cbv iota.
  change (byteZ "*" =? rn "!") with false. cbv iota.
  change (regexSpecial (byteZ "*")) with false. cbv iota.
  change (byteZ "*" =? rn "{") with false. cbv iota.
  change (byteZ "*" =? rn ",") with false. cbv iota.
  change (byteZ "*" =? rn "}") with false. cbv iota.
  change (byteZ "*" =? rn "[") with false. cbv iota.
  change (byteZ "*" =? rn "?") with false. cbv iota.
  change (byteZ "*" =? rn "*") with true. cbv iota.
  set (p1 := set_index (index p + 1) (set_width 1 p)) in *.
  destruct R1 as [I1 F1]. rewrite F1.
  assert (T : HasPrefix t (bytes "*/") = false
              /\ (fst (next p1) =? rn "*") = false
              /\ (fst (next (set_width 0 p1)) =? rn "/") = false).
  { destruct t as [|c t'].
    - rewrite (next_end p1), (next_end (set_width 0 p1))
        by (split; [exact I1|exact F1]).
      repeat split.
    - destruct H as (A & S & L).
      destruct (next_ascii p1 c t') as [N1 _];
        [split; [exact I1|exact F1]|exact A|].
      destruct (next_ascii (set_width 0 p1) c t') as [N2 _];
        [split; [exact I1|exact F1]|exact A|].
      rewrite N1, N2. cbn [fst HasPrefix bytes list_ascii_of_string].
      rewrite <- !byte_eqb_rn.
      destruct (byte_eqb_spec c "*"); [contradiction|].
      destruct (byte_eqb_spec c "/"); [contradiction|].
      split; [|split; reflexivity].
      destruct (byte_eqb_spec "*" c) as [<-|]; [contradiction|reflexivity]. }
  destruct T as (T1 & T2 & T3). rewrite T1, !peek_eq, T2.
  cbn [fst snd]. rewrite T3.
  eexists. split; [reflexivity|]. unfold wrote, reads. cbn.
  repeat split; auto.
Qed.

Lemma step_end (p : globParser) :
  reads p [] ->
  exists p', parseMain p = (p', None)
             /\ out p' = out p /\ err p' = err p /\ neg p' = neg p.
Proof.
  intros R. unfold parseMain. rewrite (next_end p R).
  eexists. split; [reflexivity|]. cbn. auto.
Qed.

(** One state call of the loop. *)
Lemma run_step (fuel : nat) (p p' : globParser) :
  parseMain p = (p', Some ParseMain) ->
  runStates (S fuel) (Some ParseMain) p
  = runStates fuel (Some ParseMain) p'.
Proof. intros E. cbn [runStates applyState]. now rewrite E. Qed.

Lemma wrote_refl (p : globParser) (rest : gostring) :
  reads p rest -> wrote p p [] rest (choiceNest p).
Proof. intros R. unfold wrote. rewrite app_nil_r. auto. Qed.

(** The loop over a word between braces, or over plain bytes outside
    of them. *)
Lemma run_word (w : gostring) :
  forall (fuel : nat) (p : globParser) (rest : gostring),
    reads p (w ++ rest) ->
    (choiceNest p = 0 /\ forallb plainByte w = true)
    \/ forallb wordByte w = true ->
    exists p',
      runStates (List.length w + fuel) (Some ParseMain) p
      = runStates fuel (Some ParseMain) p'
      /\ wrote p p' (wordText w) rest (choiceNest p).
Proof.
  induction w as [|c w IH]; intros fuel p rest R D.
  - exists p. split; [reflexivity|]. now apply wrote_refl.
  - assert (Pc : plainByte c = true
                 /\ (choiceNest p = 0 \/ wordByte c = true)).
    { cbn [forallb] in D. destruct D as [[N D]|D];
        apply andb_prop in D; destruct D as [D _]; [auto|].
      split; [|auto]. now destruct (wordByte_facts c D). }
    destruct Pc as [Pc Dc].
    destruct (step_plain p c (w ++ rest) R Pc Dc) as (p1 & E & W1).
    assert (N1 : choiceNest p1 = choiceNest p) by (destruct W1; tauto).
    destruct (IH fuel p1 rest) as (p2 & E2 & W2).
    + destruct W1. tauto.
    + rewrite N1. cbn [forallb] in D. destruct D as [[N D]|D];
        apply andb_prop in D; destruct D as [_ D]; auto.
    + exists p2. split.
      * cbn [List.length Nat.add]. rewrite (run_step _ p p1 E). exact E2.
      * rewrite N1 in W2. exact (wrote_trans _ _ _ _ _ _ _ _ _ W1 W2).
Qed.

(** The loop over the words after the first one, each with the comma
    before it. *)
Lemma run_words (ws : list gostring) :
  forall (fuel : nat) (p : globParser) (rest : gostring),
    reads p (flat_map (fun x => ","%char :: x) ws ++ rest) ->
    choiceNest p <> 0 ->
    forallb (forallb wordByte) ws = true ->
    exists p',
      runStates (List.length (flat_map (fun x => ","%char :: x) ws) + fuel)
                (Some ParseMain) p
      = runStates fuel (Some ParseMain) p'
      /\ wrote p p' (flat_map (fun x => "|"%char :: wordText x) ws) rest
               (choiceNest p).
Proof.
  induction ws as [|x ws IH]; intros fuel p rest R N A.
  - exists p. split; [reflexivity|]. now apply wrote_refl.
  - cbn [forallb] in A. apply andb_prop in A. destruct A as [Ax Aws].
    cbn [flat_map] in *. rewrite <- !app_assoc in R.
    rewrite <- app_comm_cons in R.
    destruct (step_comma p _ R N) as (p1 & E1 & W1).
    assert (N1 : choiceNest p1 = choiceNest p) by (destruct W1; tauto).
    destruct (run_word x
                (List.length (flat_map (fun x => ","%char :: x) ws) + fuel)
                p1 (flat_map (fun x => ","%char :: x) ws ++ rest))
      as (p2 & E2 & W2); [destruct W1; tauto|auto|].
    assert (N2 : choiceNest p2 = choiceNest p)
      by (destruct W2 as (_&_&_&_&->); exact N1).
    destruct (IH fuel p2 rest) as (p3 & E3 & W3);
      [destruct W2; tauto|congruence|exact Aws|].
    exists p3. split.
    + rewrite length_app. cbn [List.length Nat.add].
      rewrite (run_step _ p p1 E1), <- Nat.add_assoc, E2. exact E3.
    + rewrite N2 in W3. rewrite N1 in W2.
      pose proof (wrote_trans _ _ _ _ _ _ _ _ _ W1
                    (wrote_trans _ _ _ _ _ _ _ _ _ W2 W3)) as W.
      cbn [bytes list_ascii_of_string app] in W.
      exact W.
Qed.

(** The first byte of the text of simple items that may follow a
    [*]. *)
Lemma render_head (r : list item) :
  simple r = true -> afterRun r = true ->
  match render r with
  | [] => True
  | c :: _ => byteZ c < 128 /\ c <> "*"%char /\ c <> "/"%char
  end.
Proof.
  destruct r as [|[c| | |w ws] r]; cbn [render flat_map itemText app];
    intros S A; try exact I; try discriminate.
  - cbn [simple] in S. apply andb_prop in S. destruct S as [P _].
    destruct (plainByte_facts c P) as [B K].
    cbn [afterRun] in A. split; [lia|]. split.
    + intros ->. specialize (K "*"%char eq_refl). discriminate.
    + intros ->. discriminate.
  - repeat split; discriminate.
  - repeat split; discriminate.
Qed.

(** The loop over the items of a pattern of the fragment. *)
Lemma run_items (its : list item) :
  forall (fuel : nat) (p : globParser),
    reads p (render its) -> simple its = true -> choiceNest p = 0 ->
    exists p',
      runStates (List.length (render its) + fuel) (Some ParseMain) p
      = runStates fuel (Some ParseMain) p'
      /\ wrote p p' (regexpText its) [] 0.
Proof.
  induction its as [|it r IH]; intros fuel p R S N.
  - exists p. split; [reflexivity|]. rewrite <- N. now apply wrote_refl.
  - cbn [simple] in S. apply andb_prop in S. destruct S as [Si Sr].
    cbn [render flat_map] in R |- *. fold (render r) in R |- *.
    rewrite length_app, <- Nat.add_assoc.
    cbn [regexpText flat_map]. fold (regexpText r).
    assert (G : exists p1,
               runStates (List.length (itemText it)
                          + (List.length (render r) + fuel))
                         (Some ParseMain) p
               = runStates (List.length (render r) + fuel)
                           (Some ParseMain) p1
               /\ wrote p p1 (itemRegexp it) (render r) 0).
    { destruct it as [c| | |w ws]; cbn [itemText itemRegexp] in *.
      - destruct (step_plain p c (render r) R Si (or_introl N))
          as (p1 & E & W).
        exists p1. split; [exact (run_step _ p p1 E)|]. now rewrite <- N.
      - destruct (step_question p (render r) R) as (p1 & E & W).
        exists p1. split; [exact (run_step _ p p1 E)|]. now rewrite <- N.
      - destruct (step_star p (render r) R (render_head r Sr Si))
          as (p1 & E & W).
        exists p1. split; [exact (run_step _ p p1 E)|]. now rewrite <- N.
      - cbn [forallb] in Si. apply andb_prop in Si. destruct Si as [Sw Sws].
        cbn [bytes list_ascii_of_string app] in R.
        rewrite <- !app_assoc in R.
        destruct (step_open p _ R) as (p1 & E1 & W1).
        assert (N1 : choiceNest p1 = 1)
          by (destruct W1 as (_&_&_&_&->); lia).
        set (tail := flat_map (fun x => ","%char :: x) ws) in *.
        destruct (run_word w
                    (List.length tail + (1 + (List.length (render r) + fuel)))
                    p1 (tail ++ bytes "}" ++ render r))
          as (p2 & E2 & W2); [destruct W1; tauto|auto|].
        assert (N2 : choiceNest p2 = 1)
          by (destruct W2 as (_&_&_&_&->); exact N1).
        destruct (run_words ws (1 + (List.length (render r) + fuel)) p2
                    (bytes "}" ++ render r))
          as (p3 & E3 & W3); [destruct W2; tauto|lia|exact Sws|].
        fold tail in E3.
        assert (N3 : choiceNest p3 = 1)
          by (destruct W3 as (_&_&_&_&->); exact N2).
        destruct (step_close p3 (render r)) as (p4 & E4 & W4);
          [destruct W3; tauto|lia|].
        exists p4. split.
        + cbn [bytes list_ascii_of_string app List.length Nat.add].
          rewrite !length_app. cbn [List.length].
          rewrite (run_step _ p p1 E1).
          replace (List.length w + (List.length tail + 1)
                   + (List.length (render r) + fuel))%nat
            with (List.length w
                  + (List.length tail
                     + (1 + (List.length (render r) + fuel))))%nat by lia.
          rewrite E2, E3. exact (run_step _ p3 p4 E4).
        + rewrite N3 in W4. change (1 - 1) with 0 in W4.
          rewrite N2 in W3. rewrite N1 in W2.
          replace (choiceNest p + 1) with 1 in W1 by lia.
          pose proof (wrote_trans _ _ _ _ _ _ _ _ _ W1
                        (wrote_trans _ _ _ _ _ _ _ _ _ W2
                           (wrote_trans _ _ _ _ _ _ _ _ _ W3 W4))) as W.
          exact W. }
    destruct G as (p1 & E1 & W1).
    destruct (IH fuel p1) as (p2 & E2 & W2);
      [destruct W1; tauto|exact Sr|destruct W1; tauto|].
    exists p2. split; [now rewrite E1|].
    exact (wrote_trans _ _ _ _ _ _ _ _ _ W1 W2).
Qed.

(** The translation of a pattern of the fragment. *)
Lemma translate_items (its : list item) :
  simple its = true ->
  exists p, translate (render its) = Some p
            /\ out p = bytes "^(?s)" ++ regexpText its
            /\ err p = None /\ neg p = false.
Proof.
  intros Hs. unfold translate.
  destruct (run_items its 1 (initParser (render its)))
    as (p1 & E & (R1 & O1 & E1 & G1 & _)); [split; [cbn; lia|reflexivity]
                                           |exact Hs|reflexivity|].
  replace (S (List.length (render its)))
    with (List.length (render its) + 1)%nat by lia.
  rewrite E. destruct (step_end p1 R1) as (p2 & E2 & O2 & X2 & G2).
  cbn [runStates applyState]. rewrite E2. exists p2.
  rewrite O2, X2, G2, O1, E1, G1. auto.
Qed.

(* ================================================================== *)
(** ** The fragment: the engine *)

Lemma textRunes_ascii (s : gostring) :
  forall fuel : nat,
    Forall (fun c => byteZ c < 128) s -> (List.length s <= fuel)%nat ->
    regexp.textRunes fuel s = Some (map byteZ s).
Proof.
  induction s as [|c s IH]; intros fuel A Hf.
  - destruct fuel; reflexivity.
  - destruct fuel as [|fuel]; [simpl in Hf; lia|].
    inversion A as [|? ? Hc Hs]; subst.
    cbn [regexp.textRunes]. rewrite Decode_ascii by exact Hc.
    replace (byteZ c =? RuneError) with false
      by (symmetry; apply Z.eqb_neq; unfold RuneError; lia).
    cbn [andb]. change (from (c :: s) 1) with s.
    rewrite IH by (auto; simpl in Hf; lia). reflexivity.
Qed.

Lemma runesFuel_ascii (s : gostring) :
  forall fuel : nat,
    Forall (fun c => byteZ c < 128) s -> (List.length s <= fuel)%nat ->
    runesFuel fuel s = map byteZ s.
Proof.
  induction s as [|c s IH]; intros fuel A Hf.
  - destruct fuel; reflexivity.
  - destruct fuel as [|fuel]; [simpl in Hf; lia|].
    inversion A as [|? ? Hc Hs]; subst.
    cbn [runesFuel]. rewrite Decode_ascii by exact Hc.
    change (from (c :: s) 1) with s.
    rewrite IH by (auto; simpl in Hf; lia). reflexivity.
Qed.

(** A string whose runes are those of a text of bytes below [RuneSelf]
    is that text. *)
Lemma runes_ascii_inv (pat : gostring) :
  forall data : gostring,
    Forall (fun c => byteZ c < 128) pat ->
    runes data = map byteZ pat -> data = pat.
Proof.
  induction pat as [|c pat IH]; intros data A H.
  - destruct data as [|d t]; [reflexivity|].
    unfold runes in H. cbn [List.length runesFuel map] in H.
    destruct (DecodeRuneInString (d :: t)); discriminate.
  - inversion A as [|? ? Hc Hs]; subst.
    destruct data as [|d t]; [discriminate|].
    unfold runes in H. cbn [List.length runesFuel map] in H.
    destruct (DecodeRuneInString (d :: t)) as [r w] eqn:D.
    injection H as Hr Ht. subst r.
    destruct (Decode_width (d :: t)) as [_ W]. rewrite D in W.
    cbn [snd] in W.
    destruct (Decode_small _ _ _ D) as (c0 & t0 & E & B & ->);
      [specialize (W ltac:(discriminate)); lia | exact Hc |].
    injection E as <- <-. apply byteZ_inj in B. subst d.
    change (from (c :: t) 1) with t in Ht.
    f_equal. apply IH; assumption.
Qed.

Module fragment_facts.
Import regexp.

Lemma startsAnchored_concat (cur : list Regexp) :
  startsAnchored (concatOf (cur ++ [OpBeginText])) = true.
Proof.
  induction cur as [|x cur IH]; [reflexivity|].
  cbn [app].
  replace (concatOf (x :: cur ++ [OpBeginText]))
    with (OpConcat (concatOf (cur ++ [OpBeginText])) x)
    by (destruct cur; reflexivity).
  exact IH.
Qed.

(** The engine reads [^(?s)] as the assertion of the beginning of the
    text, with the flag [s] set. *)
Lemma parseLoop_prefix (fuel : nat) (t : list rune) :
  parseLoop (S (S fuel)) (94 :: 40 :: 63 :: 115 :: 41 :: t) [] [] []
            false false
  = parseLoop fuel t [] [] [OpBeginText] true false.
Proof. reflexivity. Qed.

Lemma parseLoop_end (fuel : nat) (cur : list Regexp) (d lr : bool) :
  parseLoop (S (S fuel)) [36] [] [] cur d lr
  = Compiled (concatOf (OpEndText :: cur)).
Proof. reflexivity. Qed.

(** The engine reads the text of a plain byte as a literal. *)
Lemma parseLoop_plain (c : ascii) (fuel : nat) (t : list rune)
      (stack : list frame) (alts cur : list Regexp) (d lr : bool) :
  plainByte c = true ->
  parseLoop (S fuel) (map byteZ (litText c) ++ t) stack alts cur d lr
  = parseLoop fuel t stack alts (OpLiteral (byteZ c) :: cur) d false.
Proof.
  intros P. destruct (plainByte_facts c P) as [_ K]. unfold litText.
  destruct (regexSpecial_cases c) as [[S Hin]|[S KS]]; rewrite S.
  - cbn in Hin.
    destruct Hin as [<-|[<-|[<-|[<-|[<-|[<-|[<-|[]]]]]]]]; reflexivity.
  - cbn [map app parseLoop]. unfold repeatOf.
    rewrite (KS "("%char), (KS "|"%char), (KS ")"%char), (KS "^"%char),
      (KS "$"%char), (KS "."%char), (K "["%char), (K "{"%char),
      (K "\"%char), (K "*"%char), (KS "+"%char), (K "?"%char)
      by reflexivity.
    reflexivity.
Qed.

Lemma parseLoop_word (w : gostring) :
  forall (fuel : nat) (t : list rune) (stack : list frame)
         (alts cur : list Regexp) (d lr : bool),
    forallb plainByte w = true ->
    exists fuel' lr',
      (fuel <= fuel')%nat
      /\ parseLoop (List.length (wordText w) + fuel)
                   (map byteZ (wordText w) ++ t) stack alts cur d lr
         = parseLoop fuel' t stack alts
                     (rev (map (fun c => OpLiteral (byteZ c)) w) ++ cur)
                     d lr'.
Proof.
  induction w as [|c w IH]; intros fuel t stack alts cur d lr A.
  - exists fuel, lr. split; [lia|reflexivity].
  - cbn [forallb] in A. apply andb_prop in A. destruct A as [Ac Aw].
    cbn [wordText flat_map]. fold (wordText w).
    rewrite map_app, <- app_assoc, length_app.
    assert (L : exists n, List.length (litText c) = S n).
    { unfold litText. destruct (regexSpecial _); eexists; reflexivity. }
    destruct L as [n L]. rewrite L. cbn [Nat.add].
    rewrite parseLoop_plain by exact Ac.
    destruct (IH (n + fuel)%nat t stack alts
                 (OpLiteral (byteZ c) :: cur) d false Aw)
      as (fuel' & lr' & Hf & E).
    exists fuel', lr'. split; [lia|].
    replace (n + List.length (wordText w) + fuel)%nat
      with (List.length (wordText w) + (n + fuel))%nat by lia.
    rewrite E. cbn [map rev]. now rewrite <- app_assoc.
Qed.

Lemma parseLoop_open (fuel : nat) (q : rune) (t : list rune)
      (stack : list frame) (alts cur : list Regexp) (d lr : bool) :
  (q =? rn "?") = false ->
  parseLoop (S fuel) (40 :: q :: t) stack alts cur d lr
  = parseLoop fuel (q :: t) (mkFrame alts cur d :: stack) [] [] d false.
Proof.
  intros H. cbn [parseLoop]. change (40 =? rn "(") with true. cbv iota.
  now rewrite H.
Qed.

Lemma parseLoop_bar (fuel : nat) (t : list rune)
      (stack : list frame) (alts cur : list Regexp) (d lr : bool) :
  parseLoop (S fuel) (124 :: t) stack alts cur d lr
  = parseLoop fuel t stack (concatOf cur :: alts) [] d false.
Proof. reflexivity. Qed.

Lemma parseLoop_close (fuel : nat) (t : list rune) (f : frame)
      (stack : list frame) (alts cur : list Regexp) (d lr : bool) :
  parseLoop (S fuel) (41 :: t) (f :: stack) alts cur d lr
  = parseLoop fuel t stack (fAlts f)
              (OpCapture (alternateOf alts (concatOf cur)) :: fCur f)
              (fDotNL f) false.
Proof. reflexivity. Qed.

Lemma parseLoop_notSlash (fuel : nat) (t : list rune)
      (stack : list frame) (alts cur : list Regexp) (d lr : bool) :
  parseLoop (S fuel) (91 :: 94 :: 47 :: 93 :: t) stack alts cur d lr
  = parseLoop fuel t stack alts (notSlash :: cur) d false.
Proof. destruct t as [|x [|y t]]; reflexivity. Qed.

Lemma parseLoop_star (fuel : nat) (q : rune) (t : list rune)
      (stack : list frame) (alts cur : list Regexp) (sub : Regexp)
      (d : bool) :
  (q =? rn "?") = false ->
  parseLoop (S fuel) (42 :: q :: t) stack alts (sub :: cur) d false
  = parseLoop fuel (q :: t) stack alts (OpStar sub :: cur) d true.
Proof.
  intros H. cbn [parseLoop]. unfold repeatOf.
  change (42 =? rn "(") with false. change (42 =? rn "|") with false.
  change (42 =? rn ")") with false. change (42 =? rn "^") with false.
  change (42 =? rn "$") with false. change (42 =? rn ".") with false.
  change (42 =? rn "[") with false. change (42 =? rn "{") with false.
  change (42 =? rn "\") with false. change (42 =? rn "*") with true.
  cbv iota. now rewrite H.
Qed.

(** The first rune of the text of a word, when another rune follows. *)
Lemma word_head (w : gostring) (q : rune) (t : list rune) :
  forallb plainByte w = true -> (q =? rn "?") = false ->
  exists q' t', map byteZ (wordText w) ++ q :: t = q' :: t'
                /\ (q' =? rn "?") = false.
Proof.
  intros A H. destruct w as [|c w]; [exists q, t; auto|].
  cbn [forallb] in A. apply andb_prop in A. destruct A as [Ac _].
  destruct (plainByte_facts c Ac) as [_ K].
  cbn [wordText flat_map]. unfold litText at 1.
  destruct (regexSpecial (byteZ c)); cbn [map app];
    eexists; eexists; (split; [reflexivity|]);
    [reflexivity | apply K; reflexivity].
Qed.

Lemma wordBytes_plain (w : gostring) :
  forallb wordByte w = true -> forallb plainByte w = true.
Proof.
  intros H. apply forallb_forall. intros c Hc.
  rewrite forallb_forall in H. now destruct (wordByte_facts c (H c Hc)).
Qed.

(** The words after the first one of a choice, each with the bar
    before it: the engine adds an alternative for each. *)
Lemma parseLoop_words (ws : list gostring) :
  forall (fuel : nat) (t : list rune) (stack : list frame)
         (alts cur : list Regexp) (d lr : bool),
    forallb (forallb wordByte) ws = true ->
    exists fuel' lr' alts' cur',
      (fuel <= fuel')%nat
      /\ parseLoop
           (List.length (flat_map (fun x => "|"%char :: wordText x) ws)
            + fuel)
           (map byteZ (flat_map (fun x => "|"%char :: wordText x) ws) ++ t)
           stack alts cur d lr
         = parseLoop fuel' t stack alts' cur' d lr'
      /\ rev alts' ++ [concatOf cur']
         = (rev alts ++ [concatOf cur]) ++ map wordRe ws.
Proof.
  induction ws as [|x ws IH]; intros fuel t stack alts cur d lr A.
  - exists fuel, lr, alts, cur. rewrite app_nil_r.
    split; [lia|]. split; reflexivity.
  - cbn [forallb] in A. apply andb_prop in A. destruct A as [Ax Aws].
    cbn [flat_map]. rewrite map_app, <- app_assoc, length_app.
    cbn [map List.length Nat.add app].
    change (byteZ "|") with 124. rewrite parseLoop_bar.
    rewrite <- app_assoc.
    destruct (parseLoop_word x
                (List.length
                   (flat_map (fun x => "|"%char :: wordText x) ws) + fuel)
                (map byteZ (flat_map (fun x => "|"%char :: wordText x) ws)
                   ++ t)
                stack (concatOf cur :: alts) [] d false
                (wordBytes_plain x Ax))
      as (f1 & lr1 & Hf1 & E1).
    rewrite <- Nat.add_assoc, E1.
    assert (F : exists k, f1
                 = (List.length
                      (flat_map (fun x => "|"%char :: wordText x) ws)
                    + k)%nat /\ (fuel <= k)%nat).
    { exists (f1 - List.length
                     (flat_map (fun x => "|"%char :: wordText x) ws))%nat.
      lia. }
    destruct F as (k & -> & Hk).
    destruct (IH k t stack (concatOf cur :: alts)
                 (rev (map (fun c => OpLiteral (byteZ c)) x) ++ []) d lr1
                 Aws)
      as (f2 & lr2 & alts2 & cur2 & Hf2 & E2 & J).
    exists f2, lr2, alts2, cur2. split; [lia|]. split; [exact E2|].
    rewrite J. cbn [rev map]. rewrite app_nil_r, <- !app_assoc.
    reflexivity.
Qed.

(** The first rune of the text of simple items, when another rune
    follows. *)
Lemma items_head (r : list item) (q : rune) (t : list rune) :
  simple r = true -> (q =? rn "?") = false ->
  exists q' t', map byteZ (regexpText r) ++ q :: t = q' :: t'
                /\ (q' =? rn "?") = false.
Proof.
  intros S H. destruct r as [|[c| | |w ws] r]; [exists q, t; auto|..];
    cbn [regexpText flat_map itemRegexp].
  - cbn [simple] in S. apply andb_prop in S. destruct S as [P _].
    destruct (plainByte_facts c P) as [_ K]. unfold litText.
    destruct (regexSpecial (byteZ c)); cbn [map app];
      eexists; eexists; (split; [reflexivity|]);
      [reflexivity | apply K; reflexivity].
  - eexists. eexists. split; reflexivity.
  - eexists. eexists. split; reflexivity.
  - eexists. eexists. split; reflexivity.
Qed.

(** The engine makes one piece of the text of an item. *)
Lemma parseLoop_item (it : item) (r : list item) :
  forall (fuel : nat) (q : rune) (t : list rune) (cur : list Regexp)
         (lr : bool),
    simple (it :: r) = true -> (q =? rn "?") = false ->
    exists fuel' lr' re,
      (fuel <= fuel')%nat
      /\ parseLoop (List.length (itemRegexp it) + fuel)
                   (map byteZ (itemRegexp it)
                      ++ map byteZ (regexpText r) ++ q :: t)
                   [] [] cur true lr
         = parseLoop fuel' (map byteZ (regexpText r) ++ q :: t)
                     [] [] (re :: cur) true lr'
      /\ pieceOf it re.
Proof.
  intros fuel q t cur lr S H.
  cbn [simple] in S. apply andb_prop in S. destruct S as [Si Sr].
  destruct (items_head r q t Sr H) as (q1 & t1 & E1 & H1).
  destruct it as [c| | |w ws]; cbn [itemRegexp pieceOf].
  - assert (L : exists n, List.length (litText c) = S n).
    { unfold litText. destruct (regexSpecial _); eexists; reflexivity. }
    destruct L as [n L]. rewrite L. cbn [Nat.add].
    rewrite parseLoop_plain by exact Si.
    exists (n + fuel)%nat, false, (OpLiteral (byteZ c)).
    split; [lia|]. split; reflexivity.
  - exists (3 + fuel)%nat, false, notSlash.
    split; [lia|]. split; [|reflexivity].
    exact (parseLoop_notSlash _ _ _ _ _ _ _).
  - exists (3 + fuel)%nat, true, (OpStar notSlash).
    split; [lia|]. split; [|reflexivity].
    rewrite E1.
    change (parseLoop (S (S (3 + fuel)))
              (91 :: 94 :: 47 :: 93 :: 42 :: q1 :: t1) [] [] cur true lr
            = parseLoop (3 + fuel) (q1 :: t1) [] []
                (OpStar notSlash :: cur) true true).
    rewrite parseLoop_notSlash. now apply parseLoop_star.
  - cbn [forallb] in Si. apply andb_prop in Si. destruct Si as [Sw Sws].
    set (tail := flat_map (fun x => "|"%char :: wordText x) ws).
    set (rest := map byteZ (regexpText r) ++ q :: t).
    cbn [bytes list_ascii_of_string app map List.length Nat.add].
    rewrite !map_app, !length_app.
    cbn [map List.length Nat.add app]. rewrite <- !app_assoc.
    cbn [app]. change (byteZ "(") with 40. change (byteZ ")") with 41.
    assert (Hd : exists q2 t2,
               map byteZ (wordText w) ++ map byteZ tail ++ 41 :: rest
               = q2 :: t2 /\ (q2 =? rn "?") = false).
    { destruct (map byteZ tail) as [|x l] eqn:Et.
      - apply word_head; [now apply wordBytes_plain|reflexivity].
      - assert (X : (x =? rn "?") = false).
        { destruct ws as [|y ws']; [discriminate|].
          unfold tail in Et. cbn in Et. inversion Et. reflexivity. }
        cbn [app]. apply word_head; [now apply wordBytes_plain|exact X]. }
    destruct Hd as (q2 & t2 & E2 & H2).
    destruct (parseLoop_word w
                (List.length tail + (1 + fuel))
                (map byteZ tail ++ 41 :: rest)
                [mkFrame [] cur true] [] [] true false
                (wordBytes_plain w Sw))
      as (f1 & lr1 & Hf1 & P1).
    assert (F : exists k, f1 = (List.length tail + k)%nat
                          /\ (1 + fuel <= k)%nat)
      by (exists (f1 - List.length tail)%nat; lia).
    destruct F as (k & -> & Hk).
    destruct (parseLoop_words ws k (41 :: rest)
                [mkFrame [] cur true] []
                (rev (map (fun c => OpLiteral (byteZ c)) w) ++ [])
                true lr1 Sws)
      as (f2 & lr2 & alts2 & cur2 & Hf2 & P2 & J).
    fold tail in P2.
    destruct f2 as [|f2]; [lia|].
    exists f2, false, (OpCapture (alternateOf alts2 (concatOf cur2))).
    split; [lia|]. split.
    + rewrite E2, parseLoop_open by exact H2.
      replace (List.length (wordText w)
               + (List.length tail + 1) + fuel)%nat
        with (List.length (wordText w)
              + (List.length tail + (1 + fuel)))%nat by lia.
      rewrite E2 in P1. etransitivity; [exact P1|].
      rewrite P2. apply parseLoop_close.
    + exists alts2, (concatOf cur2). split; [reflexivity|].
      rewrite J. cbn [rev app map]. now rewrite app_nil_r.
Qed.

(** The engine makes one piece of each item, in the order of the
    items. *)
Lemma parseLoop_items (its : list item) :
  forall (fuel : nat) (cur : list Regexp) (lr : bool),
    simple its = true ->
    exists fuel' lr' ps,
      (fuel <= fuel')%nat
      /\ parseLoop (List.length (regexpText its) + fuel)
                   (map byteZ (regexpText its) ++ [36]) [] [] cur true lr
         = parseLoop fuel' [36] [] [] (rev ps ++ cur) true lr'
      /\ Forall2 pieceOf its ps.
Proof.
  induction its as [|it r IH]; intros fuel cur lr S.
  - exists fuel, lr, []. split; [lia|]. split; [reflexivity|constructor].
  - destruct (parseLoop_item it r (List.length (regexpText r) + fuel)
                36 [] cur lr S eq_refl)
      as (f1 & lr1 & re & Hf1 & E1 & P1).
    assert (F : exists k, f1 = (List.length (regexpText r) + k)%nat
                          /\ (fuel <= k)%nat)
      by (exists (f1 - List.length (regexpText r))%nat; lia).
    destruct F as (k & -> & Hk).
    cbn [simple] in S. apply andb_prop in S. destruct S as [_ Sr].
    destruct (IH k (re :: cur) lr1 Sr) as (f2 & lr2 & ps & Hf2 & E2 & P2).
    exists f2, lr2, (re :: ps). split; [lia|]. split.
    + cbn [regexpText flat_map]. fold (regexpText r).
      rewrite map_app, <- app_assoc, length_app, <- Nat.add_assoc.
      etransitivity; [exact E1|]. etransitivity; [exact E2|].
      cbn [rev]. now rewrite <- app_assoc.
    + now constructor.
Qed.

(** The bytes of the text written for simple items are below
    [RuneSelf]. *)
Lemma litText_ascii (c : ascii) :
  plainByte c = true -> Forall (fun x => byteZ x < 128) (litText c).
Proof.
  intros P. destruct (plainByte_facts c P) as [B _]. unfold litText.
  destruct (regexSpecial _); repeat constructor; lia.
Qed.

Lemma wordText_ascii (w : gostring) :
  forallb wordByte w = true ->
  Forall (fun x => byteZ x < 128) (wordText w).
Proof.
  intros A. apply wordBytes_plain in A.
  induction w as [|c w IH]; [constructor|].
  cbn [forallb] in A. apply andb_prop in A. destruct A as [Ac Aw].
  cbn [wordText flat_map]. apply Forall_app. split; auto.
  now apply litText_ascii.
Qed.

Lemma regexpText_ascii (its : list item) :
  simple its = true -> Forall (fun x => byteZ x < 128) (regexpText its).
Proof.
  induction its as [|it r IH]; intros S; [constructor|].
  cbn [simple] in S. apply andb_prop in S. destruct S as [Si Sr].
  cbn [regexpText flat_map]. apply Forall_app. split; [|auto].
  destruct it as [c| | |w ws]; cbn [itemRegexp].
  - now apply litText_ascii.
  - repeat constructor.
  - repeat constructor.
  - cbn [forallb] in Si. apply andb_prop in Si. destruct Si as [Sw Sws].
    apply Forall_app. split; [repeat constructor|].
    apply Forall_app. split; [now apply wordText_ascii|].
    apply Forall_app. split; [|repeat constructor].
    induction ws as [|x ws IHws]; [constructor|].
    cbn [forallb] in Sws. apply andb_prop in Sws. destruct Sws as [Sx Sws].
    cbn [flat_map]. constructor; [reflexivity|].
    apply Forall_app. split; [now apply wordText_ascii|auto].
Qed.

(** The text written is at most five times as long as the pattern. *)
Lemma wordText_length (w : gostring) :
  (List.length (wordText w) <= 2 * List.length w)%nat.
Proof.
  induction w as [|c w IH]; [cbn; lia|].
  cbn [wordText flat_map]. fold (wordText w). rewrite length_app.
  assert (List.length (litText c) <= 2)%nat
    by (unfold litText; destruct (regexSpecial _); cbn; lia).
  cbn [List.length]. lia.
Qed.

Lemma regexpText_length (its : list item) :
  (List.length (regexpText its) <= 5 * List.length (render its))%nat.
Proof.
  induction its as [|it r IH]; [cbn; lia|].
  cbn [regexpText render flat_map]. fold (regexpText r) (render r).
  rewrite !length_app.
  assert (List.length (itemRegexp it) <= 5 * List.length (itemText it))%nat;
    [|lia].
  destruct it as [c| | |w ws]; cbn [itemRegexp itemText].
  - unfold litText. destruct (regexSpecial _); cbn; lia.
  - cbn. lia.
  - cbn. lia.
  - rewrite !length_app. cbn [bytes list_ascii_of_string List.length].
    pose proof (wordText_length w).
    assert (List.length (flat_map (fun x => "|"%char :: wordText x) ws)
            <= 2 * List.length (flat_map (fun x => ","%char :: x) ws))%nat;
      [|lia].
    induction ws as [|x ws IHws]; [cbn; lia|].
    cbn [flat_map List.length app]. rewrite !length_app.
    pose proof (wordText_length x). lia.
Qed.

(** The expression of a pattern of the fragment. *)
Lemma Compile_items (its : list item) :
  simple its = true -> (List.length (render its) <= 198)%nat ->
  exists ps,
    Compile (bytes "^(?s)" ++ regexpText its ++ bytes "$")
    = Compiled (concatOf (OpEndText :: rev ps ++ [OpBeginText]))
    /\ Forall2 pieceOf its ps.
Proof.
  intros Hs Hn. unfold Compile.
  pose proof (regexpText_length its) as Hl.
  assert (A : Forall (fun c => byteZ c < 128)
                (bytes "^(?s)" ++ regexpText its ++ bytes "$")).
  { apply Forall_app. split; [repeat constructor|].
    apply Forall_app. split; [|repeat constructor].
    now apply regexpText_ascii. }
  assert (Hlen : List.length (bytes "^(?s)" ++ regexpText its ++ bytes "$")
                 = (List.length (regexpText its) + 6)%nat).
  { rewrite !length_app. cbn. lia. }
  replace (maxModelled <? _)%nat with false
    by (symmetry; apply Nat.ltb_ge; rewrite Hlen; unfold maxModelled; lia).
  rewrite textRunes_ascii by (auto; lia).
  rewrite !map_app, !length_app, !length_map.
  cbn [bytes list_ascii_of_string map List.length app Nat.add].
  change (byteZ "^") with 94. change (byteZ "(") with 40.
  change (byteZ "?") with 63. change (byteZ "s") with 115.
  change (byteZ ")") with 41. change (byteZ "$") with 36.
  rewrite parseLoop_prefix.
  replace (S (S (S (S (List.length (regexpText its) + 1)))))
    with (List.length (regexpText its) + 5)%nat by lia.
  destruct (parseLoop_items its 5 [OpBeginText] false Hs)
    as (f & lr & ps & Hf & E & P).
  rewrite E. destruct f as [|[|f]]; [lia..|].
  rewrite parseLoop_end. exists ps. auto.
Qed.

(** *** Matching *)

Lemma matchHere_snoc (X : list Regexp) (a : Regexp) :
  forall (b : bool) (s : list rune) (k : continuation),
    matchHere (concatOf (X ++ [a])) b s k
    = matchHere a b s (fun b' s' => matchHere (concatOf X) b' s' k).
Proof.
  induction X as [|x X IH]; intros b s k; [reflexivity|].
  cbn [app].
  replace (concatOf (x :: X ++ [a]))
    with (OpConcat (concatOf (X ++ [a])) x)
    by (destruct X; reflexivity).
  cbn [matchHere]. rewrite IH. destruct X; reflexivity.
Qed.

Lemma notSlash_test (x : rune) :
  classMatches true [(47, 47)] x = negb (x =? rn "/").
Proof.
  unfold classMatches, inRange. cbn [existsb fst snd xorb].
  rewrite orb_false_r. change (rn "/") with 47. f_equal.
  destruct (Z.eqb_spec x 47) as [->|N]; [reflexivity|].
  destruct (Z.leb_spec 47 x); destruct (Z.leb_spec x 47); try reflexivity.
  lia.
Qed.

(** A repetition of the class [[^/]] runs over runes other than the
    slash. *)
Lemma starLoop_run (k : continuation) (f : list rune -> bool) :
  (forall b s, k b s = f s) ->
  forall (fuel : nat) (b : bool) (s : list rune),
    (List.length s <= fuel)%nat ->
    starLoop (matchHere notSlash) fuel b s k = runOf f s.
Proof.
  intros Hk. induction fuel as [|fuel IH]; intros b s Hf.
  - destruct s; [|simpl in Hf; lia]. cbn. rewrite Hk. now rewrite orb_false_r.
  - cbn [starLoop]. unfold notSlash at 1. cbn [matchHere].
    destruct s as [|x s]; cbn [oneRune runOf].
    + rewrite Hk. cbn. now rewrite orb_false_r.
    + rewrite notSlash_test, Hk.
      replace (List.length s <? List.length (x :: s))%nat with true
        by (symmetry; apply Nat.ltb_lt; simpl; lia).
      cbn [andb]. rewrite IH by (simpl in Hf; lia). apply orb_comm.
Qed.

Lemma matchHere_wordRe (w : gostring) :
  forall (b : bool) (s : list rune) (k : continuation),
    matchHere (wordRe w) b s k
    = match stripPrefix (map byteZ w) s with
      | Some s' => k (match w with [] => b | _ :: _ => false end) s'
      | None => false
      end.
Proof.
  unfold wordRe. induction w as [|c w IH]; intros b s k; [reflexivity|].
  cbn [map rev]. rewrite matchHere_snoc.
  destruct s as [|x s]; cbn [matchHere oneRune stripPrefix]; [reflexivity|].
  destruct (byteZ c =? x); [|reflexivity]. cbn [andb]. rewrite IH.
  destruct (stripPrefix _ _); [|reflexivity]. destruct w; reflexivity.
Qed.

Lemma matchHere_alternateOf (alts : list Regexp) :
  forall (last : Regexp) (b : bool) (s : list rune) (k : continuation),
    matchHere (alternateOf alts last) b s k
    = existsb (fun re => matchHere re b s k) (rev alts ++ [last]).
Proof.
  induction alts as [|x alts IH]; intros last b s k.
  - cbn. now rewrite orb_false_r.
  - cbn [alternateOf matchHere rev]. rewrite IH, !existsb_app.
    cbn [existsb]. now rewrite !orb_false_r.
Qed.

Lemma existsb_eq {A : Type} (f g : A -> bool) (l : list A) :
  (forall x, f x = g x) -> existsb f l = existsb g l.
Proof.
  intros H. induction l as [|x l IH]; [reflexivity|].
  cbn [existsb]. now rewrite H, IH.
Qed.

(** The pieces of the items, followed by the end of the text, match
    the candidates of the items. *)
Lemma matchHere_items (its : list item) (ps : list Regexp) :
  Forall2 pieceOf its ps ->
  forall (b : bool) (s : list rune),
    matchHere (concatOf (rev (ps ++ [OpEndText]))) b s (fun _ _ => true)
    = itemsMatch its s.
Proof.
  induction 1 as [|it re r ps P _ IH]; intros b s.
  - destruct s; reflexivity.
  - cbn [app rev]. rewrite matchHere_snoc.
    destruct it as [c| | |w ws]; cbn [pieceOf] in P.
    + subst re.
      destruct s as [|x s]; cbn [matchHere oneRune itemsMatch];
        [reflexivity|].
      now rewrite IH.
    + subst re. unfold notSlash.
      destruct s as [|x s]; cbn [matchHere oneRune itemsMatch];
        [reflexivity|].
      now rewrite notSlash_test, IH.
    + subst re. cbn [matchHere itemsMatch].
      apply starLoop_run; [intros; apply IH|lia].
    + destruct P as (alts & last & -> & J).
      cbn [matchHere]. rewrite matchHere_alternateOf, J.
      cbn [itemsMatch].
      generalize (w :: ws). intros l. induction l as [|x l IHl];
        [reflexivity|].
      cbn [map existsb]. rewrite IHl, matchHere_wordRe. f_equal.
      destruct (stripPrefix _ _); [apply IH|reflexivity].
Qed.

End fragment_facts.

(** A pattern of the fragment, of at most 198 bytes, compiles to a
    matcher that is not negated and that matches the candidates of the
    items. *)
Lemma items_compile (its : list item) :
  simple its = true -> (List.length (render its) <= 198)%nat ->
  exists g, CompileGlob (render its) = Some (Ok g) /\ negated g = false
            /\ forall data, Match g data = itemsMatch its (runes data).
Proof.
  intros S Hn.
  destruct (translate_items its S) as (p & T & O & E & G).
  unfold CompileGlob, compileParsed. rewrite T, E.
  unfold WriteRune. cbn [out set_out neg].
  rewrite O. change (EncodeRune (rn "$")) with (bytes "$").
  rewrite <- app_assoc.
  destruct (fragment_facts.Compile_items its S Hn) as (ps & C & P).
  rewrite C. eexists. split; [reflexivity|]. split; [exact G|].
  intros data. unfold Match. cbn [re].
  rewrite regexp_facts.MatchString_anchored
    by apply (fragment_facts.startsAnchored_concat (_ :: _)).
  change (regexp.OpEndText :: rev ps ++ [regexp.OpBeginText])
    with ((regexp.OpEndText :: rev ps) ++ [regexp.OpBeginText]).
  rewrite fragment_facts.matchHere_snoc. cbn [regexp.matchHere andb].
  replace (regexp.OpEndText :: rev ps)
    with (rev (ps ++ [regexp.OpEndText]))
    by (rewrite rev_app_distr; reflexivity).
  now apply fragment_facts.matchHere_items.
Qed.

(* ================================================================== *)
(** ** The fragment: what the patterns match *)

Lemma render_lits (pat : gostring) : render (map Lit pat) = pat.
Proof.
  induction pat as [|c pat IH]; [reflexivity|].
  cbn [map render flat_map itemText app]. fold (render (map Lit pat)).
  now rewrite IH.
Qed.

Lemma render_app (a b : list item) : render (a ++ b) = render a ++ render b.
Proof. apply flat_map_app. Qed.

Lemma simple_lits_app (pre : gostring) (its : list item) :
  forallb plainByte pre = true -> simple its = true ->
  simple (map Lit pre ++ its) = true.
Proof.
  intros A S. induction pre as [|c pre IH]; [exact S|].
  cbn [forallb] in A. apply andb_prop in A. destruct A as [Ac Ap].
  cbn [map app simple]. now rewrite Ac, IH.
Qed.

Lemma simple_lits (pat : gostring) :
  forallb plainByte pat = true -> simple (map Lit pat) = true.
Proof.
  intros A. rewrite <- (app_nil_r (map Lit pat)).
  now apply simple_lits_app.
Qed.

Lemma plainBytes_ascii (pat : gostring) :
  forallb plainByte pat = true -> Forall (fun c => byteZ c < 128) pat.
Proof.
  intros A. apply Forall_forall. intros c Hc.
  rewrite forallb_forall in A.
  destruct (plainByte_facts c (A c Hc)). lia.
Qed.

(** The candidates of items that begin with literal bytes. *)
Lemma itemsMatch_lits (pat : gostring) (its : list item) :
  forall s : list rune,
    itemsMatch (map Lit pat ++ its) s = true
    <-> exists rest, s = map byteZ pat ++ rest /\ itemsMatch its rest = true.
Proof.
  induction pat as [|c pat IH]; intros s.
  - cbn [map app]. split.
    + intros H. exists s. auto.
    + intros (rest & -> & H). exact H.
  - cbn [map app itemsMatch]. destruct s as [|x s].
    + split; [discriminate|]. intros (rest & E & _). discriminate.
    + rewrite andb_true_iff, IH, Z.eqb_eq. split.
      * intros (-> & rest & -> & H). exists rest. auto.
      * intros (rest & E & H). inversion E; subst. split; [reflexivity|].
        exists rest. auto.
Qed.

Lemma itemsMatch_nil (s : list rune) : itemsMatch [] s = true <-> s = [].
Proof. destruct s; cbn; split; congruence. Qed.

Lemma stripPrefix_spec (w s s' : list rune) :
  stripPrefix w s = Some s' <-> s = w ++ s'.
Proof.
  revert s. induction w as [|a w IH]; intros s; cbn [stripPrefix app].
  - split; congruence.
  - destruct s as [|x s]; [split; discriminate|].
    destruct (Z.eqb_spec a x) as [->|N].
    + rewrite IH. split; congruence.
    + split; [discriminate|]. intros E. inversion E. congruence.
Qed.

(** A run of runes other than the slash, and then a candidate of
    [k]. *)
Lemma runOf_spec (k : list rune -> bool) (s : list rune) :
  runOf k s = true
  <-> exists stem rest, s = stem ++ rest
                        /\ Forall (fun r => r <> rn "/") stem
                        /\ k rest = true.
Proof.
  induction s as [|x s IH]; cbn [runOf].
  - rewrite orb_false_r. split.
    + intros H. exists [], []. auto.
    + intros (stem & rest & E & _ & H).
      symmetry in E. apply app_eq_nil in E. destruct E as [_ ->]. exact H.
  - rewrite orb_true_iff, andb_true_iff, negb_true_iff, Z.eqb_neq, IH.
    split.
    + intros [H|(N & stem & rest & -> & F & H)].
      * exists [], (x :: s). auto.
      * exists (x :: stem), rest. auto.
    + intros (stem & rest & E & F & H). destruct stem as [|y stem].
      * left. cbn in E. now subst rest.
      * right. inversion E; subst. inversion F; subst.
        split; [assumption|]. exists stem, rest. auto.
Qed.

(** X18.  For every pattern of the fragment of at most 198
    bytes and every candidate, [GlobMatch] returns without error, and
    returns whether the runes of the candidate are a candidate of the
    items: a plain byte stands for itself, [?] for one rune other than
    the slash, [*] for a run of runes other than the slash, a brace
    choice for one of its words. *)
Theorem fragment_candidates (its : list item) (data : gostring) :
  simple its = true -> (List.length (render its) <= 198)%nat ->
  GlobMatch (render its) data = Some (Ok (itemsMatch its (runes data))).
Proof.
  intros S Hn. destruct (items_compile its S Hn) as (g & E & _ & M).
  unfold GlobMatch. now rewrite E, M.
Qed.

(** The theorem at the pattern [*.{go,mod}] and the candidate [go.mod]. *)
Lemma fragment_candidates_witness :
  GlobMatch
    (render [AnyRun; Lit "."; Choice (bytes "go") [bytes "mod"]])
    (bytes "go.mod")
  = Some (Ok (itemsMatch [AnyRun; Lit "."; Choice (bytes "go") [bytes "mod"]]
                (runes (bytes "go.mod")))).
Proof.
  apply (fragment_candidates
           [AnyRun; Lit "."; Choice (bytes "go") [bytes "mod"]]
           (bytes "go.mod")).
  - reflexivity.
  - cbn. lia.
Defined.

(** X19.  A pattern of at most 198 plain bytes compiles to a
    matcher that is not negated and that matches the pattern text and
    no other candidate. *)
Theorem plain_pattern_matches_itself (pat : gostring) :
  forallb plainByte pat = true -> (List.length pat <= 198)%nat ->
  exists g, CompileGlob pat = Some (Ok g) /\ negated g = false
            /\ forall data, Match g data = GoString.eqb data pat.
Proof.
  intros A Hn.
  destruct (items_compile (map Lit pat)) as (g & E & G & M).
  - now apply simple_lits.
  - now rewrite render_lits.
  - rewrite render_lits in E. exists g. split; [exact E|].
    split; [exact G|]. intros data. rewrite M.
    apply eq_true_iff_eq. rewrite eqb_eq.
    rewrite <- (app_nil_r (map Lit pat)), itemsMatch_lits. split.
    + intros (rest & R & H). apply itemsMatch_nil in H. subst rest.
      rewrite app_nil_r in R.
      apply runes_ascii_inv; [now apply plainBytes_ascii|exact R].
    + intros ->. exists []. rewrite app_nil_r. split; [|reflexivity].
      unfold runes. apply runesFuel_ascii; [now apply plainBytes_ascii|lia].
Qed.

(** The theorem at the pattern [Makefile.am]. *)
Lemma plain_pattern_matches_itself_witness :
  exists g, CompileGlob (bytes "Makefile.am") = Some (Ok g)
            /\ negated g = false
            /\ forall data,
                 Match g data = GoString.eqb data (bytes "Makefile.am").
Proof.
  apply (plain_pattern_matches_itself (bytes "Makefile.am")).
  - reflexivity.
  - cbn. lia.
Defined.

(** X20.  Between plain bytes, a [*] that no slash follows stands
    for a run of runes other than the slash: the pattern matches the
    candidates whose runes are the bytes before the [*], such a run, and
    the bytes after the [*]. *)
Theorem star_stays_in_component (pre post : gostring) :
  forallb plainByte pre = true -> forallb plainByte post = true ->
  HasPrefix post (bytes "/") = false ->
  (List.length (pre ++ bytes "*" ++ post) <= 198)%nat ->
  exists g,
    CompileGlob (pre ++ bytes "*" ++ post) = Some (Ok g)
    /\ forall data,
         Match g data = true
         <-> exists stem,
               runes data = map byteZ pre ++ stem ++ map byteZ post
               /\ Forall (fun r => r <> rn "/") stem.
Proof.
  intros Apre Apost Hs Hn.
  assert (R : render (map Lit pre ++ AnyRun :: map Lit post)
              = pre ++ bytes "*" ++ post).
  { rewrite render_app, render_lits.
    cbn [render flat_map itemText]. fold (render (map Lit post)).
    now rewrite render_lits. }
  destruct (items_compile (map Lit pre ++ AnyRun :: map Lit post))
    as (g & E & _ & M).
  - apply simple_lits_app; [exact Apre|].
    cbn [simple]. rewrite (simple_lits post Apost), andb_true_r.
    destruct post as [|c post]; [reflexivity|].
    cbn [map afterRun]. cbn in Hs. rewrite andb_true_r in Hs.
    apply negb_true_iff.
    destruct (byte_eqb_spec c "/") as [->|]; [discriminate|reflexivity].
  - now rewrite R.
  - rewrite R in E. exists g. split; [exact E|]. intros data.
    rewrite M, itemsMatch_lits. cbn [itemsMatch]. split.
    + intros (rest & Hd & H). apply runOf_spec in H.
      destruct H as (stem & rest' & -> & F & H).
      rewrite <- (app_nil_r (map Lit post)) in H.
      apply itemsMatch_lits in H. destruct H as (r2 & -> & H).
      apply itemsMatch_nil in H. subst r2. rewrite app_nil_r in Hd.
      exists stem. auto.
    + intros (stem & Hd & F). exists (stem ++ map byteZ post).
      split; [exact Hd|]. apply runOf_spec.
      exists stem, (map byteZ post). split; [reflexivity|].
      split; [exact F|].
      rewrite <- (app_nil_r (map Lit post)). apply itemsMatch_lits.
      exists []. now rewrite app_nil_r.
Qed.

(** The theorem at the pattern [lib*.so]. *)
Lemma star_stays_in_component_witness :
  exists g,
    CompileGlob (bytes "lib" ++ bytes "*" ++ bytes ".so") = Some (Ok g)
    /\ forall data,
         Match g data = true
         <-> exists stem,
               runes data
               = map byteZ (bytes "lib") ++ stem ++ map byteZ (bytes ".so")
               /\ Forall (fun r => r <> rn "/") stem.
Proof.
  apply (star_stays_in_component (bytes "lib") (bytes ".so")).
  - reflexivity.
  - reflexivity.
  - reflexivity.
  - cbn. lia.
Defined.

(** X21.  Between plain bytes, a brace choice between words of
    plain bytes other than the comma and the closing brace stands for
    one of its words: the pattern matches the candidates made of the
    bytes before the choice, one of the words, and the bytes after the
    choice. *)
Theorem choice_matches_alternatives (pre post w : gostring)
        (ws : list gostring) :
  forallb plainByte pre = true -> forallb plainByte post = true ->
  forallb (forallb wordByte) (w :: ws) = true ->
  (List.length (pre ++ itemText (Choice w ws) ++ post) <= 198)%nat ->
  exists g,
    CompileGlob (pre ++ itemText (Choice w ws) ++ post) = Some (Ok g)
    /\ forall data,
         Match g data = true
         <-> exists x, In x (w :: ws) /\ data = pre ++ x ++ post.
Proof.
  intros Apre Apost Aw Hn.
  assert (R : render (map Lit pre ++ Choice w ws :: map Lit post)
              = pre ++ itemText (Choice w ws) ++ post).
  { rewrite render_app, render_lits.
    cbn [render flat_map]. fold (render (map Lit post)).
    now rewrite render_lits. }
  destruct (items_compile (map Lit pre ++ Choice w ws :: map Lit post))
    as (g & E & _ & M).
  - apply simple_lits_app; [exact Apre|].
    cbn [simple]. now rewrite Aw, (simple_lits post Apost).
  - now rewrite R.
  - rewrite R in E. exists g. split; [exact E|]. intros data.
    assert (Asc : forall x, In x (w :: ws) ->
                    Forall (fun c => byteZ c < 128) (pre ++ x ++ post)).
    { intros x Hx. rewrite forallb_forall in Aw.
      apply Forall_app. split; [now apply plainBytes_ascii|].
      apply Forall_app. split; [|now apply plainBytes_ascii].
      apply plainBytes_ascii. apply fragment_facts.wordBytes_plain. auto. }
    rewrite M, itemsMatch_lits. cbn [itemsMatch].
    split.
    + intros (rest & Hd & H). apply existsb_exists in H.
      destruct H as (x & Hx & H). exists x. split; [exact Hx|].
      destruct (stripPrefix (map byteZ x) rest) as [s'|] eqn:P;
        [|discriminate].
      apply stripPrefix_spec in P. subst rest.
      rewrite <- (app_nil_r (map Lit post)) in H.
      apply itemsMatch_lits in H. destruct H as (r2 & -> & H).
      apply itemsMatch_nil in H. subst r2. rewrite app_nil_r in Hd.
      apply runes_ascii_inv; [now apply Asc|].
      now rewrite !map_app.
    + intros (x & Hx & ->).
      exists (map byteZ x ++ map byteZ post). split.
      * unfold runes. rewrite runesFuel_ascii by (auto; lia).
        now rewrite !map_app.
      * apply existsb_exists. exists x. split; [exact Hx|].
        replace (stripPrefix (map byteZ x) (map byteZ x ++ map byteZ post))
          with (Some (map byteZ post))
          by (symmetry; now apply stripPrefix_spec).
        rewrite <- (app_nil_r (map Lit post)). apply itemsMatch_lits.
        exists []. now rewrite app_nil_r.
Qed.

(** The theorem at the pattern [main.{c,h,cc}]. *)
Lemma choice_matches_alternatives_witness :
  exists g,
    CompileGlob (bytes "main." ++ itemText (Choice (bytes "c")
                                              [bytes "h"; bytes "cc"]) ++ [])
    = Some (Ok g)
    /\ forall data,
         Match g data = true
         <-> exists x, In x [bytes "c"; bytes "h"; bytes "cc"]
                       /\ data = bytes "main." ++ x ++ [].
Proof.
  apply (choice_matches_alternatives (bytes "main.") [] (bytes "c")
           [bytes "h"; bytes "cc"]).
  - reflexivity.
  - reflexivity.
  - reflexivity.
  - cbn. lia.
Defined.

(* ================================================================== *)
(** ** The fragment: candidates and slashes *)

(** A slash of the candidate is a slash among its runes. *)
Lemma slash_rune (fuel : nat) :
  forall s : gostring,
    (List.length s <= fuel)%nat -> In "/"%char s ->
    In (rn "/") (runesFuel fuel s).
Proof.
  induction fuel as [|fuel IH]; intros s Hf Hin.
  - destruct s; [destruct Hin|simpl in Hf; lia].
  - destruct s as [|c t]; [destruct Hin|].
    cbn [runesFuel].
    destruct (DecodeRuneInString (c :: t)) as [r w] eqn:D.
    destruct (Decode_width (c :: t)) as [W1 W2]. rewrite D in W1, W2.
    cbn [snd] in W1, W2. specialize (W2 ltac:(discriminate)).
    assert (Hl : (List.length (from (c :: t) w) <= fuel)%nat).
    { pose proof (len_from (c :: t) w ltac:(lia)) as L.
      unfold len in L. simpl in Hf. cbn [List.length] in L. lia. }
    destruct (Decode_bytes _ _ _ D ltac:(lia))
      as [(Hr & -> & c0 & t0 & E & B)|(Hr & _ & Hh)].
    + inversion E; subst c0 t0. change (from (c :: t) 1) with t in *.
      destruct Hin as [->|Hin]; [left; now rewrite <- B|].
      right. now apply IH.
    + right. apply IH; [exact Hl|].
      rewrite <- (firstn_skipn (Z.to_nat w) (c :: t)) in Hin.
      apply in_app_or in Hin. destruct Hin as [Hin|Hin]; [|exact Hin].
      rewrite Forall_forall in Hh. specialize (Hh _ Hin).
      unfold high in Hh. vm_compute in Hh. exfalso. now apply Hh.
Qed.

(** The candidates of items whose text holds no slash hold no slash. *)
Lemma itemsMatch_no_slash (its : list item) :
  forall s : list rune,
    ~ In "/"%char (render its) -> itemsMatch its s = true ->
    ~ In (rn "/") s.
Proof.
  induction its as [|it r IH]; intros s Hno H.
  - apply itemsMatch_nil in H. subst s. intros [].
  - cbn [render flat_map] in Hno. fold (render r) in Hno.
    assert (Hr : ~ In "/"%char (render r))
      by (intros X; apply Hno, in_or_app; auto).
    assert (Hi : ~ In "/"%char (itemText it))
      by (intros X; apply Hno, in_or_app; auto).
    destruct it as [c| | |w ws]; cbn [itemsMatch] in H.
    + destruct s as [|x s]; [discriminate|].
      apply andb_prop in H. destruct H as [E H]. apply Z.eqb_eq in E.
      intros [X|X]; [|exact (IH s Hr H X)].
      apply Hi. left. apply byteZ_inj. unfold rn in X. congruence.
    + destruct s as [|x s]; [discriminate|].
      apply andb_prop in H. destruct H as [E H].
      apply negb_true_iff, Z.eqb_neq in E.
      intros [X|X]; [congruence|exact (IH s Hr H X)].
    + apply runOf_spec in H. destruct H as (stem & rest & -> & F & H).
      intros X. apply in_app_or in X. destruct X as [X|X].
      * rewrite Forall_forall in F. now apply (F _ X).
      * exact (IH rest Hr H X).
    + apply existsb_exists in H. destruct H as (x & Hx & H).
      destruct (stripPrefix (map byteZ x) s) as [s'|] eqn:P;
        [|discriminate].
      apply stripPrefix_spec in P. subst s.
      intros X. apply in_app_or in X. destruct X as [X|X];
        [|exact (IH s' Hr H X)].
      apply in_map_iff in X. destruct X as (c & B & Hc).
      apply byteZ_inj in B. subst c.
      apply Hi. cbn [itemText]. apply in_or_app. right.
      destruct Hx as [<-|Hx]; [apply in_or_app; auto|].
      apply in_or_app. right. apply in_or_app. left.
      apply in_flat_map. exists x. split; [exact Hx|]. now right.
Qed.

(** X22.  A pattern of the fragment whose text holds no slash
    matches no candidate that holds a slash: neither [?] nor [*] stands
    for a slash. *)
Theorem wildcards_match_no_slash (its : list item) (data : gostring) :
  simple its = true -> (List.length (render its) <= 198)%nat ->
  ~ In "/"%char (render its) ->
  In "/"%char data ->
  GlobMatch (render its) data = Some (Ok false).
Proof.
  intros S Hn Hno Hd.
  destruct (items_compile its S Hn) as (g & E & _ & M).
  unfold GlobMatch. rewrite E, M.
  destruct (itemsMatch its (runes data)) eqn:H; [|reflexivity].
  exfalso. apply (itemsMatch_no_slash its (runes data) Hno H).
  apply slash_rune; [lia|exact Hd].
Qed.

(** The theorem at the pattern [*.go] and the candidate [cmd/main.go]. *)
Lemma wildcards_match_no_slash_witness :
  GlobMatch (render [AnyRun; Lit "."; Lit "g"; Lit "o"])
            (bytes "cmd/main.go")
  = Some (Ok false).
Proof.
  apply (wildcards_match_no_slash [AnyRun; Lit "."; Lit "g"; Lit "o"]
           (bytes "cmd/main.go")).
  - reflexivity.
  - cbn. lia.
  - cbn. intuition discriminate.
  - cbn. auto 10.
Defined.
